(** * Running-dinner planner (route-opt/cli.py)

    A shallow embedding of the planner: the assembly of the problem data
    (CSV rows, divisibility check, distance matrix), the construction of
    the mixed-integer model handed to PuLP, and the decoding of a solved
    model into the group view and the team view.

    Conventions.
    - Python [range(n)] is [seq 0 n]; a comprehension
      [[e for x in xs for y in ys if p]] is a bind in the list monad,
      [x ← xs; y ← ys; if p then [e] else []].
    - A raising computation returns [inl e]; [pyresult] is the error monad.
    - Team numbers are small integers, for which CPython's identity test
      [j is not i] is the same as [j != i]; it is read as [j ≠ i].
    - Preference scores are Python floats and are read as the rationals they
      denote; the rounding of float division is not modelled.  Travel times
      are integers (minutes).  A solved variable has a rational value. *)

From Stdlib Require Import ZArith QArith Qabs Lia Lqa.
From stdpp Require Import base list gmap strings pretty.

(** ** Python results and exceptions *)

Inductive exn : Type :=
| SystemExit (code : Z) (printed : list string)
    (* exit(code), with the lines printed immediately before it *)
| ZeroDivisionError
| ValueError (msg : string)
| KeyError (key : string)
| IndexError
| TypeError
| NameError (ident : string)
| AttributeError (attr : string)
| ProviderError (msg : string).
    (* any exception raised inside a travel-time engine *)

Definition pyresult (A : Type) : Type := (exn + A)%type.

Global Instance pyresult_ret : MRet pyresult := λ A x, inr x.
Global Instance pyresult_bind : MBind pyresult := λ A B f m,
  match m with
  | inl e => inl e
  | inr x => f x
  end.

Global Instance pyresult_fmap : FMap pyresult := λ A B f m,
  match m with
  | inl e => inl e
  | inr x => inr (f x)
  end.

Definition raise {A} (e : exn) : pyresult A := inl e.

(** [except Exception] does not catch [SystemExit]. *)
Definition is_Exception (e : exn) : bool :=
  match e with
  | SystemExit _ _ => false
  | _ => true
  end.

(** ** The modelling layer (PuLP) *)

Inductive LpVariable : Type :=
| assignment (t g c : nat)
| chef (t g c : nat)
| arc (c i j t g : nat)
| maxDuration
| large_team (t : nat).

Global Instance LpVariable_eq_dec : EqDecision LpVariable.
Proof. solve_decision. Defined.

Global Instance Q_eq_dec : EqDecision Q.
Proof. solve_decision. Defined.

Record LpAffineExpression : Type := {
  terms : list (Q * LpVariable);
  constant : Q
}.

Definition lpSum (ts : list (Q * LpVariable)) : LpAffineExpression :=
  {| terms := ts; constant := 0 |}.

Definition var (v : LpVariable) : LpAffineExpression := lpSum [(1%Q, v)].

Definition num (z : Z) : LpAffineExpression :=
  {| terms := []; constant := inject_Z z |}.

Inductive LpConstraint : Type :=
| LpLE (l r : LpAffineExpression)
| LpEQ (l r : LpAffineExpression)
| LpGE (l r : LpAffineExpression).

Global Instance LpAffineExpression_eq_dec : EqDecision LpAffineExpression.
Proof. solve_decision. Defined.

Global Instance LpConstraint_eq_dec : EqDecision LpConstraint.
Proof. solve_decision. Defined.

Record LpProblem : Type := {
  objective : LpAffineExpression;
  constraints : list LpConstraint;
  binaries : list LpVariable;     (* declared with bounds 0, 1, integer *)
  nonnegatives : list LpVariable  (* declared with lowBound=0 *)
}.

(** *** Values of a solved model *)

Definition solution : Type := LpVariable → Q.

Definition sumQ {A} (f : A → Q) (l : list A) : Q :=
  foldr (λ x acc, f x + acc)%Q 0%Q l.

Definition value (sol : solution) (e : LpAffineExpression) : Q :=
  (constant e + sumQ (λ tm, tm.1 * sol tm.2) (terms e))%Q.

Definition holds (sol : solution) (k : LpConstraint) : Prop :=
  match k with
  | LpLE l r => (value sol l <= value sol r)%Q
  | LpEQ l r => (value sol l == value sol r)%Q
  | LpGE l r => (value sol r <= value sol l)%Q
  end.

Definition is_binary (sol : solution) (v : LpVariable) : Prop :=
  (sol v == 0)%Q ∨ (sol v == 1)%Q.

Record feasible (prob : LpProblem) (sol : solution) : Prop := {
  feasible_binaries : ∀ v, v ∈ binaries prob → is_binary sol v;
  feasible_nonnegatives : ∀ v, v ∈ nonnegatives prob → (0 <= sol v)%Q;
  feasible_constraints : ∀ k, k ∈ constraints prob → holds sol k
}.

(** An optimal solution: feasible, and no feasible solution has a smaller
    objective (the problem is a minimisation). *)
Definition optimal (prob : LpProblem) (sol : solution) : Prop :=
  feasible prob sol ∧
  ∀ sol', feasible prob sol' →
    (value sol (objective prob) <= value sol' (objective prob))%Q.

(** Executable counterparts, to check a concrete solution. *)
Definition holdsb (sol : solution) (k : LpConstraint) : bool :=
  match k with
  | LpLE l r => Qle_bool (value sol l) (value sol r)
  | LpEQ l r => Qeq_bool (value sol l) (value sol r)
  | LpGE l r => Qle_bool (value sol r) (value sol l)
  end.

Definition is_binaryb (sol : solution) (v : LpVariable) : bool :=
  Qeq_bool (sol v) 0 || Qeq_bool (sol v) 1.

Definition feasibleb (prob : LpProblem) (sol : solution) : bool :=
  forallb (is_binaryb sol) (binaries prob)
  && forallb (λ v, Qle_bool 0 (sol v)) (nonnegatives prob)
  && forallb (holdsb sol) (constraints prob).

(** ** Command line and team records *)

Record Args : Type := {
  datetime_1 : Z;
  datetime_2 : option Z;
  datetime_3 : option Z;
  datetime_afterparty : option Z;
  num_courses : Z;
  can_meet_again : bool;
  can_stay : bool;
  ignore_preferences : bool;
  asymetric_distances : bool;
  ignore_avg_dist : bool;
  ignore_max_dist : bool;
  min_travel : Z;
  cook_incompatible : list Z;
  large_teams : Z;
  afterparty : option string
}.

(** The defaults of the argument parser; only the start of the first
    course is required.  A time is kept as a number of minutes. *)
Definition default_args (start : Z) : Args := {|
  datetime_1 := start;
  datetime_2 := None;
  datetime_3 := None;
  datetime_afterparty := None;
  num_courses := 3;
  can_meet_again := false;
  can_stay := false;
  ignore_preferences := false;
  asymetric_distances := false;
  ignore_avg_dist := false;
  ignore_max_dist := false;
  min_travel := 1;
  cook_incompatible := [];
  large_teams := 0;
  afterparty := None
|}.

(** One entry of [data]: the keys "name", "addr", "tel", "diet" and
    "pref1" .. "prefK" (absent with --ignore-preferences). *)
Record team : Type := {
  name : string;
  addr : string;
  tel : string;
  diet : string;
  prefs : list Q
}.

(** Keys of [distance_matrix]: [(i, j, c)] and [(t, "afterparty")]. *)
Definition dkey : Type := (nat * nat * nat + nat)%type.
Definition Route (i j c : nat) : dkey := inl (i, j, c).
Definition Afterparty (t : nat) : dkey := inr t.

(** [max(...)] of a list of floats. *)
Definition py_max (l : list Q) : pyresult Q :=
  match l with
  | [] => raise (ValueError "max() arg is an empty sequence")
  | x :: l' => mret (foldl (λ m y, if Qle_bool y m then m else y) x l')
  end.

(** [itertools.combinations(l, 2)]. *)
Fixpoint combinations2 {A} (l : list A) : list (A * A) :=
  match l with
  | [] => []
  | x :: l' => ((λ y, (x, y)) <$> l') ++ combinations2 l'
  end.

(** [same_addr_team]: address to the teams living there, in insertion
    order; the teams are kept by their index. *)
Fixpoint same_addr_insert (a : string) (t : nat)
    (m : list (string * list nat)) : list (string * list nat) :=
  match m with
  | [] => [(a, [t])]
  | (a', ts) :: m' =>
      if decide (a' = a) then (a', ts ++ [t]) :: m'
      else (a', ts) :: same_addr_insert a t m'
  end.

Definition same_addr_team (data : list team) : list (string * list nat) :=
  foldl (λ m '(t, d), same_addr_insert (addr d) t m) [] (imap pair data).

(** [range(a, b)]. *)
Definition py_range (a b : nat) : list nat := seq a (b - a).

(** [math.ceil(a / b)] for a positive divisor. *)
Definition py_ceil_div (a b : Z) : Z := (- ((- a) `div` b))%Z.

(** [x / y] on floats. *)
Definition py_div (x y : Q) : pyresult Q :=
  if Qeq_bool y 0 then raise ZeroDivisionError else mret (x / y)%Q.

(** ** The model builder *)

Section ModelBuilder.
Context (args : Args) (data : list team) (distance_matrix : gmap dkey Z).

Definition courses : list nat := seq 0 (Z.to_nat (num_courses args)).
Definition teams : list nat := seq 0 (length data).
(** [groups = range(int(len(data) / len(courses)))] *)
Definition groups : list nat := seq 0 (length data / length courses).

(** [courses[-1]] and [courses[0]]; both are read inside loops over
    [courses] or [groups], where [courses] is not empty. *)
Definition courses_last : nat := default 0 (last courses).
Definition courses_first : nat := default 0 (head courses).

(** [data[t][f"pref{c + 1}"]] *)
Definition pref (t c : nat) : Q :=
  default 0%Q (d ← data !! t; prefs d !! c).

(** [distance_matrix[(i, j, c)]] and [distance_matrix[(j, "afterparty")]];
    the assembly defines every key the builder reads. *)
Definition dist (i j c : nat) : Q := inject_Z (distance_matrix !!! Route i j c).
Definition dist_afterparty (j : nat) : Q :=
  inject_Z (distance_matrix !!! Afterparty j).

(** [forbidden]: the score is at the sentinel, [<= -1000]. *)
Definition forbidden (t c : nat) : bool := Qle_bool (pref t c) (-1000).

(** *** Objective *)

Definition max_pref : pyresult Q :=
  if ignore_preferences args then mret 0%Q
  else py_max (t ← teams; c ← courses; [pref t c]).

(** [chef[(t, g, c)] * data[t][f"pref{c + 1}"] / max_pref
     for t in teams for g in groups for c in courses
     if data[t][f"pref{c + 1}"] > -1000]
    A score of zero is kept with the weight zero, where PuLP keeps no term:
    the value of the sum is the same. *)
Definition preferences (max_pref : Q) : pyresult (list (Q * LpVariable)) :=
  if ignore_preferences args then mret []
  else
    mapM (λ '(t, g, c), q ← py_div (1 * pref t c) max_pref;
                        mret (q, chef t g c))
         (t ← teams; g ← groups; c ← courses;
          if negb (forbidden t c) then [(t, g, c)] else []).

(** The cost of an arc in the distance terms: the leg itself, plus the
    way to the afterparty after the last course. *)
Definition leg_cost (c i j : nat) : Q :=
  ((if decide (c = courses_last) then dist_afterparty j else 0)
   + dist i j c)%Q.

Definition distance_sum : list (Q * LpVariable) :=
  if ignore_avg_dist args then []
  else
    t ← teams; c ← courses; i ← teams; j ← teams; g ← groups;
    if decide (j ≠ i) then [(leg_cost c i j, arc c i j t g)] else [].

(** [(0 if args.ignore_max_dist else maxDuration)
     + 0.1 * (1 / len(teams) * distance_sum) - (20 * preferences)] *)
Definition build_objective (preferences : list (Q * LpVariable))
    : pyresult LpAffineExpression :=
  inv ← py_div 1 (inject_Z (Z.of_nat (length teams)));
  mret (lpSum
    ((if ignore_max_dist args then [] else [(1%Q, maxDuration)])
     ++ ((λ tm, ((1 # 10) * (inv * tm.1), tm.2)%Q) <$> distance_sum)
     ++ ((λ tm, (- (20 * tm.1), tm.2)%Q) <$> preferences))).

(** *** Constraints, in the order of the source *)

(** Assign every team to one group per course. *)
Definition one_group_per_course : list LpConstraint :=
  t ← teams; c ← courses;
  [LpEQ (lpSum (g ← groups; [(1%Q, assignment t g c)])) (num 1)].

(** Every group has [len(courses)] members in every course. *)
Definition group_size : list LpConstraint :=
  g ← groups; c ← courses;
  [LpEQ (lpSum (t ← teams; [(1%Q, assignment t g c)]))
        (num (Z.of_nat (length courses)))].

(** Teams can only meet once. *)
Definition meet_once : list LpConstraint :=
  if can_meet_again args then []
  else
    c1 ← py_range 0 (length courses);
    c2 ← py_range (c1 + 1) (length courses);
    g1 ← groups; g2 ← groups;
    t1 ← py_range 0 (length teams);
    t2 ← py_range (t1 + 1) (length teams);
    [LpLE (lpSum [(1%Q, assignment t1 g1 c1); (1%Q, assignment t2 g1 c1);
                  (1%Q, assignment t1 g2 c2); (1%Q, assignment t2 g2 c2)])
          (num 3)].

(** "temp fix no chef": a forbidden course is never cooked. *)
Definition no_chef : list LpConstraint :=
  if ignore_preferences args then []
  else
    t ← teams; c ← courses;
    if forbidden t c
    then g ← groups; [LpEQ (var (chef t g c)) (num 0)]
    else [].

(** Every group must have one chef per course. *)
Definition one_chef_per_group : list LpConstraint :=
  g ← groups; c ← courses;
  [LpEQ (lpSum (t ← teams; [(1%Q, chef t g c)])) (num 1)].

(** Every team is chef once. *)
Definition chef_once : list LpConstraint :=
  t ← teams;
  [LpEQ (lpSum (g ← groups; c ← courses; [(1%Q, chef t g c)])) (num 1)].

(** Only be chef if assigned. *)
Definition chef_if_assigned : list LpConstraint :=
  t ← teams; g ← groups; c ← courses;
  [LpLE (var (chef t g c)) (var (assignment t g c))].

(** Only have an arc when assigned. *)
Definition arc_if_assigned : list LpConstraint :=
  t ← teams; g ← groups; c ← courses;
  [LpEQ (lpSum (i ← teams; j ← teams; [(1%Q, arc c i j t g)]))
        (var (assignment t g c))].

(** Start at self if assigned. *)
Definition start_at_self : list LpConstraint :=
  t ← teams; g ← groups;
  [LpEQ (lpSum (j ← teams; [(1%Q, arc courses_first t j t g)]))
        (var (assignment t g courses_first))].

(** Go only to the chef. *)
Definition go_to_chef : list LpConstraint :=
  c ← courses; t ← teams; g ← groups; i ← teams; j ← teams;
  [LpLE (var (arc c i j t g)) (var (chef j g c))].

(** Can only leave if entering. *)
Definition leave_if_entering : list LpConstraint :=
  c ← py_range 1 (length courses); t ← teams; i ← teams;
  [LpEQ (lpSum (j ← teams; g ← groups;
                if decide (j ≠ i) then [(1%Q, arc c i j t g)] else []))
        (lpSum (r ← teams; g ← groups; [(1%Q, arc (c - 1) r i t g)]))].

(** Max dist constraint. *)
Definition max_dist : list LpConstraint :=
  if ignore_max_dist args then []
  else
    t ← teams;
    [LpLE (lpSum (c ← courses; i ← teams; j ← teams; g ← groups;
                  if decide (j ≠ i)
                  then [(leg_cost c i j, arc c i j t g)] else []))
          (var maxDuration)].

(** The travel counted by the minimum time constraint of team [t]. *)
Definition min_time_terms (t : nat) : list (Q * LpVariable) :=
  c ← courses; i ← teams; j ← teams; g ← groups;
  if decide (j ≠ i) then [(dist i j c, arc c i j t g)] else [].

(** Have minimum time constraint. *)
Definition min_time : list LpConstraint :=
  t ← teams; [LpGE (lpSum (min_time_terms t)) (num (min_travel args))].

(** Forbid any arc with a travel time of [<= 1]. *)
Definition no_short_hop : list LpConstraint :=
  if can_stay args then []
  else
    t ← teams; c ← courses; g ← groups; j ← teams; i ← teams;
    if decide (i ≠ j)
    then if Qle_bool (dist i j c) 1
         then [LpEQ (var (arc c i j t g)) (num 0)] else []
    else [].

(** [d[(t, g, c)]] for one of the dictionaries of variables: a team
    number outside [teams] is not a key. *)
Definition getitem (d : nat → nat → nat → LpVariable) (t : Z) (g c : nat)
    : pyresult LpVariable :=
  if decide (0 ≤ t < Z.of_nat (length data))%Z
  then mret (d (Z.to_nat t) g c)
  else raise (KeyError (pretty t)).

(** [for t1, t2 in itertools.combinations(args.cook_incompatible, 2):
       for c in courses: for g in groups:
         prob += assignment[(t1, g, c)] <= 1 - chef[(t2, g, c)]] *)
Definition cook_incompatible_constraints : pyresult (list LpConstraint) :=
  mjoin <$>
  mapM (λ '(t1, t2),
    mjoin <$>
    mapM (λ c,
      mapM (λ g,
        a ← getitem assignment t1 g c;
        ch ← getitem chef t2 g c;
        mret (LpLE (var a) {| terms := [((-1)%Q, ch)]; constant := 1 |}))
        groups)
      courses)
    (combinations2 (cook_incompatible args)).

(** Two large teams must not meet. *)
Definition large_team_constraints : list LpConstraint :=
  if decide (0 < large_teams args)%Z
  then
    LpEQ (lpSum (t ← teams; [(1%Q, large_team t)]))
         (num (large_teams args))
    :: (c ← courses; g ← groups; t1 ← teams; t2 ← teams;
        if decide (t1 ≠ t2)
        then [LpLE (lpSum [(1%Q, assignment t1 g c); (1%Q, assignment t2 g c);
                           (1%Q, large_team t1); (1%Q, large_team t2)])
                   (num 3)]
        else [])
  else [].

(** Teams with the same address must not cook within the same course. *)
Definition same_address : list LpConstraint :=
  '(_, dup_teams) ← same_addr_team data;
  if decide (1 < length dup_teams)
  then
    c ← courses;
    [LpLE (lpSum (i ← dup_teams; g ← groups; [(1%Q, chef i g c)]))
          (num (Z.max 1 (py_ceil_div (Z.of_nat (length dup_teams))
                                      (Z.of_nat (length courses)))))]
  else [].

(** The part of the constraint list before and after "temp fix no chef"
    and around the cook-incompatible pairs. *)
Definition constraints_before_no_chef : list LpConstraint :=
  one_group_per_course ++ group_size ++ meet_once.

Definition constraints_routing : list LpConstraint :=
  one_chef_per_group ++ chef_once ++ chef_if_assigned ++ arc_if_assigned
  ++ start_at_self ++ go_to_chef ++ leave_if_entering ++ max_dist
  ++ min_time ++ no_short_hop.

Definition constraints_tail : list LpConstraint :=
  large_team_constraints ++ same_address.

(** The declared variables: the three dictionaries, and [largeTeam]
    when large teams are asked for. *)
Definition declared_binaries : list LpVariable :=
  (t ← teams; g ← groups; c ← courses; [assignment t g c])
  ++ (t ← teams; g ← groups; c ← courses; [chef t g c])
  ++ (c ← courses; i ← teams; j ← teams; t ← teams; g ← groups;
      [arc c i j t g])
  ++ (if decide (0 < large_teams args)%Z
      then t ← teams; [large_team t] else []).

Definition build_model : pyresult LpProblem :=
  (* groups = range(int(len(data) / len(courses))) *)
  (if decide (length courses = 0) then raise ZeroDivisionError
   else mret ()) ;;
  mp ← max_pref;
  pr ← preferences mp;
  obj ← build_objective pr;
  ci ← cook_incompatible_constraints;
  mret {| objective := obj;
          constraints :=
            constraints_before_no_chef ++ no_chef ++ constraints_routing
            ++ ci ++ constraints_tail;
          binaries := declared_binaries;
          nonnegatives := [maxDuration] |}.

End ModelBuilder.

(** ** The solution decoder *)

Record group_view : Type := {
  cook : option nat;
  guests : list nat
}.

Record tour_leg : Type := {
  approx_duration : Z;
  group : nat;
  gang : nat
}.

(** What the team loop accumulates for one team. *)
Record team_walk : Type := {
  tour : list tour_leg;
  afterparty_duration : option Z;
  sumdistance : Z
}.

Record team_view : Type := {
  tv_idx : nat;
  tv_name : string;
  tv_tel : string;
  tv_diet : string;
  tv_address : string;
  tv_tour : list tour_leg;
  tv_afterparty_duration : option Z
}.

(** A tuple [(c, i, j, g)] of the team loop: in course [c] the team goes
    from the place of team [i] to the place of team [j], in group [g]. *)
Definition leg_course (x : nat * nat * nat * nat) : nat := x.1.1.1.
Definition leg_origin (x : nat * nat * nat * nat) : nat := x.1.1.2.
Definition leg_destination (x : nat * nat * nat * nat) : nat := x.1.2.
Definition leg_group (x : nat * nat * nat * nat) : nat := x.2.

Section Decoder.
Context (args : Args) (data : list team) (distance_matrix : gmap dkey Z).
Context (sol : solution).

Abbreviation courses := (courses args).
Abbreviation teams := (teams data).
Abbreviation groups := (groups args data).

(** [value(x) == 1] *)
Definition is_one (v : LpVariable) : bool := Qeq_bool (sol v) 1.

(** *** Group view *)

Definition visit_member (g c : nat) (mygroup : group_view) (t : nat)
    : group_view :=
  if is_one (assignment t g c) then
    if is_one (chef t g c)
    then {| cook := Some t; guests := guests mygroup |}
    else {| cook := cook mygroup; guests := guests mygroup ++ [t] |}
  else mygroup.

Definition decode_group (c g : nat) : group_view :=
  foldl (visit_member g c) {| cook := None; guests := [] |} teams.

(** The teams of a group that carry the chef indicator. *)
Definition chef_indicators (c g : nat) : list nat :=
  filter (λ t, is_one (assignment t g c) = true ∧ is_one (chef t g c) = true)
         teams.

Definition coursedata : list (list group_view) :=
  (λ c, decode_group c <$> groups) <$> courses.

(** *** Team view *)

(** The index tuples of the four nested loops of one team, in order. *)
Definition arc_indices : list (nat * nat * nat * nat) :=
  c ← courses; i ← teams; j ← teams; g ← groups; [(c, i, j, g)].

Definition visit_arc (t : nat) (w : team_walk) (x : nat * nat * nat * nat)
    : team_walk :=
  let '(c, i, j, g) := x in
  if is_one (arc c i j t g) then
    let d := distance_matrix !!! Route i j c in
    let w1 := {| tour := tour w ++ [{| approx_duration := d;
                                       group := g; gang := c |}];
                 afterparty_duration := afterparty_duration w;
                 sumdistance := sumdistance w + d |} in
    if decide (c = courses_last args) then
      let du := distance_matrix !!! Afterparty j in
      {| tour := tour w1;
         afterparty_duration := Some du;
         sumdistance := sumdistance w1 + du |}
    else w1
  else w.

Definition walk_team (t : nat) : team_walk :=
  foldl (visit_arc t)
        {| tour := []; afterparty_duration := None; sumdistance := 0 |}
        arc_indices.

Definition teamdata : list team_view :=
  (λ '(t, d),
     let w := walk_team t in
     {| tv_idx := t; tv_name := name d; tv_tel := tel d; tv_diet := diet d;
        tv_address := addr d; tv_tour := tour w;
        tv_afterparty_duration := afterparty_duration w |})
  <$> imap pair data.

Definition team_distances : list Z := (λ t, sumdistance (walk_team t)) <$> teams.

(** The arcs a team takes: the tuples of the team loop whose arc
    variable is one, in the order of the loop. *)
Definition itinerary (t : nat) : list (nat * nat * nat * nat) :=
  filter (λ x, let '(c, i, j, g) := x in is_one (arc c i j t g) = true)
         arc_indices.

(** The tuples of one course in the itinerary. *)
Definition legs_in (t c : nat) : list (nat * nat * nat * nat) :=
  filter (λ x, let '(c, i, j, g) := x in is_one (arc c i j t g) = true)
         (i ← teams; j ← teams; g ← groups; [(c, i, j, g)]).

(** The tour entry appended for a tuple of the team loop. *)
Definition leg_of (x : nat * nat * nat * nat) : tour_leg :=
  {| approx_duration :=
       distance_matrix !!! Route (leg_origin x) (leg_destination x) (leg_course x);
     group := leg_group x;
     gang := leg_course x |}.

(** The whole decoding; nothing in it raises. *)
Definition decode : pyresult (list team_view * list (list group_view)) :=
  mret (teamdata, coursedata).

End Decoder.

(** ** Assembly of the problem data *)

(** The travel-time back end ([InterfaceTravelTimeEngine]).  [geo_name p]
    is the attribute access [p.name] on a point of the engine: the points of
    the MOTIS and OSRM engines are dictionaries and have no such attribute. *)
Class TravelTimeEngine (GeoPoint : Type) : Type := {
  engine_name : string;
  route_between_points : GeoPoint → GeoPoint → Z → pyresult Z;
  get_geo : string → pyresult GeoPoint;
  geo_name : GeoPoint → pyresult string
}.

(** The input file as the csv reader yields it: [next(csvr, None)] and the
    remaining rows. *)
Record csv_file : Type := {
  headers : option (list string);
  rows : list (list string)
}.

(** [itertools.permutations(l, 2)]. *)
Definition permutations2 {A} (l : list A) : list (A * A) :=
  x ← imap pair l; y ← imap pair l;
  if decide (x.1 ≠ y.1) then [(x.2, y.2)] else [].

(** [direct_distance] is read in the handler of the distance loop; no
    assignment to this name exists in the module. *)
Definition direct_distance : pyresult Z := raise (NameError "direct_distance").

Section Assembly.
Context {GeoPoint : Type} {engine : TravelTimeEngine GeoPoint}.
(** [float(s)] on a cell of the file. *)
Context (float : string → pyresult Q).
Context (args : Args) (file : csv_file).

Abbreviation courses := (courses args).

(** [row[i]] *)
Definition cell (row : list string) (i : nat) : pyresult string :=
  match row !! i with
  | Some s => mret s
  | None => raise IndexError
  end.

Definition check_headers : pyresult unit :=
  match headers file with
  | None => raise TypeError (* len(None) *)
  | Some hs =>
      let len := Z.of_nat (length hs) in
      if bool_decide (len ≠ 4 + num_courses args)%Z
         && negb (ignore_preferences args)
      then raise (SystemExit 1
             ["Malformed csv, less than 4 headers found: " +:+ pretty len;
              "Please use format : 'name,addr,tel,diet,pref1,pref2,pref3'";
              "Pass ignore_preferences to ignore"])
      else if bool_decide (len ≠ 4)%Z
              && bool_decide (len ≠ 4 + num_courses args)%Z
              && ignore_preferences args
      then raise (SystemExit 1
             ["Malformed csv, less than 4 headers found: " +:+ pretty len;
              "Please use format : 'name,addr,tel,diet'"])
      else mret ()
  end.

Definition read_row (row : list string) : pyresult team :=
  n ← cell row 0; a ← cell row 1; t ← cell row 2; d ← cell row 3;
  if ignore_preferences args
  then mret {| name := n; addr := a; tel := t; diet := d; prefs := [] |}
  else
    ps ← mapM (λ c, s ← cell row (4 + c); float s) courses;
    mret {| name := n; addr := a; tel := t; diet := d; prefs := ps |}.

Definition read_data : pyresult (list team) :=
  check_headers ;; mapM read_row (rows file).

(** [if len(data) % len(courses) != 0: print(...); exit(1)] *)
Definition check_divisible (data : list team) : pyresult unit :=
  if decide (length courses = 0) then raise ZeroDivisionError
  else if decide (length data `mod` length courses ≠ 0)
  then raise (SystemExit 1
         ["Error: The number of teams " +:+ pretty (length data)
          +:+ " must be devisable by the number of courses "
          +:+ pretty (length courses) +:+ "!"])
  else mret ().

(** [datetimes[c]], after the defaults are set. *)
Definition datetimes (c : nat) : pyresult Z :=
  match c with
  | 0 => mret (datetime_1 args)
  | 1 => mret (default (datetime_1 args) (datetime_2 args))
  | 2 => mret (default (datetime_1 args) (datetime_3 args))
  | _ => raise (KeyError (pretty c))
  end.

Definition geocode (data : list team) : pyresult (list GeoPoint) :=
  mapM (λ d, get_geo (addr d)) data.

Definition geocode_afterparty : pyresult (option GeoPoint) :=
  match afterparty args with
  | Some a => Some <$> get_geo a
  | None => mret None
  end.

(** The handler of the distance loop:
    [print(a["geo"].name, " to ", b["geo"].name, "; direct at ",
           direct_distance); raise ex] *)
Definition route_failed {A} (a b : nat * GeoPoint) (ex : exn) : pyresult A :=
  geo_name a.2 ;; geo_name b.2 ;; direct_distance ;; raise ex.

(** The body of the distance loop for one pair and one course. *)
Definition route_pair (a b : nat * GeoPoint) (dm : gmap dkey Z) (c : nat)
    : pyresult (gmap dkey Z) :=
  let attempt : pyresult (gmap dkey Z) :=
    time ← datetimes c;
    route_time ← route_between_points a.2 b.2 time;
    let dm1 := <[Route a.1 b.1 c := route_time]> dm in
    mret (if asymetric_distances args then dm1
          else <[Route b.1 a.1 c := route_time]> dm1) in
  match attempt with
  | inr dm' => mret dm'
  | inl ex => if is_Exception ex then route_failed a b ex else raise ex
  end.

(** [foldM]: a loop that threads a state and stops at the first raise. *)
Fixpoint for_each {A S} (f : S → A → pyresult S) (l : list A) (s : S)
    : pyresult S :=
  match l with
  | [] => mret s
  | x :: l' => s' ← f s x; for_each f l' s'
  end.

Definition route_pairs (geos : list GeoPoint) : pyresult (gmap dkey Z) :=
  let pairs := (if asymetric_distances args
                then permutations2 else combinations2) (imap pair geos) in
  for_each (λ dm '(a, b), for_each (route_pair a b) courses dm) pairs ∅.

(** The loop "Getting distances to Afterparty". *)
Definition route_afterparty (geos : list GeoPoint)
    (afterparty_geo : option GeoPoint) (dm : gmap dkey Z)
    : pyresult (gmap dkey Z) :=
  for_each (λ dm '(t, geo),
      let dm1 := foldl (λ m c, <[Route t t c := 0%Z]> m) dm courses in
      d ← match afterparty_geo with
          | Some ap =>
              route_between_points geo ap
                (default (datetime_1 args) (datetime_afterparty args))
          | None => mret 0%Z
          end;
      mret (<[Afterparty t := d]> dm1))
    (imap pair geos) dm.

(** Everything before "Creating Optimization Model". *)
Definition assemble : pyresult (list team * gmap dkey Z) :=
  data ← read_data;
  check_divisible data ;;
  geos ← geocode data;
  afterparty_geo ← geocode_afterparty;
  dm ← route_pairs geos;
  dm ← route_afterparty geos afterparty_geo dm;
  mret (data, dm).

(** The run up to the model handed to the solver. *)
Definition assemble_and_build : pyresult LpProblem :=
  '(data, dm) ← assemble; build_model args data dm.

End Assembly.

(** Every key of [dm] is a key of [dm']. *)
Definition keeps (dm dm' : gmap dkey Z) : Prop :=
  ∀ k, is_Some (dm !! k) → is_Some (dm' !! k).

(** The entry from [i] to [j] is the entry from [j] to [i]. *)
Definition symmetric_routes (dm : gmap dkey Z) : Prop :=
  ∀ i j c, dm !! Route i j c = dm !! Route j i c.

(** ** Variations of a run *)


(** The model of a run that reached the solver. *)
Definition built (r : pyresult LpProblem) : LpProblem :=
  match r with
  | inr prob => prob
  | inl _ => {| objective := lpSum []; constraints := [];
                binaries := []; nonnegatives := [] |}
  end.

(** A solution given by the variables at one and the value of
    [maxDuration]; every other variable is zero. *)
Definition solution_of (ones : list LpVariable) (max_duration : Q) : solution :=
  λ v, match v with
       | maxDuration => max_duration
       | _ => if decide (v ∈ ones) then 1%Q else 0%Q
       end.


(** The sum of a list of durations. *)
Definition sumZ (l : list Z) : Z := foldr Z.add 0%Z l.

(** What a leg adds to the total of a team besides its own duration: the
    way to the afterparty, after the last course. *)
Definition afterparty_part (args : Args) (distance_matrix : gmap dkey Z)
    (x : nat * nat * nat * nat) : Z :=
  if decide (leg_course x = courses_last args)
  then distance_matrix !!! Afterparty (leg_destination x) else 0%Z.

(** The teams whose row has the address [a], in the order of the file. *)
Definition housemates (data : list team) (a : string) : list nat :=
  fst <$> filter (λ p, addr p.2 = a) (imap pair data).

(** The entry of an address in a dictionary like [same_addr_team], empty
    when the address is no key. *)
Fixpoint residents (a : string) (m : list (string * list nat)) : list nat :=
  match m with
  | [] => []
  | (a', ts) :: m' => if decide (a' = a) then ts else residents a m'
  end.

(** The largest entry of [team_distances]. *)
Definition max_distance (ds : list Z) : Z := foldr Z.max 0%Z ds.


(** The solution with another value for [maxDuration]. *)
Definition with_max_duration (m : Q) (sol : solution) : solution :=
  λ v, match v with
       | maxDuration => m
       | _ => sol v
       end.

(** No term of the expression is on [maxDuration]. *)
Definition free_of_max_duration (e : LpAffineExpression) : Prop :=
  Forall (λ tm, tm.2 ≠ maxDuration) (terms e).

Definition constraint_free_of_max_duration (k : LpConstraint) : Prop :=
  match k with
  | LpLE l r | LpEQ l r | LpGE l r =>
      free_of_max_duration l ∧ free_of_max_duration r
  end.

(** ** Concrete runs *)

(** Engines whose points are the addresses themselves.  The points of
    [motis_like] have no [name], as the dictionaries of the MOTIS engine;
    those of [hafas_like] have one, as the stations of the HAFAS engine. *)
Definition motis_like (route : string → string → Z → pyresult Z)
    : TravelTimeEngine string := {|
  engine_name := "MotisClient";
  route_between_points := route;
  get_geo := λ a, mret a;
  geo_name := λ _, raise (AttributeError "name")
|}.

Definition hafas_like (route : string → string → Z → pyresult Z)
    : TravelTimeEngine string := {|
  engine_name := "HafasClient";
  route_between_points := route;
  get_geo := λ a, mret a;
  geo_name := λ p, mret p
|}.

(** Every route takes ten minutes. *)
Definition ten_minutes : string → string → Z → pyresult Z :=
  λ _ _ _, mret 10%Z.

(** No route is found towards one place. *)
Definition no_route_to (place : string) : string → string → Z → pyresult Z :=
  λ _ b _, if decide (b = place) then raise (ProviderError "no connection")
           else mret 10%Z.

(** [float] on the cells of the files below. *)
Definition float_cell (s : string) : pyresult Q :=
  if decide (s = "-1000") then mret (-1000)%Q
  else if decide (s = "-1") then mret (-1)%Q
  else if decide (s = "1") then mret 1%Q
  else if decide (s = "2") then mret 2%Q
  else raise (ValueError "could not convert string to float").

(** A file of [n] teams at different addresses, without scores. *)
Definition roster (n : nat) : csv_file := {|
  headers := Some ["name"; "addr"; "tel"; "diet"];
  rows := (λ i, ["T" +:+ pretty i; "street " +:+ pretty i; "0"; "-"])
          <$> seq 0 n
|}.

Definition assembled_data (r : pyresult (list team * gmap dkey Z)) : list team :=
  match r with
  | inr (data, _) => data
  | inl _ => []
  end.

Definition assembled_matrix (r : pyresult (list team * gmap dkey Z))
    : gmap dkey Z :=
  match r with
  | inr (_, dm) => dm
  | inl _ => ∅
  end.

(** *** Four teams, two courses *)

(** [--num-courses 2 --ignore-preferences --cook-incompatible 0,1] *)
Definition quartet_args : Args := {|
  datetime_1 := 0; datetime_2 := None; datetime_3 := None;
  datetime_afterparty := None;
  num_courses := 2;
  can_meet_again := false;
  can_stay := false;
  ignore_preferences := true;
  asymetric_distances := false;
  ignore_avg_dist := false;
  ignore_max_dist := false;
  min_travel := 1;
  cook_incompatible := [0%Z; 1%Z];
  large_teams := 0;
  afterparty := None
|}.

Definition quartet_input : pyresult (list team * gmap dkey Z) :=
  assemble (engine := motis_like ten_minutes) float_cell quartet_args (roster 4).
Definition quartet_data : list team := assembled_data quartet_input.
Definition quartet_matrix : gmap dkey Z := assembled_matrix quartet_input.
Definition quartet_model : LpProblem :=
  built (build_model quartet_args quartet_data quartet_matrix).

(** Starter: team 0 cooks for team 1 and team 3 for team 2; main course:
    team 2 cooks for team 0 and team 1 for team 3. *)
Definition quartet_solution : solution :=
  solution_of
    [assignment 0 0 0; assignment 1 0 0; assignment 2 1 0; assignment 3 1 0;
     assignment 0 0 1; assignment 2 0 1; assignment 1 1 1; assignment 3 1 1;
     chef 0 0 0; chef 3 1 0; chef 2 0 1; chef 1 1 1;
     arc 0 0 0 0 0; arc 0 1 0 1 0; arc 0 2 3 2 1; arc 0 3 3 3 1;
     arc 1 0 2 0 0; arc 1 3 2 2 0; arc 1 0 1 1 1; arc 1 3 1 3 1]
    20.

(** *** Two teams with scores, two courses *)

(** [--num-courses 2 --can-meet-again], with or without
    [--ignore-preferences]. *)
Definition duo_args : Args := {|
  datetime_1 := 0; datetime_2 := None; datetime_3 := None;
  datetime_afterparty := None;
  num_courses := 2;
  can_meet_again := true;
  can_stay := false;
  ignore_preferences := false;
  asymetric_distances := false;
  ignore_avg_dist := false;
  ignore_max_dist := false;
  min_travel := 1;
  cook_incompatible := [];
  large_teams := 0;
  afterparty := None
|}.

(** Team 0 cannot cook the first course. *)
Definition duo_file : csv_file := {|
  headers := Some ["name"; "addr"; "tel"; "diet"; "pref1"; "pref2"];
  rows := [["T0"; "street 0"; "0"; "-"; "-1000"; "2"];
           ["T1"; "street 1"; "0"; "-"; "1"; "-1"]]
|}.

Definition duo_input : pyresult (list team * gmap dkey Z) :=
  assemble (engine := motis_like ten_minutes) float_cell duo_args duo_file.
Definition duo_data : list team := assembled_data duo_input.
Definition duo_matrix : gmap dkey Z := assembled_matrix duo_input.


(** Team 0 cooks the first course, team 1 the second. *)
Definition duo_solution : solution :=
  solution_of
    [assignment 0 0 0; assignment 1 0 0; assignment 0 0 1; assignment 1 0 1;
     chef 0 0 0; chef 1 0 1;
     arc 0 0 0 0 0; arc 0 1 0 1 0; arc 1 0 1 0 0; arc 1 0 1 1 0]
    20.

(** *** Two teams, the maximum travel time alone *)

(** [--num-courses 2 --can-meet-again --ignore-preferences
     --ignore-avg-dist]: the objective is [maxDuration]. *)
Definition pair_args : Args := {|
  datetime_1 := 0; datetime_2 := None; datetime_3 := None;
  datetime_afterparty := None;
  num_courses := 2;
  can_meet_again := true;
  can_stay := false;
  ignore_preferences := true;
  asymetric_distances := false;
  ignore_avg_dist := true;
  ignore_max_dist := false;
  min_travel := 1;
  cook_incompatible := [];
  large_teams := 0;
  afterparty := None
|}.

Definition pair_input : pyresult (list team * gmap dkey Z) :=
  assemble (engine := motis_like ten_minutes) float_cell pair_args (roster 2).
Definition pair_data : list team := assembled_data pair_input.
Definition pair_matrix : gmap dkey Z := assembled_matrix pair_input.
Definition pair_model : LpProblem :=
  built (build_model pair_args pair_data pair_matrix).

(** *** Six teams, three courses *)

(** [--ignore-preferences --ignore-avg-dist], no afterparty: the maximum
    travel time is the only term of the objective. *)
Definition sextet_args : Args := {|
  datetime_1 := 0; datetime_2 := None; datetime_3 := None;
  datetime_afterparty := None;
  num_courses := 3;
  can_meet_again := false;
  can_stay := false;
  ignore_preferences := true;
  asymetric_distances := false;
  ignore_avg_dist := true;
  ignore_max_dist := false;
  min_travel := 1;
  cook_incompatible := [];
  large_teams := 0;
  afterparty := None
|}.

Definition sextet_input : pyresult (list team * gmap dkey Z) :=
  assemble (engine := motis_like ten_minutes) float_cell sextet_args (roster 6).
Definition sextet_data : list team := assembled_data sextet_input.
Definition sextet_matrix : gmap dkey Z := assembled_matrix sextet_input.
Definition sextet_model : LpProblem :=
  built (build_model sextet_args sextet_data sextet_matrix).

(** *** Variations of the run on four teams *)

(** [--cook-incompatible 0,0]: a team listed twice. *)
Definition quartet_twice_args : Args := {|
  datetime_1 := 0; datetime_2 := None; datetime_3 := None;
  datetime_afterparty := None;
  num_courses := 2;
  can_meet_again := false;
  can_stay := false;
  ignore_preferences := true;
  asymetric_distances := false;
  ignore_avg_dist := false;
  ignore_max_dist := false;
  min_travel := 1;
  cook_incompatible := [0%Z; 0%Z];
  large_teams := 0;
  afterparty := None
|}.

(** [--cook-incompatible 0,7]: a team number that is not in the file. *)
Definition quartet_stranger_args : Args := {|
  datetime_1 := 0; datetime_2 := None; datetime_3 := None;
  datetime_afterparty := None;
  num_courses := 2;
  can_meet_again := false;
  can_stay := false;
  ignore_preferences := true;
  asymetric_distances := false;
  ignore_avg_dist := false;
  ignore_max_dist := false;
  min_travel := 1;
  cook_incompatible := [0%Z; 7%Z];
  large_teams := 0;
  afterparty := None
|}.

(** [--large-teams 2] *)
Definition quartet_large_args : Args := {|
  datetime_1 := 0; datetime_2 := None; datetime_3 := None;
  datetime_afterparty := None;
  num_courses := 2;
  can_meet_again := false;
  can_stay := false;
  ignore_preferences := true;
  asymetric_distances := false;
  ignore_avg_dist := false;
  ignore_max_dist := false;
  min_travel := 1;
  cook_incompatible := [];
  large_teams := 2;
  afterparty := None
|}.

Definition quartet_large_model : LpProblem :=
  built (build_model quartet_large_args quartet_data quartet_matrix).

(** The plan of [quartet_solution]; teams 0 and 3, which never meet, are
    the large ones. *)
Definition quartet_large_solution : solution :=
  solution_of
    [assignment 0 0 0; assignment 1 0 0; assignment 2 1 0; assignment 3 1 0;
     assignment 0 0 1; assignment 2 0 1; assignment 1 1 1; assignment 3 1 1;
     chef 0 0 0; chef 3 1 0; chef 2 0 1; chef 1 1 1;
     arc 0 0 0 0 0; arc 0 1 0 1 0; arc 0 2 3 2 1; arc 0 3 3 3 1;
     arc 1 0 2 0 0; arc 1 3 2 2 0; arc 1 0 1 1 1; arc 1 3 1 3 1;
     large_team 0; large_team 3]
    20.

(** [--large-teams 3], with two groups per course. *)
Definition quartet_crowded_args : Args := {|
  datetime_1 := 0; datetime_2 := None; datetime_3 := None;
  datetime_afterparty := None;
  num_courses := 2;
  can_meet_again := false;
  can_stay := false;
  ignore_preferences := true;
  asymetric_distances := false;
  ignore_avg_dist := false;
  ignore_max_dist := false;
  min_travel := 1;
  cook_incompatible := [];
  large_teams := 3;
  afterparty := None
|}.

Definition quartet_crowded_model : LpProblem :=
  built (build_model quartet_crowded_args quartet_data quartet_matrix).

(** Four teams of which teams 0 and 2 share an address. *)
Definition shared_roster : csv_file := {|
  headers := Some ["name"; "addr"; "tel"; "diet"];
  rows := [["T0"; "street 0"; "0"; "-"]; ["T1"; "street 1"; "0"; "-"];
           ["T2"; "street 0"; "0"; "-"]; ["T3"; "street 3"; "0"; "-"]]
|}.

Definition shared_input : pyresult (list team * gmap dkey Z) :=
  assemble (engine := motis_like ten_minutes) float_cell quartet_large_args
    shared_roster.
Definition shared_data : list team := assembled_data shared_input.
Definition shared_matrix : gmap dkey Z := assembled_matrix shared_input.
Definition shared_model : LpProblem :=
  built (build_model quartet_large_args shared_data shared_matrix).

(** *** One course, four courses *)

(** [--num-courses 1 --ignore-preferences] *)
Definition solo_args : Args := {|
  datetime_1 := 0; datetime_2 := None; datetime_3 := None;
  datetime_afterparty := None;
  num_courses := 1;
  can_meet_again := false;
  can_stay := false;
  ignore_preferences := true;
  asymetric_distances := false;
  ignore_avg_dist := false;
  ignore_max_dist := false;
  min_travel := 1;
  cook_incompatible := [];
  large_teams := 0;
  afterparty := None
|}.

Definition solo_input : pyresult (list team * gmap dkey Z) :=
  assemble (engine := motis_like ten_minutes) float_cell solo_args (roster 2).
Definition solo_data : list team := assembled_data solo_input.
Definition solo_matrix : gmap dkey Z := assembled_matrix solo_input.
Definition solo_model : LpProblem :=
  built (build_model solo_args solo_data solo_matrix).

(** [--num-courses 4 --ignore-preferences] *)
Definition four_course_args : Args := {|
  datetime_1 := 0; datetime_2 := None; datetime_3 := None;
  datetime_afterparty := None;
  num_courses := 4;
  can_meet_again := false;
  can_stay := false;
  ignore_preferences := true;
  asymetric_distances := false;
  ignore_avg_dist := false;
  ignore_max_dist := false;
  min_travel := 1;
  cook_incompatible := [];
  large_teams := 0;
  afterparty := None
|}.

(** *** A team that can cook no course *)

(** Team 0 has the sentinel for both courses. *)
Definition barred_file : csv_file := {|
  headers := Some ["name"; "addr"; "tel"; "diet"; "pref1"; "pref2"];
  rows := [["T0"; "street 0"; "0"; "-"; "-1000"; "-1000"];
           ["T1"; "street 1"; "0"; "-"; "1"; "-1"]]
|}.

Definition barred_input : pyresult (list team * gmap dkey Z) :=
  assemble (engine := motis_like ten_minutes) float_cell duo_args barred_file.
Definition barred_data : list team := assembled_data barred_input.
Definition barred_matrix : gmap dkey Z := assembled_matrix barred_input.
Definition barred_model : LpProblem :=
  built (build_model duo_args barred_data barred_matrix).

(** *** Group views outside the model *)

(** Both teams of the only group carry the chef indicator, or none does. *)
Definition two_chefs : solution :=
  solution_of [assignment 0 0 0; assignment 1 0 0; chef 0 0 0; chef 1 0 0] 0.
Definition no_chefs : solution :=
  solution_of [assignment 0 0 0; assignment 1 0 0] 0.

(** * Proofs *)

(** ** The error monad *)

Lemma bind_inr {A B} (m : pyresult A) (f : A → pyresult B) (y : B) :
  m ≫= f = inr y → ∃ x, m = inr x ∧ f x = inr y.
Proof. destruct m as [e | x]; [discriminate | eauto]. Qed.

Lemma fmap_inr {A B} (m : pyresult A) (f : A → B) (y : B) :
  f <$> m = inr y → ∃ x, m = inr x ∧ y = f x.
Proof.
  destruct m as [e | x]; [discriminate |].
  intros [= <-]. eauto.
Qed.

(** ** Sums *)

Lemma sumQ_app {A} (f : A → Q) (l1 l2 : list A) :
  (sumQ f (l1 ++ l2) == sumQ f l1 + sumQ f l2)%Q.
Proof.
  induction l1 as [| x l1 IH]; simpl; [ring |].
  rewrite IH. ring.
Qed.

Lemma sumQ_ext {A} (f g : A → Q) (l : list A) :
  (∀ x, x ∈ l → (f x == g x)%Q) → (sumQ f l == sumQ g l)%Q.
Proof.
  induction l as [| x l IH]; intros H; simpl; [reflexivity |].
  rewrite (H x) by left. rewrite IH; [reflexivity |].
  intros y Hy. apply H. by right.
Qed.

Lemma sumQ_bind {A B} (f : B → Q) (g : A → list B) (l : list A) :
  (sumQ f (l ≫= g) == sumQ (λ x, sumQ f (g x)) l)%Q.
Proof.
  induction l as [| x l IH]; [reflexivity |].
  rewrite bind_cons, sumQ_app, IH. reflexivity.
Qed.

Lemma sumQ_zero {A} (l : list A) : (sumQ (λ _, 0) l == 0)%Q.
Proof. induction l as [| x l IH]; simpl; [reflexivity | rewrite IH; ring]. Qed.

Lemma sumQ_plus {A} (f g : A → Q) (l : list A) :
  (sumQ (λ x, f x + g x) l == sumQ f l + sumQ g l)%Q.
Proof.
  induction l as [| x l IH]; simpl; [ring | rewrite IH; ring].
Qed.

Lemma sumQ_swap {A B} (f : A → B → Q) (la : list A) (lb : list B) :
  (sumQ (λ x, sumQ (λ y, f x y) lb) la == sumQ (λ y, sumQ (λ x, f x y) la) lb)%Q.
Proof.
  induction la as [| x la IH]; simpl.
  - symmetry. apply sumQ_zero.
  - rewrite IH, <- sumQ_plus. reflexivity.
Qed.

Lemma sumQ_nonneg {A} (f : A → Q) (l : list A) :
  (∀ x, x ∈ l → (0 <= f x)%Q) → (0 <= sumQ f l)%Q.
Proof.
  induction l as [| x l IH]; intros H; simpl; [lra |].
  assert (0 <= f x)%Q by (apply H; left).
  assert (0 <= sumQ f l)%Q by (apply IH; intros y Hy; apply H; by right).
  lra.
Qed.

Lemma sumQ_elem_le {A} (f : A → Q) (l : list A) (x : A) :
  (∀ y, y ∈ l → (0 <= f y)%Q) → x ∈ l → (f x <= sumQ f l)%Q.
Proof.
  induction l as [| y l IH]; intros Hpos Hin; [by apply elem_of_nil in Hin |].
  simpl. apply elem_of_cons in Hin as [-> | Hin].
  - assert (0 <= sumQ f l)%Q
      by (apply sumQ_nonneg; intros z Hz; apply Hpos; by right).
    lra.
  - assert (0 <= f y)%Q by (apply Hpos; left).
    assert (f x <= sumQ f l)%Q
      by (apply IH; [intros z Hz; apply Hpos; by right | done]).
    lra.
Qed.

(** The number of ones among zeros and ones is their sum. *)
Lemma sumQ_count {A} (f : A → Q) (l : list A) :
  (∀ x, x ∈ l → (f x == 0)%Q ∨ (f x == 1)%Q) →
  (inject_Z (Z.of_nat (length (filter (λ x, Qeq_bool (f x) 1 = true) l)))
   == sumQ f l)%Q.
Proof.
  induction l as [| y l IH]; intros Hbin; [reflexivity |].
  rewrite filter_cons. simpl sumQ.
  assert (IH' := IH (λ z Hz, Hbin z (list_elem_of_further _ _ _ Hz))).
  destruct (Hbin y) as [H0 | H1]; [left | |].
  - destruct (decide (Qeq_bool (f y) 1 = true)) as [E | E].
    + apply Qeq_bool_iff in E. lra.
    + rewrite IH'. lra.
  - destruct (decide (Qeq_bool (f y) 1 = true)) as [E | E].
    + cbn [length]. rewrite Nat2Z.inj_succ, <- Z.add_1_l, inject_Z_plus, IH'.
      rewrite H1. reflexivity.
    + exfalso. apply E. by apply Qeq_bool_iff.
Qed.

(** ** Checking a concrete solution *)

Lemma holdsb_holds sol k : holdsb sol k = true → holds sol k.
Proof.
  destruct k; simpl; intros H;
    first [by apply Qle_bool_iff | by apply Qeq_bool_iff].
Qed.

Lemma feasibleb_feasible prob sol : feasibleb prob sol = true → feasible prob sol.
Proof.
  unfold feasibleb. rewrite !andb_true_iff, !forallb_forall.
  intros [[Hb Hn] Hc]. split.
  - intros v Hv%list_elem_of_In. apply Hb in Hv.
    unfold is_binaryb in Hv. apply orb_true_iff in Hv.
    destruct Hv as [Hv | Hv]; apply Qeq_bool_iff in Hv; [by left | by right].
  - intros v Hv%list_elem_of_In. by apply Qle_bool_iff, Hn.
  - intros k Hk%list_elem_of_In. by apply holdsb_holds, Hc.
Qed.

(** ** The shape of a built model *)

Lemma build_model_inr args data dm prob :
  build_model args data dm = inr prob →
  ∃ ci,
    cook_incompatible_constraints args data = inr ci
    ∧ constraints prob =
        constraints_before_no_chef args data ++ no_chef args data
        ++ constraints_routing args data dm ++ ci
        ++ constraints_tail args data
    ∧ binaries prob = declared_binaries args data
    ∧ nonnegatives prob = [maxDuration]
    ∧ length (courses args) ≠ 0
    ∧ length data ≠ 0.
Proof.
  unfold build_model. intros H.
  destruct (decide (length (courses args) = 0)) as [| HK]; [discriminate |].
  simpl in H.
  apply bind_inr in H as (mp & _ & H).
  apply bind_inr in H as (pr & _ & H).
  apply bind_inr in H as (obj & Hobj & H).
  apply bind_inr in H as (ci & Hci & H).
  injection H as <-. exists ci. simpl. repeat split; try done.
  intros Hn. unfold build_objective, teams in Hobj.
  rewrite length_seq, Hn in Hobj. discriminate.
Qed.

(** ** Values of the expressions the builder writes *)

Lemma value_lpSum sol ts :
  (value sol (lpSum ts) == sumQ (λ tm, tm.1 * sol tm.2) ts)%Q.
Proof. unfold value. simpl. ring. Qed.

Lemma value_var sol v : (value sol (var v) == sol v)%Q.
Proof. unfold value. simpl. ring. Qed.

Lemma value_num sol z : (value sol (num z) == inject_Z z)%Q.
Proof. unfold value. simpl. ring. Qed.

Lemma sumQ_bind1 {A B} (f : B → Q) (h : A → B) (l : list A) :
  (sumQ f (x ← l; [h x]) == sumQ (λ x, f (h x)) l)%Q.
Proof.
  rewrite sumQ_bind. apply sumQ_ext. intros x _. simpl. ring.
Qed.

Lemma sumQ_bind_if {A B} (f : B → Q) (h : A → B) (P : A → Prop)
    `{∀ x, Decision (P x)} (l : list A) :
  (sumQ f (x ← l; if decide (P x) then [h x] else [])
   == sumQ (λ x, if decide (P x) then f (h x) else 0) l)%Q.
Proof.
  rewrite sumQ_bind. apply sumQ_ext. intros x _.
  destruct (decide (P x)); simpl; ring.
Qed.

(** Membership in a comprehension, one generator at a time. *)
Ltac in_bind x :=
  apply list_elem_of_bind; exists x; split; [| assumption].

(** ** Index ranges *)

Lemma elem_of_courses args c : c ∈ courses args ↔ c < length (courses args).
Proof. unfold courses. rewrite elem_of_seq, length_seq. lia. Qed.

Lemma elem_of_teams data t : t ∈ teams data ↔ t < length data.
Proof. unfold teams. rewrite elem_of_seq. lia. Qed.

Lemma courses_seq args : courses args = seq 0 (length (courses args)).
Proof. unfold courses. by rewrite length_seq. Qed.

Lemma courses_first_0 args : length (courses args) ≠ 0 → courses_first args = 0.
Proof.
  unfold courses_first, courses. rewrite length_seq.
  destruct (Z.to_nat (num_courses args)); [done | reflexivity].
Qed.

Lemma courses_last_pred args :
  length (courses args) ≠ 0 → courses_last args = length (courses args) - 1.
Proof.
  unfold courses_last, courses. rewrite length_seq.
  destruct (Z.to_nat (num_courses args)) as [| k]; [done |]. intros _.
  rewrite seq_S, last_snoc. simpl. lia.
Qed.

(** ** What a feasible solution of a built model satisfies *)

Section Feasible.
Context (args : Args) (data : list team) (distance_matrix : gmap dkey Z).
Context (prob : LpProblem) (sol : solution).
Hypothesis Hbuild : build_model args data distance_matrix = inr prob.
Hypothesis Hfeas : feasible prob sol.

Abbreviation courses := (courses args).
Abbreviation teams := (teams data).
Abbreviation groups := (groups args data).

Lemma holds_before_no_chef k :
  k ∈ constraints_before_no_chef args data → holds sol k.
Proof.
  intros Hk. destruct (build_model_inr _ _ _ _ Hbuild) as (ci & _ & E & _).
  apply Hfeas. rewrite E, !elem_of_app. auto.
Qed.

Lemma holds_routing k :
  k ∈ constraints_routing args data distance_matrix → holds sol k.
Proof.
  intros Hk. destruct (build_model_inr _ _ _ _ Hbuild) as (ci & _ & E & _).
  apply Hfeas. rewrite E, !elem_of_app. auto.
Qed.

Lemma courses_nonempty : length courses ≠ 0.
Proof. by destruct (build_model_inr _ _ _ _ Hbuild) as (ci & _ & _ & _ & _ & ? & _). Qed.

Lemma binary_assignment t g c :
  t ∈ teams → g ∈ groups → c ∈ courses → is_binary sol (assignment t g c).
Proof.
  intros Ht Hg Hc.
  destruct (build_model_inr _ _ _ _ Hbuild) as (ci & _ & _ & E & _).
  apply Hfeas. rewrite E. unfold declared_binaries. rewrite !elem_of_app.
  left. in_bind t. in_bind g. in_bind c. left.
Qed.

Lemma binary_chef t g c :
  t ∈ teams → g ∈ groups → c ∈ courses → is_binary sol (chef t g c).
Proof.
  intros Ht Hg Hc.
  destruct (build_model_inr _ _ _ _ Hbuild) as (ci & _ & _ & E & _).
  apply Hfeas. rewrite E. unfold declared_binaries. rewrite !elem_of_app.
  right; left. in_bind t. in_bind g. in_bind c. left.
Qed.

Lemma binary_arc c i j t g :
  c ∈ courses → i ∈ teams → j ∈ teams → t ∈ teams → g ∈ groups →
  is_binary sol (arc c i j t g).
Proof.
  intros Hc Hi Hj Ht Hg.
  destruct (build_model_inr _ _ _ _ Hbuild) as (ci & _ & _ & E & _).
  apply Hfeas. rewrite E. unfold declared_binaries. rewrite !elem_of_app.
  right; right; left. in_bind c. in_bind i. in_bind j. in_bind t. in_bind g.
  left.
Qed.

(** Every team is in one group per course. *)
Lemma team_in_one_group t c :
  t ∈ teams → c ∈ courses →
  (sumQ (λ g, sol (assignment t g c)) groups == 1)%Q.
Proof.
  intros Ht Hc.
  assert (Hk : holds sol
    (LpEQ (lpSum (g ← groups; [(1%Q, assignment t g c)])) (num 1))).
  { apply holds_before_no_chef. unfold constraints_before_no_chef.
    rewrite !elem_of_app. left. unfold one_group_per_course.
    in_bind t. in_bind c. left. }
  simpl in Hk. rewrite value_lpSum, value_num, sumQ_bind1 in Hk.
  rewrite <- Hk. apply sumQ_ext. intros g _. simpl. ring.
Qed.

(** A team has arcs in a group exactly when it is assigned to it. *)
Lemma arcs_of_assignment t g c :
  t ∈ teams → g ∈ groups → c ∈ courses →
  (sumQ (λ i, sumQ (λ j, sol (arc c i j t g)) teams) teams
   == sol (assignment t g c))%Q.
Proof.
  intros Ht Hg Hc.
  assert (Hk : holds sol
    (LpEQ (lpSum (i ← teams; j ← teams; [(1%Q, arc c i j t g)]))
          (var (assignment t g c)))).
  { apply holds_routing. unfold constraints_routing.
    rewrite !elem_of_app. do 3 right. left. unfold arc_if_assigned.
    in_bind t. in_bind g. in_bind c. left. }
  simpl in Hk. rewrite value_lpSum, value_var, sumQ_bind in Hk.
  rewrite <- Hk. apply sumQ_ext. intros i _.
  rewrite sumQ_bind1. apply sumQ_ext. intros j _. simpl. ring.
Qed.

(** An arc leads to the chef of its group. *)
Lemma arc_to_chef c i j t g :
  c ∈ courses → i ∈ teams → j ∈ teams → t ∈ teams → g ∈ groups →
  (sol (arc c i j t g) <= sol (chef j g c))%Q.
Proof.
  intros Hc Hi Hj Ht Hg.
  assert (Hk : holds sol (LpLE (var (arc c i j t g)) (var (chef j g c)))).
  { apply holds_routing. unfold constraints_routing.
    rewrite !elem_of_app. do 5 right. left. unfold go_to_chef.
    in_bind c. in_bind t. in_bind g. in_bind i. in_bind j. left. }
  simpl in Hk. by rewrite !value_var in Hk.
Qed.

(** From the second course on, a team leaves the place it arrived at. *)
Lemma leave_where_entered c t i :
  S c ∈ courses → t ∈ teams → i ∈ teams →
  (sumQ (λ j, sumQ (λ g, if decide (j ≠ i) then sol (arc (S c) i j t g) else 0)
                   groups) teams
   == sumQ (λ r, sumQ (λ g, sol (arc c r i t g)) groups) teams)%Q.
Proof.
  intros Hc Ht Hi.
  assert (Hk : holds sol
    (LpEQ (lpSum (j ← teams; g ← groups;
                  if decide (j ≠ i) then [(1%Q, arc (S c) i j t g)] else []))
          (lpSum (r ← teams; g ← groups; [(1%Q, arc (S c - 1) r i t g)])))).
  { apply holds_routing. unfold constraints_routing.
    rewrite !elem_of_app. do 6 right. left. unfold leave_if_entering.
    apply list_elem_of_bind. exists (S c). split.
    - in_bind t. in_bind i. left.
    - unfold py_range. apply elem_of_seq. apply elem_of_courses in Hc. lia. }
  simpl in Hk. rewrite !value_lpSum, !sumQ_bind in Hk.
  replace (c - 0) with c in Hk by lia.
  etransitivity; [| etransitivity; [exact Hk |]].
  - apply sumQ_ext. intros j _. rewrite sumQ_bind. apply sumQ_ext.
    intros g _. destruct (decide (j ≠ i)); simpl; ring.
  - apply sumQ_ext. intros r _. rewrite sumQ_bind1. apply sumQ_ext.
    intros g _. simpl. ring.
Qed.

(** In the first course a team starts at its own place. *)
Lemma start_from_home t g :
  t ∈ teams → g ∈ groups →
  (sumQ (λ j, sol (arc 0 t j t g)) teams == sol (assignment t g 0))%Q.
Proof.
  intros Ht Hg.
  assert (E0 : courses_first args = 0)
    by apply courses_first_0, courses_nonempty.
  assert (Hk : holds sol
    (LpEQ (lpSum (j ← teams; [(1%Q, arc (courses_first args) t j t g)]))
          (var (assignment t g (courses_first args))))).
  { apply holds_routing. unfold constraints_routing.
    rewrite !elem_of_app. do 4 right. left. unfold start_at_self.
    in_bind t. in_bind g. left. }
  rewrite E0 in Hk. simpl in Hk.
  rewrite value_lpSum, value_var, sumQ_bind1 in Hk.
  rewrite <- Hk. apply sumQ_ext. intros j _. simpl. ring.
Qed.

End Feasible.

(** ** The team loop of the decoder *)

Section TeamLoop.
Context (args : Args) (data : list team) (distance_matrix : gmap dkey Z).
Context (sol : solution) (t : nat).

Abbreviation active :=
  (λ x : nat * nat * nat * nat,
     let '(c, i, j, g) := x in is_one sol (arc c i j t g) = true).

Lemma visit_arc_tour w x :
  tour (visit_arc args distance_matrix sol t w x)
  = tour w ++ (if decide (active x) then [leg_of distance_matrix x] else []).
Proof.
  destruct x as [[[c i] j] g]. unfold visit_arc.
  destruct (decide (is_one sol (arc c i j t g) = true)) as [E | E].
  - rewrite E. by destruct (decide (c = courses_last args)).
  - apply not_true_is_false in E. rewrite E. by rewrite app_nil_r.
Qed.

Lemma visit_arc_afterparty w x :
  afterparty_duration (visit_arc args distance_matrix sol t w x)
  = if decide (active x ∧ leg_course x = courses_last args)
    then Some (distance_matrix !!! Afterparty (leg_destination x))
    else afterparty_duration w.
Proof.
  destruct x as [[[c i] j] g]. unfold visit_arc, leg_course, leg_destination.
  simpl. destruct (is_one sol (arc c i j t g)) eqn:E.
  - destruct (decide (c = courses_last args)).
    + by rewrite decide_True.
    + rewrite decide_False; [done | by intros [_ ?]].
  - rewrite decide_False; [done | intros [? _]; congruence].
Qed.

(** The tour lists the active tuples of the loop, in order. *)
Lemma walk_tour l w :
  tour (foldl (visit_arc args distance_matrix sol t) w l)
  = tour w ++ (leg_of distance_matrix <$> filter active l).
Proof.
  revert w. induction l as [| x l IH]; intros w; simpl.
  - by rewrite app_nil_r.
  - rewrite IH, visit_arc_tour, filter_cons.
    destruct (decide (active x)); simpl.
    + by rewrite <- app_assoc.
    + by rewrite app_nil_r.
Qed.

(** The afterparty leg is taken from the last active tuple of the last
    course. *)
Lemma walk_afterparty l w :
  afterparty_duration (foldl (visit_arc args distance_matrix sol t) w l)
  = match last (filter (λ x, leg_course x = courses_last args)
                       (filter active l)) with
    | Some x => Some (distance_matrix !!! Afterparty (leg_destination x))
    | None => afterparty_duration w
    end.
Proof.
  revert w. induction l as [| x l IH]; intros w; simpl; [done |].
  rewrite IH, visit_arc_afterparty, !filter_cons.
  destruct (decide (active x)) as [Ha | Ha].
  - rewrite filter_cons.
    destruct (decide (leg_course x = courses_last args)) as [Hc | Hc].
    + rewrite decide_True by done.
      rewrite last_cons. by destruct (last _).
    + rewrite decide_False by (by intros [_ ?]). done.
  - rewrite decide_False by (by intros [? _]). done.
Qed.

Lemma filter_bind {A B} (P : B → Prop) `{∀ x, Decision (P x)}
    (f : A → list B) (l : list A) :
  filter P (l ≫= f) = l ≫= (λ x, filter P (f x)).
Proof.
  induction l as [| x l IH]; [done |].
  by rewrite !bind_cons, filter_app, IH.
Qed.

Lemma itinerary_by_course :
  itinerary args data sol t = c ← courses args; legs_in args data sol t c.
Proof. unfold itinerary, arc_indices. by rewrite filter_bind. Qed.

Lemma elem_of_legs_in c x :
  x ∈ legs_in args data sol t c ↔
  ∃ i j g, x = (c, i, j, g) ∧ i ∈ teams data ∧ j ∈ teams data
           ∧ g ∈ groups args data ∧ (sol (arc c i j t g) == 1)%Q.
Proof.
  unfold legs_in. rewrite list_elem_of_filter. split.
  - intros [Ha Hx].
    apply list_elem_of_bind in Hx as (i & Hx & Hi).
    apply list_elem_of_bind in Hx as (j & Hx & Hj).
    apply list_elem_of_bind in Hx as (g & Hx & Hg).
    apply list_elem_of_singleton in Hx as ->.
    exists i, j, g. repeat split; try done. by apply Qeq_bool_iff.
  - intros (i & j & g & -> & Hi & Hj & Hg & H1). split.
    + by apply Qeq_bool_iff.
    + in_bind i. in_bind j. in_bind g. left.
Qed.

(** When every course has one active tuple, the itinerary lists them by
    course. *)
Lemma bind_singletons {A B} (f : A → list B) (l : list A) :
  (∀ x, x ∈ l → length (f x) = 1) →
  length (l ≫= f) = length l
  ∧ ∀ k x, l !! k = Some x → (l ≫= f) !! k = head (f x).
Proof.
  induction l as [| y l IH]; intros H; [done |].
  destruct IH as [IHlen IHget]; [intros x Hx; apply H; by right |].
  assert (Hy : length (f y) = 1) by (apply H; left).
  destruct (f y) as [| z [| ? ?]] eqn:E; try discriminate.
  rewrite bind_cons, E. split; [simpl; by rewrite IHlen |].
  intros [| k] x Hk; simpl in *.
  - injection Hk as <-. by rewrite E.
  - by apply IHget.
Qed.

End TeamLoop.

Lemma sumQ_pos_elem {A} (f : A → Q) (l : list A) :
  (0 < sumQ f l)%Q → ∃ x, x ∈ l ∧ (0 < f x)%Q.
Proof.
  induction l as [| y l IH]; simpl; intros Hpos; [lra |].
  destruct (Qlt_le_dec 0 (f y)) as [Hy | Hy].
  - exists y. split; [left | done].
  - destruct IH as (x & Hx & Hfx); [lra |].
    exists x. split; [by right | done].
Qed.

Lemma binary_pos_one sol v : is_binary sol v → (0 < sol v)%Q → (sol v == 1)%Q.
Proof. intros [H | H] Hpos; [lra | done]. Qed.

Lemma binary_nonneg sol v : is_binary sol v → (0 <= sol v)%Q.
Proof. intros [H | H]; lra. Qed.

(** ** Routes of a feasible solution *)

Section Routes.
Context (args : Args) (data : list team) (distance_matrix : gmap dkey Z).
Context (prob : LpProblem) (sol : solution).
Hypothesis Hbuild : build_model args data distance_matrix = inr prob.
Hypothesis Hfeas : feasible prob sol.
Context (t : nat).
Hypothesis Ht : t ∈ teams data.

Abbreviation courses := (courses args).
Abbreviation teams := (teams data).
Abbreviation groups := (groups args data).
Abbreviation legs := (legs_in args data sol t).

(** Over all origins, destinations and groups, a team has one arc per
    course. *)
Lemma one_arc_per_course c :
  c ∈ courses →
  (sumQ (λ i, sumQ (λ j, sumQ (λ g, sol (arc c i j t g)) groups) teams) teams
   == 1)%Q.
Proof.
  intros Hc.
  rewrite <- (team_in_one_group _ _ _ _ _ Hbuild Hfeas t c Ht Hc).
  etransitivity.
  { apply sumQ_ext. intros i _. apply sumQ_swap. }
  rewrite sumQ_swap. apply sumQ_ext. intros g Hg.
  by apply (arcs_of_assignment _ _ _ _ _ Hbuild Hfeas).
Qed.

Lemma legs_in_length c : c ∈ courses → length (legs c) = 1.
Proof.
  intros Hc.
  pose (f := λ x : nat * nat * nat * nat,
          sol (arc (leg_course x) (leg_origin x) (leg_destination x) t
                   (leg_group x))).
  assert (E : (inject_Z (Z.of_nat (length (legs c))) == 1)%Q).
  { unfold legs_in.
    rewrite (list_filter_iff _ (λ x, Qeq_bool (f x) 1 = true))
      by (by intros [[[? ?] ?] ?]).
    rewrite sumQ_count.
    - rewrite <- (one_arc_per_course c Hc).
      rewrite sumQ_bind. apply sumQ_ext. intros i _.
      rewrite sumQ_bind. apply sumQ_ext. intros j _.
      by rewrite sumQ_bind1.
    - intros x Hx.
      apply list_elem_of_bind in Hx as (i & Hx & Hi).
      apply list_elem_of_bind in Hx as (j & Hx & Hj).
      apply list_elem_of_bind in Hx as (g & Hx & Hg).
      apply list_elem_of_singleton in Hx as ->.
      by apply (binary_arc _ _ _ _ _ Hbuild Hfeas). }
  destruct (length (legs c)) as [| [| n]]; [| done |].
  - unfold Qeq in E. simpl in E. lia.
  - unfold Qeq in E. simpl in E. lia.
Qed.

(** The one arc of the team in a course. *)
Lemma the_leg c :
  c ∈ courses →
  ∃ i j g, legs c = [(c, i, j, g)]
           ∧ i ∈ teams ∧ j ∈ teams ∧ g ∈ groups
           ∧ (sol (arc c i j t g) == 1)%Q.
Proof.
  intros Hc. pose proof (legs_in_length c Hc) as Hlen.
  destruct (legs c) as [| x [| ? ?]] eqn:E; try discriminate.
  assert (Hx : x ∈ legs c) by (rewrite E; left).
  apply elem_of_legs_in in Hx as (i & j & g & -> & Hx).
  by exists i, j, g.
Qed.

Lemma the_leg_unique c i j g i' j' g' :
  legs c = [(c, i, j, g)] →
  i' ∈ teams → j' ∈ teams → g' ∈ groups →
  (sol (arc c i' j' t g') == 1)%Q →
  (i', j', g') = (i, j, g).
Proof.
  intros E Hi Hj Hg H1.
  assert (Hx : (c, i', j', g') ∈ legs c)
    by (apply elem_of_legs_in; by exists i', j', g').
  rewrite E in Hx. apply list_elem_of_singleton in Hx. congruence.
Qed.

(** The arc goes to the chef of a group the team is assigned to. *)
Lemma leg_assigned_to_chef c i j g :
  c ∈ courses → i ∈ teams → j ∈ teams → g ∈ groups →
  (sol (arc c i j t g) == 1)%Q →
  (sol (assignment t g c) == 1)%Q ∧ (sol (chef j g c) == 1)%Q.
Proof.
  intros Hc Hi Hj Hg H1. split.
  - apply binary_pos_one; [by eapply binary_assignment |].
    rewrite <- (arcs_of_assignment _ _ _ _ _ Hbuild Hfeas t g c Ht Hg Hc).
    assert (sumQ (λ j, sol (arc c i j t g)) teams
            <= sumQ (λ i, sumQ (λ j, sol (arc c i j t g)) teams) teams)%Q.
    { apply (sumQ_elem_le (λ i, sumQ (λ j, sol (arc c i j t g)) teams));
        [| done].
      intros i' Hi'. apply sumQ_nonneg. intros j' Hj'.
      apply binary_nonneg. by eapply binary_arc. }
    assert (sol (arc c i j t g) <= sumQ (λ j, sol (arc c i j t g)) teams)%Q.
    { apply (sumQ_elem_le (λ j, sol (arc c i j t g))); [| done].
      intros j' Hj'. apply binary_nonneg. by eapply binary_arc. }
    lra.
  - apply binary_pos_one; [by eapply binary_chef |].
    pose proof (arc_to_chef _ _ _ _ _ Hbuild Hfeas c i j t g Hc Hi Hj Ht Hg).
    lra.
Qed.

(** The arc of the next course starts where this one ends. *)
Lemma legs_chain c i j g i' j' g' :
  S c ∈ courses →
  legs c = [(c, i, j, g)] → legs (S c) = [(S c, i', j', g')] →
  i' = j.
Proof.
  intros HSc E E'.
  assert (Hc : c ∈ courses)
    by (apply elem_of_courses; apply elem_of_courses in HSc; lia).
  assert (Hx : (c, i, j, g) ∈ legs c) by (rewrite E; left).
  apply elem_of_legs_in in Hx as (? & ? & ? & [= <- <- <-] & Hi & Hj & Hg & H1).
  pose proof (leave_where_entered _ _ _ _ _ Hbuild Hfeas c t j HSc Ht Hj)
    as Hflow.
  assert (Hin : (1 <= sumQ (λ r, sumQ (λ g, sol (arc c r j t g)) groups) teams)%Q).
  { assert (sumQ (λ g, sol (arc c i j t g)) groups
            <= sumQ (λ r, sumQ (λ g, sol (arc c r j t g)) groups) teams)%Q.
    { apply (sumQ_elem_le (λ r, sumQ (λ g, sol (arc c r j t g)) groups));
        [| done].
      intros r Hr. apply sumQ_nonneg. intros g0 Hg0.
      apply binary_nonneg. by eapply binary_arc. }
    assert (sol (arc c i j t g) <= sumQ (λ g, sol (arc c i j t g)) groups)%Q.
    { apply (sumQ_elem_le (λ g, sol (arc c i j t g))); [| done].
      intros g0 Hg0. apply binary_nonneg. by eapply binary_arc. }
    lra. }
  rewrite <- Hflow in Hin.
  pose proof (Qlt_le_trans 0 1 _ eq_refl Hin) as Hpos.
  apply sumQ_pos_elem in Hpos as (j2 & Hj2 & Hpos).
  apply sumQ_pos_elem in Hpos as (g2 & Hg2 & Hpos).
  destruct (decide (j2 ≠ j)) as [Hne | ?]; [| lra].
  apply binary_pos_one in Hpos; [| by eapply binary_arc].
  pose proof (the_leg_unique (S c) i' j' g' j j2 g2 E' Hj Hj2 Hg2 Hpos).
  congruence.
Qed.

(** The arc of the first course starts at the team's own place. *)
Lemma first_leg_from_home i j g : legs 0 = [(0, i, j, g)] → i = t.
Proof.
  intros E.
  assert (H0 : 0 ∈ courses).
  { apply elem_of_courses.
    pose proof (courses_nonempty _ _ _ _ Hbuild). lia. }
  assert (Hpos : (0 < sumQ (λ g, sumQ (λ j, sol (arc 0 t j t g)) teams) groups)%Q).
  { rewrite (sumQ_ext _ (λ g, sol (assignment t g 0))).
    - rewrite (team_in_one_group _ _ _ _ _ Hbuild Hfeas t 0 Ht H0). lra.
    - intros g0 Hg0. by apply (start_from_home _ _ _ _ _ Hbuild Hfeas). }
  apply sumQ_pos_elem in Hpos as (g2 & Hg2 & Hpos).
  apply sumQ_pos_elem in Hpos as (j2 & Hj2 & Hpos).
  apply binary_pos_one in Hpos; [| by eapply binary_arc].
  pose proof (the_leg_unique 0 i j g t j2 g2 E Ht Hj2 Hg2 Hpos).
  congruence.
Qed.

End Routes.

(** ** The decoded itinerary (C2) *)

(** C2.  In a feasible solution of a built model, the decoded tour of every
    team has one leg per course, taken from the one arc of the team in that
    course and listed in course order; the arc of a course leads to the chef
    of a group the team is assigned to, and the arc of the next course
    starts where it ends; the first arc starts at the team's own place; and
    there is one afterparty leg, from the destination of the last arc. *)
Theorem itinerary_legs_chain args data distance_matrix prob sol t :
  build_model args data distance_matrix = inr prob →
  feasible prob sol →
  t ∈ teams data →
  let it := itinerary args data sol t in
  let w := walk_team args data distance_matrix sol t in
  tour w = leg_of distance_matrix <$> it
  ∧ length (tour w) = length (courses args)
  ∧ (∀ c, c ∈ courses args →
      ∃ i j g,
        it !! c = Some (c, i, j, g)
        ∧ i ∈ teams data ∧ j ∈ teams data ∧ g ∈ groups args data
        ∧ (sol (arc c i j t g) == 1)%Q
        ∧ (sol (assignment t g c) == 1)%Q
        ∧ (sol (chef j g c) == 1)%Q
        ∧ ∀ i' j' g',
            i' ∈ teams data → j' ∈ teams data → g' ∈ groups args data →
            (sol (arc c i' j' t g') == 1)%Q → (i', j', g') = (i, j, g))
  ∧ (∀ c x y, it !! c = Some x → it !! S c = Some y →
      leg_origin y = leg_destination x)
  ∧ (∀ x, it !! 0 = Some x → leg_origin x = t)
  ∧ (∃ x, last it = Some x
      ∧ afterparty_duration w
        = Some (distance_matrix !!! Afterparty (leg_destination x))).
Proof.
  intros Hbuild Hfeas Ht it w.
  pose proof (courses_nonempty _ _ _ _ Hbuild) as HK.
  assert (Eit : it = courses args ≫= legs_in args data sol t)
    by apply itinerary_by_course.
  destruct (bind_singletons (legs_in args data sol t) (courses args))
    as [Hlen Hget].
  { intros c Hc. by eapply legs_in_length. }
  rewrite <- Eit in Hlen, Hget.
  assert (Hat : ∀ c, c ∈ courses args →
            it !! c = head (legs_in args data sol t c)).
  { intros c Hc. apply Hget. rewrite courses_seq.
    apply elem_of_courses in Hc. by rewrite lookup_seq_lt. }
  assert (Hlt : ∀ c x, it !! c = Some x → c ∈ courses args).
  { intros c x Hx. apply lookup_lt_Some in Hx.
    apply elem_of_courses. lia. }
  assert (Etour : tour w = leg_of distance_matrix <$> it).
  { unfold w, walk_team. by rewrite walk_tour. }
  split; [done |]. split; [by rewrite Etour, length_fmap |].
  split; [| split; [| split]].
  - intros c Hc.
    destruct (the_leg _ _ _ _ _ Hbuild Hfeas t Ht c Hc)
      as (i & j & g & E & Hi & Hj & Hg & H1).
    destruct (leg_assigned_to_chef _ _ _ _ _ Hbuild Hfeas t Ht c i j g)
      as [Ha Hch]; try done.
    exists i, j, g. rewrite (Hat c Hc), E. repeat split; try done.
    intros i' j' g'. by eapply the_leg_unique.
  - intros c x y Hx Hy.
    pose proof (Hlt _ _ Hx) as Hc. pose proof (Hlt _ _ Hy) as HSc.
    destruct (the_leg _ _ _ _ _ Hbuild Hfeas t Ht c Hc)
      as (i & j & g & E & _).
    destruct (the_leg _ _ _ _ _ Hbuild Hfeas t Ht (S c) HSc)
      as (i' & j' & g' & E' & _).
    rewrite (Hat c Hc), E in Hx. rewrite (Hat (S c) HSc), E' in Hy.
    injection Hx as <-. injection Hy as <-.
    by eapply legs_chain.
  - intros x Hx. pose proof (Hlt _ _ Hx) as H0.
    destruct (the_leg _ _ _ _ _ Hbuild Hfeas t Ht 0 H0)
      as (i & j & g & E & _).
    rewrite (Hat 0 H0), E in Hx. injection Hx as <-.
    by eapply first_leg_from_home.
  - assert (Hc : length (courses args) - 1 ∈ courses args)
      by (apply elem_of_courses; lia).
    destruct (the_leg _ _ _ _ _ Hbuild Hfeas t Ht _ Hc)
      as (i & j & g & E & _).
    assert (Esplit : it = (seq 0 (length (courses args) - 1)
                             ≫= legs_in args data sol t)
                          ++ [(length (courses args) - 1, i, j, g)]).
    { rewrite Eit. rewrite (courses_seq args) at 1.
      replace (length (courses args))
        with (S (length (courses args) - 1)) at 1 by lia.
      rewrite seq_S, bind_app. simpl. by rewrite E, app_nil_r. }
    exists (length (courses args) - 1, i, j, g). split.
    + by rewrite Esplit, last_snoc.
    + unfold w, walk_team. rewrite walk_afterparty.
      fold (itinerary args data sol t). fold it.
      rewrite Esplit, filter_app, filter_cons, decide_True.
      * by rewrite filter_nil, last_snoc.
      * unfold leg_course. simpl. by rewrite courses_last_pred.
Qed.

(** ** Meeting once (C5) *)

Lemma elem_of_py_range a b x : x ∈ py_range a b ↔ a ≤ x < b.
Proof. unfold py_range. rewrite elem_of_seq. lia. Qed.

Lemma elem_of_meet_once args data k :
  can_meet_again args = false →
  k ∈ meet_once args data ↔
  ∃ c1 c2 g1 g2 t1 t2,
    c1 < c2 < length (courses args)
    ∧ g1 ∈ groups args data ∧ g2 ∈ groups args data
    ∧ t1 < t2 < length (teams data)
    ∧ k = LpLE (lpSum [(1%Q, assignment t1 g1 c1); (1%Q, assignment t2 g1 c1);
                       (1%Q, assignment t1 g2 c2); (1%Q, assignment t2 g2 c2)])
               (num 3).
Proof.
  intros Hoff. unfold meet_once. rewrite Hoff. split.
  - intros Hk.
    apply list_elem_of_bind in Hk as (c1 & Hk & Hc1%elem_of_py_range).
    apply list_elem_of_bind in Hk as (c2 & Hk & Hc2%elem_of_py_range).
    apply list_elem_of_bind in Hk as (g1 & Hk & Hg1).
    apply list_elem_of_bind in Hk as (g2 & Hk & Hg2).
    apply list_elem_of_bind in Hk as (t1 & Hk & Ht1%elem_of_py_range).
    apply list_elem_of_bind in Hk as (t2 & Hk & Ht2%elem_of_py_range).
    apply list_elem_of_singleton in Hk.
    exists c1, c2, g1, g2, t1, t2. repeat split; try done; lia.
  - intros (c1 & c2 & g1 & g2 & t1 & t2 & Hc & Hg1 & Hg2 & Ht & ->).
    apply list_elem_of_bind. exists c1. split; [| apply elem_of_py_range; lia].
    apply list_elem_of_bind. exists c2. split; [| apply elem_of_py_range; lia].
    in_bind g1. in_bind g2.
    apply list_elem_of_bind. exists t1. split; [| apply elem_of_py_range; lia].
    apply list_elem_of_bind. exists t2. split; [| apply elem_of_py_range; lia].
    left.
Qed.

Lemma meet_once_in_model args data distance_matrix prob k :
  build_model args data distance_matrix = inr prob →
  k ∈ meet_once args data → k ∈ constraints prob.
Proof.
  intros Hbuild Hk.
  destruct (build_model_inr _ _ _ _ Hbuild) as (ci & _ & E & _).
  rewrite E. unfold constraints_before_no_chef. rewrite !elem_of_app. auto.
Qed.

(** The four indicators of two teams in two courses, for ordered teams and
    courses. *)
Lemma meet_once_ordered args data distance_matrix prob sol t1 t2 c1 c2 g1 g2 :
  build_model args data distance_matrix = inr prob →
  can_meet_again args = false →
  feasible prob sol →
  t1 < t2 < length (teams data) → c1 < c2 < length (courses args) →
  g1 ∈ groups args data → g2 ∈ groups args data →
  (sol (assignment t1 g1 c1) + sol (assignment t2 g1 c1)
   + sol (assignment t1 g2 c2) + sol (assignment t2 g2 c2) <= 3)%Q.
Proof.
  intros Hbuild Hoff Hfeas Ht Hc Hg1 Hg2.
  assert (Hk : holds sol
    (LpLE (lpSum [(1%Q, assignment t1 g1 c1); (1%Q, assignment t2 g1 c1);
                  (1%Q, assignment t1 g2 c2); (1%Q, assignment t2 g2 c2)])
          (num 3))).
  { apply Hfeas. eapply meet_once_in_model; [done |].
    apply elem_of_meet_once; [done |]. by exists c1, c2, g1, g2, t1, t2. }
  unfold holds, value, sumQ in Hk. cbn in Hk. unfold inject_Z in Hk. lra.
Qed.

(** C5.  With the unique-meeting option on, the model holds exactly the
    inequalities [assignment(t1,g1,c1) + assignment(t2,g1,c1)
    + assignment(t1,g2,c2) + assignment(t2,g2,c2) <= 3] for courses
    [c1 < c2], groups [g1], [g2] and teams [t1 < t2], and in a feasible
    solution no two distinct teams share a group in two different courses. *)
Theorem teams_meet_once args data distance_matrix prob sol :
  build_model args data distance_matrix = inr prob →
  can_meet_again args = false →
  feasible prob sol →
  (∀ k, k ∈ meet_once args data ↔
     ∃ c1 c2 g1 g2 t1 t2,
       c1 < c2 < length (courses args)
       ∧ g1 ∈ groups args data ∧ g2 ∈ groups args data
       ∧ t1 < t2 < length (teams data)
       ∧ k = LpLE (lpSum [(1%Q, assignment t1 g1 c1);
                          (1%Q, assignment t2 g1 c1);
                          (1%Q, assignment t1 g2 c2);
                          (1%Q, assignment t2 g2 c2)])
                  (num 3))
  ∧ (∀ k, k ∈ meet_once args data → k ∈ constraints prob)
  ∧ (∀ t1 t2 c1 c2 g1 g2,
       t1 ∈ teams data → t2 ∈ teams data → t1 ≠ t2 →
       c1 ∈ courses args → c2 ∈ courses args → c1 ≠ c2 →
       g1 ∈ groups args data → g2 ∈ groups args data →
       ¬ ((sol (assignment t1 g1 c1) == 1)%Q
          ∧ (sol (assignment t2 g1 c1) == 1)%Q
          ∧ (sol (assignment t1 g2 c2) == 1)%Q
          ∧ (sol (assignment t2 g2 c2) == 1)%Q)).
Proof.
  intros Hbuild Hoff Hfeas. split; [| split].
  - intros k. by apply elem_of_meet_once.
  - intros k. by apply (meet_once_in_model args data distance_matrix).
  - intros t1 t2 c1 c2 g1 g2 Ht1 Ht2 Hne Hc1 Hc2 Hcne Hg1 Hg2 (H1 & H2 & H3 & H4).
    apply elem_of_teams in Ht1, Ht2. apply elem_of_courses in Hc1, Hc2.
    assert (Hn : length (teams data) = length data)
      by (unfold teams; by rewrite length_seq).
    pose proof (meet_once_ordered args data distance_matrix prob sol t1 t2 c1 c2 g1 g2 Hbuild Hoff Hfeas).
    pose proof (meet_once_ordered args data distance_matrix prob sol t2 t1 c1 c2 g1 g2 Hbuild Hoff Hfeas).
    pose proof (meet_once_ordered args data distance_matrix prob sol t1 t2 c2 c1 g2 g1 Hbuild Hoff Hfeas).
    pose proof (meet_once_ordered args data distance_matrix prob sol t2 t1 c2 c1 g2 g1 Hbuild Hoff Hfeas).
    destruct (decide (t1 < t2)), (decide (c1 < c2)).
    + assert (sol (assignment t1 g1 c1) + sol (assignment t2 g1 c1)
              + sol (assignment t1 g2 c2) + sol (assignment t2 g2 c2) <= 3)%Q
        by (apply H; try done; lia).
      lra.
    + assert (sol (assignment t1 g2 c2) + sol (assignment t2 g2 c2)
              + sol (assignment t1 g1 c1) + sol (assignment t2 g1 c1) <= 3)%Q
        by (apply H5; try done; lia).
      lra.
    + assert (sol (assignment t2 g1 c1) + sol (assignment t1 g1 c1)
              + sol (assignment t2 g2 c2) + sol (assignment t1 g2 c2) <= 3)%Q
        by (apply H0; try done; lia).
      lra.
    + assert (sol (assignment t2 g2 c2) + sol (assignment t1 g2 c2)
              + sol (assignment t2 g1 c1) + sol (assignment t1 g1 c1) <= 3)%Q
        by (apply H6; try done; lia).
      lra.
Qed.

(** ** Minimum travel (C10) *)

Lemma elem_of_min_time_terms args data distance_matrix t q v :
  (q, v) ∈ min_time_terms args data distance_matrix t ↔
  ∃ c i j g,
    c ∈ courses args ∧ i ∈ teams data ∧ j ∈ teams data
    ∧ g ∈ groups args data ∧ j ≠ i
    ∧ v = arc c i j t g
    ∧ q = inject_Z (distance_matrix !!! Route i j c).
Proof.
  unfold min_time_terms. split.
  - intros H.
    apply list_elem_of_bind in H as (c & H & Hc).
    apply list_elem_of_bind in H as (i & H & Hi).
    apply list_elem_of_bind in H as (j & H & Hj).
    apply list_elem_of_bind in H as (g & H & Hg).
    destruct (decide (j ≠ i)); [| by apply elem_of_nil in H].
    apply list_elem_of_singleton in H as [= -> ->].
    by exists c, i, j, g.
  - intros (c & i & j & g & Hc & Hi & Hj & Hg & Hne & -> & ->).
    in_bind c. in_bind i. in_bind j. in_bind g.
    rewrite decide_True by done. left.
Qed.

Lemma min_time_in_model args data distance_matrix prob t :
  build_model args data distance_matrix = inr prob →
  t ∈ teams data →
  LpGE (lpSum (min_time_terms args data distance_matrix t))
       (num (min_travel args)) ∈ constraints prob.
Proof.
  intros Hbuild Ht.
  destruct (build_model_inr _ _ _ _ Hbuild) as (ci & _ & E & _).
  rewrite E. unfold constraints_routing. rewrite !elem_of_app.
  do 2 right. left. do 8 right. left.
  unfold min_time. in_bind t. left.
Qed.

Lemma value_min_time_terms args data distance_matrix sol t :
  (sumQ (λ tm, tm.1 * sol tm.2) (min_time_terms args data distance_matrix t)
   == sumQ (λ c, sumQ (λ i, sumQ (λ j, sumQ (λ g,
        if decide (j ≠ i)
        then inject_Z (distance_matrix !!! Route i j c) * sol (arc c i j t g)
        else 0) (groups args data)) (teams data)) (teams data))
      (courses args))%Q.
Proof.
  unfold min_time_terms.
  rewrite sumQ_bind. apply sumQ_ext. intros c _.
  rewrite sumQ_bind. apply sumQ_ext. intros i _.
  rewrite sumQ_bind. apply sumQ_ext. intros j _.
  rewrite sumQ_bind. apply sumQ_ext. intros g _.
  destruct (decide (j ≠ i)); simpl; unfold dist; ring.
Qed.

(** C10.  Whatever the options, the model bounds from below, by
    [--min-travel], the travel of every team over its arcs: the bounded sum
    has one term per course, group and pair of distinct teams, weighted by
    the travel time between the two teams in that course; an arc from a
    team's place to the same place and the way to the afterparty are not
    in it.  The option defaults to 1. *)
Theorem min_travel_bound args data distance_matrix prob sol t :
  build_model args data distance_matrix = inr prob →
  feasible prob sol →
  t ∈ teams data →
  LpGE (lpSum (min_time_terms args data distance_matrix t))
       (num (min_travel args)) ∈ constraints prob
  ∧ (∀ q v, (q, v) ∈ min_time_terms args data distance_matrix t ↔
       ∃ c i j g,
         c ∈ courses args ∧ i ∈ teams data ∧ j ∈ teams data
         ∧ g ∈ groups args data ∧ j ≠ i
         ∧ v = arc c i j t g
         ∧ q = inject_Z (distance_matrix !!! Route i j c))
  ∧ (inject_Z (min_travel args)
     <= sumQ (λ c, sumQ (λ i, sumQ (λ j, sumQ (λ g,
          if decide (j ≠ i)
          then inject_Z (distance_matrix !!! Route i j c) * sol (arc c i j t g)
          else 0) (groups args data)) (teams data)) (teams data))
        (courses args))%Q
  ∧ (∀ start, min_travel (default_args start) = 1%Z).
Proof.
  intros Hbuild Hfeas Ht.
  pose proof (min_time_in_model _ _ _ _ _ Hbuild Ht) as Hin.
  split; [done |]. split; [apply elem_of_min_time_terms |].
  split; [| done].
  apply Hfeas in Hin. simpl in Hin.
  rewrite value_lpSum, value_num in Hin.
  by rewrite <- value_min_time_terms.
Qed.

(** ** Toggling the preferences (C1) *)

Lemma elem_of_no_chef args data k :
  ignore_preferences args = false →
  k ∈ no_chef args data ↔
  ∃ t g c, t ∈ teams data ∧ g ∈ groups args data ∧ c ∈ courses args
           ∧ (pref data t c <= -1000)%Q
           ∧ k = LpEQ (var (chef t g c)) (num 0).
Proof.
  intros Hon. unfold no_chef. rewrite Hon. split.
  - intros H.
    apply list_elem_of_bind in H as (t & H & Ht).
    apply list_elem_of_bind in H as (c & H & Hc).
    destruct (forbidden data t c) eqn:E; [| by apply elem_of_nil in H].
    apply list_elem_of_bind in H as (g & H & Hg).
    apply list_elem_of_singleton in H as ->.
    exists t, g, c. repeat split; try done. by apply Qle_bool_iff.
  - intros (t & g & c & Ht & Hg & Hc & Hle & ->).
    in_bind t. in_bind c.
    unfold forbidden. apply Qle_bool_iff in Hle. rewrite Hle.
    in_bind g. left.
Qed.

Lemma bind_all_nil {A B} (f : A → list B) (l : list A) :
  (∀ x, x ∈ l → f x = []) → l ≫= f = [].
Proof.
  induction l as [| x l IH]; intros H; [done |].
  rewrite bind_cons, (H x) by left. apply IH. intros y Hy. apply H. by right.
Qed.



(** ** The preference term (C8) *)




(** *** Scores multiplied by a positive factor *)







Lemma mapM_inr_elem {A B} (f : A → pyresult B) (l : list A) (ys : list B)
    (x : A) :
  mapM f l = inr ys → x ∈ l → ∃ y, f x = inr y ∧ y ∈ ys.
Proof.
  revert ys. induction l as [| z l IH]; intros ys H Hx;
    [by apply elem_of_nil in Hx |].
  simpl in H. apply bind_inr in H as (y & Hy & H).
  apply bind_inr in H as (k & Hk & H). injection H as <-.
  apply elem_of_cons in Hx as [-> | Hx].
  - exists y. split; [done | left].
  - destruct (IH _ Hk Hx) as (y' & Hy' & Hin). exists y'.
    split; [done | by right].
Qed.



(** ** The group view (C6) *)

Section GroupView.
Context (data : list team) (sol : solution) (c g : nat).

Abbreviation assigned := (λ t, is_one sol (assignment t g c) = true).
Abbreviation cooks := (λ t, is_one sol (chef t g c) = true).

Lemma visit_members l w :
  foldl (visit_member sol g c) w l
  = {| cook := match last (filter (λ t, assigned t ∧ cooks t) l) with
               | Some t => Some t
               | None => cook w
               end;
       guests := guests w ++ filter (λ t, assigned t ∧ ¬ cooks t) l |}.
Proof.
  revert w. induction l as [| t l IH]; intros w; simpl.
  - rewrite app_nil_r. by destruct w.
  - rewrite IH, !filter_cons. unfold visit_member.
    destruct (is_one sol (assignment t g c)) eqn:Ea.
    + destruct (is_one sol (chef t g c)) eqn:Ec.
      * rewrite decide_True by done.
        rewrite decide_False by (by intros [_ ?]).
        rewrite last_cons. simpl. by destruct (last _).
      * rewrite decide_False by (intros [_ ?]; congruence).
        rewrite decide_True by (split; [done | congruence]).
        simpl. by rewrite <- app_assoc.
    + rewrite decide_False by (intros [? _]; congruence).
      by rewrite decide_False by (intros [? _]; congruence).
Qed.

End GroupView.

(** C6 (as the decoder has it).  For every course and group the decoder
    walks over the teams in order: the cook is the last assigned team that
    carries the chef indicator, and is [None] when there is none; the
    guests are the assigned teams without the indicator.  The decoding
    returns its result for every solution; the number of chef indicators
    of a group is not checked and no error is signalled. *)
Theorem decode_group_view args data distance_matrix sol :
  (∀ c g,
     decode_group data sol c g
     = {| cook := last (chef_indicators data sol c g);
          guests := filter (λ t, is_one sol (assignment t g c) = true
                                 ∧ ¬ is_one sol (chef t g c) = true)
                           (teams data) |})
  ∧ decode args data distance_matrix sol
    = inr (teamdata args data distance_matrix sol, coursedata args data sol).
Proof.
  split; [| done].
  intros c g. unfold decode_group. rewrite visit_members. simpl.
  by destruct (last _).
Qed.

(** ** The runs on four teams *)

Lemma quartet_feasible : feasible quartet_model quartet_solution.
Proof. apply feasibleb_feasible. vm_compute. reflexivity. Qed.

Lemma teams_meet_once_witness :
  build_model quartet_args quartet_data quartet_matrix = inr quartet_model
  ∧ can_meet_again quartet_args = false
  ∧ feasible quartet_model quartet_solution
  ∧ (∀ t1 t2 c1 c2 g1 g2,
       t1 ∈ teams quartet_data → t2 ∈ teams quartet_data → t1 ≠ t2 →
       c1 ∈ courses quartet_args → c2 ∈ courses quartet_args → c1 ≠ c2 →
       g1 ∈ groups quartet_args quartet_data →
       g2 ∈ groups quartet_args quartet_data →
       ¬ ((quartet_solution (assignment t1 g1 c1) == 1)%Q
          ∧ (quartet_solution (assignment t2 g1 c1) == 1)%Q
          ∧ (quartet_solution (assignment t1 g2 c2) == 1)%Q
          ∧ (quartet_solution (assignment t2 g2 c2) == 1)%Q)).
Proof.
  assert (Hb : build_model quartet_args quartet_data quartet_matrix
               = inr quartet_model) by (vm_compute; reflexivity).
  assert (Hf : feasible quartet_model quartet_solution)
    by (apply feasibleb_feasible; vm_compute; reflexivity).
  split; [exact Hb |]. split; [reflexivity |]. split; [exact Hf |].
  exact (proj2 (proj2 (teams_meet_once quartet_args quartet_data
                         quartet_matrix quartet_model quartet_solution
                         Hb eq_refl Hf))).
Defined.

Lemma min_travel_bound_witness :
  build_model quartet_args quartet_data quartet_matrix = inr quartet_model
  ∧ feasible quartet_model quartet_solution
  ∧ 0 ∈ teams quartet_data
  ∧ LpGE (lpSum (min_time_terms quartet_args quartet_data quartet_matrix 0))
         (num (min_travel quartet_args)) ∈ constraints quartet_model.
Proof.
  assert (Hb : build_model quartet_args quartet_data quartet_matrix
               = inr quartet_model) by (vm_compute; reflexivity).
  assert (Hf : feasible quartet_model quartet_solution)
    by (apply feasibleb_feasible; vm_compute; reflexivity).
  assert (Ht : 0 ∈ teams quartet_data)
    by (apply elem_of_teams; vm_compute; lia).
  split; [exact Hb |]. split; [exact Hf |]. split; [exact Ht |].
  exact (proj1 (min_travel_bound quartet_args quartet_data quartet_matrix
                  quartet_model quartet_solution 0 Hb Hf Ht)).
Defined.

Lemma itinerary_legs_chain_witness :
  build_model quartet_args quartet_data quartet_matrix = inr quartet_model
  ∧ feasible quartet_model quartet_solution
  ∧ 1 ∈ teams quartet_data
  ∧ length (tour (walk_team quartet_args quartet_data quartet_matrix
                    quartet_solution 1))
    = length (courses quartet_args)
  ∧ (∀ c x y,
       itinerary quartet_args quartet_data quartet_solution 1 !! c = Some x →
       itinerary quartet_args quartet_data quartet_solution 1 !! S c = Some y →
       leg_origin y = leg_destination x).
Proof.
  assert (Hb : build_model quartet_args quartet_data quartet_matrix
               = inr quartet_model) by (vm_compute; reflexivity).
  assert (Hf : feasible quartet_model quartet_solution)
    by (apply feasibleb_feasible; vm_compute; reflexivity).
  assert (Ht : 1 ∈ teams quartet_data)
    by (apply elem_of_teams; vm_compute; lia).
  split; [exact Hb |]. split; [exact Hf |]. split; [exact Ht |].
  pose proof (itinerary_legs_chain quartet_args quartet_data quartet_matrix
                quartet_model quartet_solution 1 Hb Hf Ht) as H.
  split; [exact (proj1 (proj2 H)) | exact (proj1 (proj2 (proj2 (proj2 H))))].
Defined.

(** ** Cook-incompatible teams (C4) *)

(** C4, at [--cook-incompatible 0,1] on four teams and two courses.  The
    model holds [assignment(0,g,c) <= 1 - chef(1,g,c)] only: team 0 is kept
    out of the groups team 1 cooks for, and nothing keeps team 1 out of the
    groups team 0 cooks for.  The solution below is feasible, and in it
    team 1 is the guest of team 0 in the first course. *)
Theorem cook_incompatible_one_way :
  cook_incompatible quartet_args = [0%Z; 1%Z]
  ∧ assemble_and_build (engine := motis_like ten_minutes) float_cell
      quartet_args (roster 4) = inr quartet_model
  ∧ cook_incompatible_constraints quartet_args quartet_data
    = inr (fmap (λ x, LpLE (var (assignment 0 x.2 x.1))
                           {| terms := [((-1)%Q, chef 1 x.2 x.1)];
                              constant := 1 |})
                [(0, 0); (0, 1); (1, 0); (1, 1)])
  ∧ (LpLE (var (assignment 1 0 0))
          {| terms := [((-1)%Q, chef 0 0 0)]; constant := 1 |}
     ∉ constraints quartet_model)
  ∧ feasible quartet_model quartet_solution
  ∧ (quartet_solution (chef 0 0 0) == 1)%Q
  ∧ (quartet_solution (assignment 1 0 0) == 1)%Q
  ∧ decode_group quartet_data quartet_solution 0 0
    = {| cook := Some 0; guests := [1] |}.
Proof.
  split; [reflexivity |].
  split; [vm_compute; reflexivity |].
  split; [vm_compute; reflexivity |].
  split; [apply (bool_decide_unpack _); vm_compute; exact I |].
  split; [exact quartet_feasible |].
  split; [reflexivity |]. split; [reflexivity |].
  vm_compute. reflexivity.
Qed.

(** ** The runs on two teams with scores *)






(** C6, as stated, fails: a group without a chef indicator and a group with
    two are decoded without an error; the first has no cook and the second
    keeps the later of the two. *)
Lemma decoder_accepts_any_chef_count :
  chef_indicators duo_data no_chefs 0 0 = []
  ∧ chef_indicators duo_data two_chefs 0 0 = [0; 1]
  ∧ (∃ out, decode duo_args duo_data duo_matrix no_chefs = inr out
            ∧ out.2 !! 0 = Some [{| cook := None; guests := [0; 1] |}])
  ∧ (∃ out, decode duo_args duo_data duo_matrix two_chefs = inr out
            ∧ out.2 !! 0 = Some [{| cook := Some 1; guests := [] |}]).
Proof.
  split; [vm_compute; reflexivity |].
  split; [vm_compute; reflexivity |].
  split; eexists; (split; [reflexivity | vm_compute; reflexivity]).
Qed.

(** ** Six teams, three courses, meeting once (C3) *)

Lemma binary_as_bool sol v :
  is_binary sol v → (sol v == if Qeq_bool (sol v) 1 then 1 else 0)%Q.
Proof.
  intros [H | H].
  - destruct (Qeq_bool (sol v) 1) eqn:E; [| done].
    apply Qeq_bool_iff in E. lra.
  - apply Qeq_bool_iff in H as E. by rewrite E.
Qed.

(** With two groups, the first-group indicators of two courses tell two
    teams apart. *)
Lemma two_groups_distinct_codes (x1 y1 u1 v1 x2 y2 u2 v2 : Q) :
  ((x1 == 0) ∨ (x1 == 1))%Q → ((u1 == 0) ∨ (u1 == 1))%Q →
  (x1 + y1 == 1)%Q → (u1 + v1 == 1)%Q →
  (x2 + y2 == 1)%Q → (u2 + v2 == 1)%Q →
  (x1 + x2 + u1 + u2 <= 3)%Q → (x1 + x2 + v1 + v2 <= 3)%Q →
  (y1 + y2 + u1 + u2 <= 3)%Q → (y1 + y2 + v1 + v2 <= 3)%Q →
  ¬ ((x1 == x2)%Q ∧ (u1 == u2)%Q).
Proof.
  intros [Hx | Hx] [Hu | Hu] ? ? ? ? ? ? ? ? [Ex Eu]; lra.
Qed.

(** Five values in a set of four: two are equal. *)
Lemma five_codes (k : nat → bool * bool) :
  ∃ a b, a < b < 5 ∧ k a = k b.
Proof.
  destruct (decide (k 0 = k 1)); [exists 0, 1; split; [lia | done] |].
  destruct (decide (k 0 = k 2)); [exists 0, 2; split; [lia | done] |].
  destruct (decide (k 0 = k 3)); [exists 0, 3; split; [lia | done] |].
  destruct (decide (k 0 = k 4)); [exists 0, 4; split; [lia | done] |].
  destruct (decide (k 1 = k 2)); [exists 1, 2; split; [lia | done] |].
  destruct (decide (k 1 = k 3)); [exists 1, 3; split; [lia | done] |].
  destruct (decide (k 1 = k 4)); [exists 1, 4; split; [lia | done] |].
  destruct (decide (k 2 = k 3)); [exists 2, 3; split; [lia | done] |].
  destruct (decide (k 2 = k 4)); [exists 2, 4; split; [lia | done] |].
  destruct (decide (k 3 = k 4)); [exists 3, 4; split; [lia | done] |].
  exfalso.
  destruct (k 0) as [[] []], (k 1) as [[] []], (k 2) as [[] []],
    (k 3) as [[] []], (k 4) as [[] []]; congruence.
Qed.

Lemma six_by_three_no_plan args data distance_matrix prob sol :
  length data = 6 → num_courses args = 3%Z → can_meet_again args = false →
  build_model args data distance_matrix = inr prob →
  ¬ feasible prob sol.
Proof.
  intros Hn HK Hoff Hbuild Hfeas.
  assert (EK : length (courses args) = 3)
    by (unfold courses; rewrite length_seq, HK; reflexivity).
  assert (EG : groups args data = [0; 1])
    by (unfold groups; rewrite EK, Hn; reflexivity).
  assert (En : length (teams data) = 6)
    by (unfold teams; by rewrite length_seq).
  assert (Hg0 : 0 ∈ groups args data) by (rewrite EG; left).
  assert (Hg1 : 1 ∈ groups args data) by (rewrite EG; right; left).
  assert (Hcover : ∀ t c, t < 6 → c < 3 →
            (sol (assignment t 0 c) + sol (assignment t 1 c) == 1)%Q).
  { intros t c Ht Hc.
    rewrite <- (team_in_one_group _ _ _ _ _ Hbuild Hfeas t c).
    - rewrite EG. simpl. ring.
    - apply elem_of_teams. lia.
    - apply elem_of_courses. lia. }
  assert (Hbin : ∀ t c, t < 6 → c < 3 → is_binary sol (assignment t 0 c)).
  { intros t c Ht Hc. apply (binary_assignment _ _ _ _ _ Hbuild Hfeas).
    - apply elem_of_teams. lia.
    - done.
    - apply elem_of_courses. lia. }
  destruct (five_codes (λ t, (Qeq_bool (sol (assignment t 0 0)) 1,
                             Qeq_bool (sol (assignment t 0 1)) 1)))
    as (a & b & Hab & Ecode).
  injection Ecode as E0 E1.
  assert (Ha0 := binary_as_bool _ _ (Hbin a 0 ltac:(lia) ltac:(lia))).
  assert (Ha1 := binary_as_bool _ _ (Hbin a 1 ltac:(lia) ltac:(lia))).
  assert (Hb0 := binary_as_bool _ _ (Hbin b 0 ltac:(lia) ltac:(lia))).
  assert (Hb1 := binary_as_bool _ _ (Hbin b 1 ltac:(lia) ltac:(lia))).
  rewrite <- E0 in Hb0. rewrite <- E1 in Hb1.
  apply (two_groups_distinct_codes
           (sol (assignment a 0 0)) (sol (assignment a 1 0))
           (sol (assignment a 0 1)) (sol (assignment a 1 1))
           (sol (assignment b 0 0)) (sol (assignment b 1 0))
           (sol (assignment b 0 1)) (sol (assignment b 1 1))).
  - apply Hbin; lia.
  - apply Hbin; lia.
  - apply Hcover; lia.
  - apply Hcover; lia.
  - apply Hcover; lia.
  - apply Hcover; lia.
  - apply (meet_once_ordered args data distance_matrix prob sol);
      try done; lia.
  - apply (meet_once_ordered args data distance_matrix prob sol);
      try done; lia.
  - apply (meet_once_ordered args data distance_matrix prob sol);
      try done; lia.
  - apply (meet_once_ordered args data distance_matrix prob sol);
      try done; lia.
  - split; [by rewrite Ha0, Hb0 | by rewrite Ha1, Hb1].
Qed.

(** C3 (as the model has it).  With six teams, three courses and the
    unique-meeting constraints, whatever the distances and the other
    options, the built model has no feasible solution: each course splits
    the teams in two groups of three, and two of five teams are then in the
    same group in the first course and in the same group in the second.  A
    solve of such a model cannot report an optimal plan. *)
Theorem six_teams_three_courses_infeasible args data distance_matrix prob :
  length data = 6 → num_courses args = 3%Z → can_meet_again args = false →
  build_model args data distance_matrix = inr prob →
  (∀ sol, ¬ feasible prob sol) ∧ (∀ sol, ¬ optimal prob sol).
Proof.
  intros Hn HK Hoff Hbuild. split.
  - intros sol. by eapply six_by_three_no_plan.
  - intros sol [Hfeas _]. by eapply six_by_three_no_plan.
Qed.

Lemma six_teams_three_courses_infeasible_witness :
  length sextet_data = 6
  ∧ num_courses sextet_args = 3%Z
  ∧ can_meet_again sextet_args = false
  ∧ build_model sextet_args sextet_data sextet_matrix = inr sextet_model
  ∧ (∀ sol, ¬ feasible sextet_model sol)
  ∧ (∀ sol, ¬ optimal sextet_model sol).
Proof.
  assert (Hb : build_model sextet_args sextet_data sextet_matrix
               = inr sextet_model) by (vm_compute; reflexivity).
  split; [reflexivity |]. split; [reflexivity |]. split; [reflexivity |].
  split; [exact Hb |].
  exact (six_teams_three_courses_infeasible sextet_args sextet_data
           sextet_matrix sextet_model eq_refl eq_refl eq_refl Hb).
Defined.

(** C3, as stated, fails: the run on six teams at ten minutes from each
    other, three courses, no afterparty, preferences and average distance
    ignored, reaches the solver, and its model has no optimal solution at
    all, so none with groups of three and a longest travel of 20 minutes. *)
Lemma sextet_has_no_optimal_plan :
  assemble_and_build (engine := motis_like ten_minutes) float_cell
    sextet_args (roster 6) = inr sextet_model
  ∧ (∀ i j c, i ∈ teams sextet_data → j ∈ teams sextet_data → i ≠ j →
       c ∈ courses sextet_args → sextet_matrix !!! Route i j c = 10%Z)
  ∧ terms (objective sextet_model) = [(1%Q, maxDuration)]
  ∧ ¬ ∃ sol,
        optimal sextet_model sol
        ∧ (∀ c g, c ∈ courses sextet_args →
             g ∈ groups sextet_args sextet_data →
             ∃ t, cook (decode_group sextet_data sol c g) = Some t
                  ∧ length (guests (decode_group sextet_data sol c g)) = 2)
        ∧ max_distance (team_distances sextet_args sextet_data sextet_matrix
                          sol) = 20%Z.
Proof.
  split; [vm_compute; reflexivity |].
  split.
  { intros i j c Hi Hj Hne Hc.
    apply elem_of_teams in Hi, Hj. apply elem_of_courses in Hc.
    change (length sextet_data) with 6 in Hi, Hj.
    change (length (courses sextet_args)) with 3 in Hc.
    destruct i as [| [| [| [| [| [| ?]]]]]]; try lia;
    destruct j as [| [| [| [| [| [| ?]]]]]]; try lia;
    destruct c as [| [| [| ?]]]; try lia; try done; vm_compute; reflexivity. }
  split; [vm_compute; reflexivity |].
  intros (sol & [Hfeas _] & _).
  eapply (six_by_three_no_plan sextet_args sextet_data sextet_matrix);
    [reflexivity | reflexivity | reflexivity | | exact Hfeas].
  vm_compute. reflexivity.
Qed.

(** ** The divisibility check (C7) *)

Lemma mapM_inr_length {A B} (f : A → pyresult B) (l : list A) (ys : list B) :
  mapM f l = inr ys → length ys = length l.
Proof.
  revert ys. induction l as [| x l IH]; intros ys H; simpl in H.
  - by injection H as <-.
  - apply bind_inr in H as (y & _ & H).
    apply bind_inr in H as (k & Hk & H).
    injection H as <-. simpl. by rewrite (IH _ Hk).
Qed.

Section Rejected.
Context {GeoPoint : Type} {engine : TravelTimeEngine GeoPoint}.
Context (float : string → pyresult Q) (args : Args) (file : csv_file).

Lemma read_data_length data :
  read_data float args file = inr data → length data = length (rows file).
Proof.
  unfold read_data. intros H. apply bind_inr in H as (? & _ & H).
  by apply mapM_inr_length in H.
Qed.

Lemma check_divisible_rejects data :
  ¬ (length (courses args) | length data) →
  check_divisible args data
  = inl (if decide (length (courses args) = 0) then ZeroDivisionError
         else SystemExit 1
                ["Error: The number of teams " +:+ pretty (length data)
                 +:+ " must be devisable by the number of courses "
                 +:+ pretty (length (courses args)) +:+ "!"]).
Proof.
  intros Hdiv. unfold check_divisible.
  destruct (decide (length (courses args) = 0)); [done |].
  rewrite decide_True; [done |]. by rewrite Nat.Lcm0.mod_divide.
Qed.

End Rejected.

(** C7.  When the number of teams in the file is not a multiple of the
    number of courses, the run stops with an error before geocoding, before
    the distances and before the model: when the file was read, with
    [exit(1)] after the message on the two numbers (with
    [ZeroDivisionError] when there is no course at all), and otherwise with
    the error of the reading.  No model is built and nothing is decoded. *)
Theorem indivisible_team_count_rejected {GeoPoint : Type}
    {engine : TravelTimeEngine GeoPoint} (float : string → pyresult Q)
    (args : Args) (file : csv_file) :
  ¬ (length (courses args) | length (rows file)) →
  ∃ e,
    assemble float args file = inl e
    ∧ assemble_and_build float args file = inl e
    ∧ (∀ data, read_data float args file = inr data →
         e = if decide (length (courses args) = 0) then ZeroDivisionError
             else SystemExit 1
                    ["Error: The number of teams " +:+ pretty (length data)
                     +:+ " must be devisable by the number of courses "
                     +:+ pretty (length (courses args)) +:+ "!"])
    ∧ (∀ e', read_data float args file = inl e' → e = e').
Proof.
  intros Hdiv. unfold assemble_and_build, assemble.
  destruct (read_data float args file) as [e | data] eqn:Hread.
  - exists e. repeat split; try done. by intros e' [= <-].
  - rewrite <- (read_data_length float args file data Hread) in Hdiv.
    eexists. simpl. rewrite (check_divisible_rejects args data Hdiv). simpl.
    repeat split; try done. by intros data' [= <-].
Qed.

Lemma indivisible_team_count_rejected_witness :
  ¬ (length (courses quartet_args) | length (rows (roster 5)))
  ∧ ∃ e,
      assemble (engine := motis_like ten_minutes) float_cell quartet_args
        (roster 5) = inl e
      ∧ assemble_and_build (engine := motis_like ten_minutes) float_cell
          quartet_args (roster 5) = inl e
      ∧ (∀ data, read_data float_cell quartet_args (roster 5) = inr data →
           e = if decide (length (courses quartet_args) = 0)
               then ZeroDivisionError
               else SystemExit 1
                      ["Error: The number of teams " +:+ pretty (length data)
                       +:+ " must be devisable by the number of courses "
                       +:+ pretty (length (courses quartet_args)) +:+ "!"])
      ∧ (∀ e', read_data float_cell quartet_args (roster 5) = inl e' →
           e = e').
Proof.
  assert (Hdiv : ¬ (length (courses quartet_args) | length (rows (roster 5)))).
  { rewrite <- Nat.Lcm0.mod_divide. vm_compute. lia. }
  split; [exact Hdiv |].
  exact (indivisible_team_count_rejected (engine := motis_like ten_minutes)
           float_cell quartet_args (roster 5) Hdiv).
Defined.

(** ** A route that cannot be resolved (C9) *)

(** The handler of the distance loop never reaches its [raise ex]. *)
Lemma route_pair_failure {GeoPoint : Type} {engine : TravelTimeEngine GeoPoint}
    (args : Args) (a b : nat * GeoPoint) (dm : gmap dkey Z) (c : nat)
    (time : Z) (ex : exn) :
  datetimes args c = inr time →
  route_between_points a.2 b.2 time = inl ex →
  is_Exception ex = true →
  route_pair args a b dm c
  = (geo_name a.2 ;; geo_name b.2 ;; raise (NameError "direct_distance")).
Proof.
  intros Ht Hr Hex. unfold route_pair. rewrite Ht. simpl. rewrite Hr. simpl.
  rewrite Hex. unfold route_failed, direct_distance.
  destruct (geo_name a.2); [done |]. simpl.
  by destruct (geo_name b.2).
Qed.

(** C9, on four teams when no route to the second address is found.  The
    engine raises its own failure; the handler of the distance loop then
    reads [name] on a point, which the points of the MOTIS engine do not
    have, and the undefined [direct_distance]: the run stops before the
    model is built and no distance is made up, but the exception that ends
    it is the handler's, not the failure of the engine. *)
Theorem route_failure_replaced_by_handler_error :
  route_between_points (TravelTimeEngine := motis_like (no_route_to "street 1"))
    "street 0" "street 1" 0%Z = inl (ProviderError "no connection")
  ∧ assemble (engine := motis_like (no_route_to "street 1")) float_cell
      quartet_args (roster 4) = inl (AttributeError "name")
  ∧ assemble_and_build (engine := motis_like (no_route_to "street 1"))
      float_cell quartet_args (roster 4) = inl (AttributeError "name")
  ∧ assemble (engine := hafas_like (no_route_to "street 1")) float_cell
      quartet_args (roster 4) = inl (NameError "direct_distance")
  ∧ assemble_and_build (engine := hafas_like (no_route_to "street 1"))
      float_cell quartet_args (roster 4) = inl (NameError "direct_distance").
Proof. repeat split; vm_compute; reflexivity. Qed.

(** ** The direction of the cook-incompatible pairs that is enforced *)

Lemma getitem_inr data d t g c v :
  getitem data d t g c = inr v →
  (0 ≤ t < Z.of_nat (length data))%Z ∧ v = d (Z.to_nat t) g c.
Proof.
  unfold getitem. destruct (decide _); [| discriminate].
  by intros [= <-].
Qed.

(** For [t1] before [t2] in [--cook-incompatible], team [t1] is in no
    group that team [t2] cooks for. *)
Lemma cook_incompatible_enforced args data distance_matrix prob sol t1 t2 g c :
  build_model args data distance_matrix = inr prob →
  feasible prob sol →
  (t1, t2) ∈ combinations2 (cook_incompatible args) →
  g ∈ groups args data → c ∈ courses args →
  (0 ≤ t1 < Z.of_nat (length data))%Z
  ∧ (0 ≤ t2 < Z.of_nat (length data))%Z
  ∧ (sol (assignment (Z.to_nat t1) g c) + sol (chef (Z.to_nat t2) g c) <= 1)%Q.
Proof.
  intros Hbuild Hfeas Hpair Hg Hc.
  destruct (build_model_inr _ _ _ _ Hbuild) as (ci & Hci & E & _).
  unfold cook_incompatible_constraints in Hci.
  apply fmap_inr in Hci as (L1 & HL1 & ->).
  destruct (mapM_inr_elem _ _ _ _ HL1 Hpair) as (y & Hy & Hy1).
  apply fmap_inr in Hy as (L2 & HL2 & ->).
  destruct (mapM_inr_elem _ _ _ _ HL2 Hc) as (z & Hz & Hz2).
  destruct (mapM_inr_elem _ _ _ _ Hz Hg) as (k & Hk & Hkz).
  apply bind_inr in Hk as (a & Ha & Hk).
  apply bind_inr in Hk as (ch & Hch & Hk).
  injection Hk as <-.
  apply getitem_inr in Ha as [Ht1 ->]. apply getitem_inr in Hch as [Ht2 ->].
  split; [done |]. split; [done |].
  assert (Hin : LpLE (var (assignment (Z.to_nat t1) g c))
                     {| terms := [((-1)%Q, chef (Z.to_nat t2) g c)];
                        constant := 1 |} ∈ constraints prob).
  { rewrite E, !elem_of_app. do 3 right. left.
    apply list_elem_of_join. exists (mjoin L2). split; [| done].
    apply list_elem_of_join. by exists z. }
  apply Hfeas in Hin. unfold holds, value, sumQ in Hin. cbn in Hin. lra.
Qed.

(** ** The cook of a group in a feasible solution *)

Lemma filter_iff_on {A} (P1 P2 : A → Prop) `{∀ x, Decision (P1 x)}
    `{∀ x, Decision (P2 x)} (l : list A) :
  (∀ x, x ∈ l → P1 x ↔ P2 x) → filter P1 l = filter P2 l.
Proof.
  induction l as [| x l IH]; intros Hiff; [done |].
  rewrite !filter_cons, IH by (intros y Hy; apply Hiff; by right).
  destruct (decide (P1 x)) as [H1 | H1], (decide (P2 x)) as [H2 | H2];
    try done; exfalso; apply (Hiff x) in H1 || apply (Hiff x) in H2;
    try done; left.
Qed.

(** One team of every group carries the chef indicator, so the group view
    always finds a cook. *)
Lemma roster_has_one_cook args data distance_matrix prob sol c g :
  build_model args data distance_matrix = inr prob →
  feasible prob sol →
  c ∈ courses args → g ∈ groups args data →
  ∃ t, chef_indicators data sol c g = [t]
       ∧ cook (decode_group data sol c g) = Some t.
Proof.
  intros Hbuild Hfeas Hc Hg.
  assert (Hone : (sumQ (λ t, sol (chef t g c)) (teams data) == 1)%Q).
  { assert (Hk : holds sol
      (LpEQ (lpSum (t ← teams data; [(1%Q, chef t g c)])) (num 1))).
    { apply (holds_routing _ _ _ _ _ Hbuild Hfeas).
      unfold constraints_routing. rewrite !elem_of_app. left.
      unfold one_chef_per_group. in_bind g. in_bind c. left. }
    simpl in Hk. rewrite value_lpSum, value_num, sumQ_bind1 in Hk.
    rewrite <- Hk. apply sumQ_ext. intros t _. simpl. ring. }
  assert (Hsame : chef_indicators data sol c g
                  = filter (λ t, Qeq_bool (sol (chef t g c)) 1 = true)
                           (teams data)).
  { unfold chef_indicators. apply filter_iff_on.
    intros t Ht. split; [by intros [_ ?] |].
    intros H1. split; [| done]. apply Qeq_bool_iff.
    apply binary_pos_one;
      [by apply (binary_assignment _ _ _ _ _ Hbuild Hfeas) |].
    assert (Hk : holds sol (LpLE (var (chef t g c)) (var (assignment t g c)))).
    { apply (holds_routing _ _ _ _ _ Hbuild Hfeas).
      unfold constraints_routing. rewrite !elem_of_app. do 2 right. left.
      unfold chef_if_assigned. in_bind t. in_bind g. in_bind c. left. }
    simpl in Hk. rewrite !value_var in Hk.
    apply Qeq_bool_iff in H1. lra. }
  assert (Hlen : length (chef_indicators data sol c g) = 1).
  { assert (E : (inject_Z (Z.of_nat (length (chef_indicators data sol c g)))
                 == 1)%Q).
    { rewrite Hsame, (sumQ_count (λ t, sol (chef t g c))); [done |].
      intros t Ht. by apply (binary_chef _ _ _ _ _ Hbuild Hfeas). }
    destruct (length (chef_indicators data sol c g)) as [| [| n]];
      [| done |]; unfold Qeq in E; simpl in E; lia. }
  destruct (chef_indicators data sol c g) as [| t [| ? ?]] eqn:E;
    try discriminate.
  exists t. split; [done |].
  unfold decode_group. rewrite visit_members. simpl.
  fold (chef_indicators data sol c g). by rewrite E.
Qed.

(** ** The assembled distance matrix has every key the builder reads *)

Lemma for_each_invariant {A S} (f : S → A → pyresult S) (P : S → Prop)
    (l : list A) (s s' : S) :
  (∀ s x s', x ∈ l → P s → f s x = inr s' → P s') →
  P s → for_each f l s = inr s' → P s'.
Proof.
  revert s. induction l as [| x l IH]; intros s Hstep Hs H; simpl in H.
  - by injection H as <-.
  - apply bind_inr in H as (s1 & H1 & H).
    apply (IH s1); [| | done].
    + intros s2 y s3 Hy. apply Hstep. by right.
    + apply (Hstep s x); [left | done | done].
Qed.

(** What a step establishes for its element stays when the later steps
    keep it. *)
Lemma for_each_establishes {A S} (f : S → A → pyresult S) (Q : A → S → Prop)
    (l : list A) (s s' : S) :
  (∀ s x s', x ∈ l → f s x = inr s' → Q x s') →
  (∀ s x y s', y ∈ l → Q x s → f s y = inr s' → Q x s') →
  for_each f l s = inr s' → ∀ x, x ∈ l → Q x s'.
Proof.
  revert s. induction l as [| y l IH]; intros s Hdo Hkeep H x Hx;
    [by apply elem_of_nil in Hx |].
  simpl in H. apply bind_inr in H as (s1 & H1 & H).
  apply elem_of_cons in Hx as [-> | Hx].
  - apply (for_each_invariant f (Q y) l s1 s'); [| | done].
    + intros s2 z s3 Hz. apply Hkeep. by right.
    + apply (Hdo s); [left | done].
  - apply (IH s1); [| | done | done].
    + intros s2 z s3 Hz. apply Hdo. by right.
    + intros s2 z w s3 Hw. apply Hkeep. by right.
Qed.

Lemma elem_of_combinations2 {A} (l : list A) (i j : nat) (x y : A) :
  l !! i = Some x → l !! j = Some y → i < j → (x, y) ∈ combinations2 l.
Proof.
  revert i j. induction l as [| z l IH]; intros i j Hi Hj Hlt; [done |].
  simpl. apply elem_of_app. destruct i as [| i].
  - injection Hi as ->. left. destruct j as [| j]; [lia |].
    apply list_elem_of_fmap. exists y. split; [done |].
    apply list_elem_of_lookup. by exists j.
  - destruct j as [| j]; [lia |]. right. apply (IH i j); [done | done | lia].
Qed.

Lemma elem_of_permutations2 {A} (l : list A) (i j : nat) (x y : A) :
  l !! i = Some x → l !! j = Some y → i ≠ j → (x, y) ∈ permutations2 l.
Proof.
  intros Hi Hj Hne. unfold permutations2.
  apply list_elem_of_bind. exists (i, x). split;
    [| by apply (elem_of_lookup_imap_2 pair)].
  apply list_elem_of_bind. exists (j, y). split;
    [| by apply (elem_of_lookup_imap_2 pair)].
  simpl. rewrite decide_True by done. left.
Qed.

Section Complete.
Context {GeoPoint : Type} {engine : TravelTimeEngine GeoPoint}.
Context (args : Args).

Lemma route_pair_keys a b dm c dm' :
  route_pair args a b dm c = inr dm' →
  keeps dm dm'
  ∧ is_Some (dm' !! Route a.1 b.1 c)
  ∧ (asymetric_distances args = false → is_Some (dm' !! Route b.1 a.1 c)).
Proof.
  unfold route_pair. intros H.
  destruct (datetimes args c) as [e | time]; simpl in H.
  { destruct (is_Exception e); [| discriminate].
    unfold route_failed, direct_distance in H.
    destruct (geo_name a.2); [discriminate |]. simpl in H.
    by destruct (geo_name b.2). }
  destruct (route_between_points a.2 b.2 time) as [e | rt]; simpl in H.
  { destruct (is_Exception e); [| discriminate].
    unfold route_failed, direct_distance in H.
    destruct (geo_name a.2); [discriminate |]. simpl in H.
    by destruct (geo_name b.2). }
  injection H as <-.
  destruct (asymetric_distances args); repeat split; try done.
  - intros k Hk. apply lookup_insert_is_Some'. by right.
  - apply lookup_insert_is_Some'. by left.
  - intros k Hk. do 2 (apply lookup_insert_is_Some'; right). done.
  - apply lookup_insert_is_Some'. right. apply lookup_insert_is_Some'. by left.
  - intros _. apply lookup_insert_is_Some'. by left.
Qed.

Lemma route_courses_keys a b dm dm' :
  for_each (route_pair args a b) (courses args) dm = inr dm' →
  keeps dm dm'
  ∧ ∀ c, c ∈ courses args →
      is_Some (dm' !! Route a.1 b.1 c)
      ∧ (asymetric_distances args = false → is_Some (dm' !! Route b.1 a.1 c)).
Proof.
  intros H. split.
  - apply (for_each_invariant (route_pair args a b) (keeps dm)
             (courses args) dm dm'); [| by intros ? ? | done].
    intros s c s' _ Hs Hstep k Hk.
    by apply (route_pair_keys _ _ _ _ _ Hstep), Hs.
  - apply (for_each_establishes (route_pair args a b)
             (λ c s, is_Some (s !! Route a.1 b.1 c)
                     ∧ (asymetric_distances args = false →
                        is_Some (s !! Route b.1 a.1 c)))
             (courses args) dm dm'); [| | done].
    + intros s c s' _ Hstep. by apply (route_pair_keys _ _ _ _ _ Hstep).
    + intros s c y s' _ [H1 H2] Hstep.
      destruct (route_pair_keys _ _ _ _ _ Hstep) as [Hkeep _]. split.
      * by apply Hkeep.
      * intros Hs. by apply Hkeep, H2.
Qed.

Lemma route_pairs_keys geos dm i j c :
  route_pairs args geos = inr dm →
  i < length geos → j < length geos → i ≠ j → c ∈ courses args →
  is_Some (dm !! Route i j c).
Proof.
  intros H Hi Hj Hne Hc. unfold route_pairs in H.
  destruct (lookup_lt_is_Some_2 geos i Hi) as [gi Egi].
  destruct (lookup_lt_is_Some_2 geos j Hj) as [gj Egj].
  assert (Ei : imap pair geos !! i = Some (i, gi))
    by (by rewrite list_lookup_imap, Egi).
  assert (Ej : imap pair geos !! j = Some (j, gj))
    by (by rewrite list_lookup_imap, Egj).
  set (pairs := (if asymetric_distances args then permutations2
                 else combinations2) (imap pair geos)) in H.
  pose (Q := λ (p : (nat * GeoPoint) * (nat * GeoPoint)) (s : gmap dkey Z),
          ∀ c, c ∈ courses args →
            is_Some (s !! Route p.1.1 p.2.1 c)
            ∧ (asymetric_distances args = false →
               is_Some (s !! Route p.2.1 p.1.1 c))).
  assert (HQ : ∀ p, p ∈ pairs → Q p dm).
  { apply (for_each_establishes
             (λ dm '(a, b), for_each (route_pair args a b) (courses args) dm)
             Q pairs ∅ dm); [| | done].
    - intros s [a b] s' _ Hstep.
      by destruct (route_courses_keys a b s s' Hstep) as [_ ?].
    - intros s p [a b] s' _ Hp Hstep c' Hc'.
      destruct (route_courses_keys a b s s' Hstep) as [Hkeep _].
      destruct (Hp c' Hc') as [H1 H2]. split.
      + by apply Hkeep.
      + intros Hs. by apply Hkeep, H2. }
  unfold pairs in HQ. destruct (asymetric_distances args) eqn:Easym.
  - apply (HQ ((i, gi), (j, gj))); [| done].
    by apply (elem_of_permutations2 _ i j).
  - destruct (decide (i < j)).
    + apply (HQ ((i, gi), (j, gj))); [| done].
      by apply (elem_of_combinations2 _ i j).
    + apply (HQ ((j, gj), (i, gi))); [| done | done].
      apply (elem_of_combinations2 _ j i); [done | done | lia].
Qed.

Lemma foldl_insert_zero (t : nat) (cs : list nat) (dm : gmap dkey Z) :
  keeps dm (foldl (λ m c, <[Route t t c := 0%Z]> m) dm cs)
  ∧ (∀ c, c ∈ cs →
       foldl (λ m c, <[Route t t c := 0%Z]> m) dm cs !! Route t t c = Some 0%Z)
  ∧ (∀ k, dm !! k = Some 0%Z →
       foldl (λ m c, <[Route t t c := 0%Z]> m) dm cs !! k = Some 0%Z).
Proof.
  revert dm. induction cs as [| c cs IH]; intros dm; simpl.
  - split; [by intros ? ? |].
    split; [intros c Hc; by apply elem_of_nil in Hc | done].
  - destruct (IH (<[Route t t c := 0%Z]> dm)) as (Hk & Hz & Hp).
    assert (Hins : ∀ k, dm !! k = Some 0%Z →
              <[Route t t c := 0%Z]> dm !! k = Some 0%Z).
    { intros k Hk0. destruct (decide (Route t t c = k)) as [<- | Hne].
      - apply lookup_insert_eq.
      - by rewrite lookup_insert_ne. }
    split; [| split].
    + intros k Hk0. apply Hk, lookup_insert_is_Some'. by right.
    + intros c' [-> | Hc']%elem_of_cons; [| by apply Hz].
      apply Hp, lookup_insert_eq.
    + intros k Hk0. by apply Hp, Hins.
Qed.

Lemma route_afterparty_keys geos ap dm dm' :
  route_afterparty args geos ap dm = inr dm' →
  keeps dm dm'
  ∧ ∀ t, t < length geos →
      is_Some (dm' !! Afterparty t)
      ∧ ∀ c, c ∈ courses args → dm' !! Route t t c = Some 0%Z.
Proof.
  intros H. unfold route_afterparty in H.
  set (step := λ (dm : gmap dkey Z) '(t, geo),
      let dm1 := foldl (λ m c, <[Route t t c := 0%Z]> m) dm (courses args) in
      d ← match ap with
          | Some ap =>
              route_between_points geo ap
                (default (datetime_1 args) (datetime_afterparty args))
          | None => mret 0%Z
          end;
      mret (<[Afterparty t := d]> dm1)) in H.
  assert (Hstep : ∀ s t geo s', step s (t, geo) = inr s' →
            keeps s s'
            ∧ is_Some (s' !! Afterparty t)
            ∧ (∀ c, c ∈ courses args → s' !! Route t t c = Some 0%Z)
            ∧ (∀ t' c, s !! Route t' t' c = Some 0%Z →
                 s' !! Route t' t' c = Some 0%Z)).
  { intros s t geo s' Hs. unfold step in Hs.
    apply bind_inr in Hs as (d & _ & Hs). injection Hs as <-.
    destruct (foldl_insert_zero t (courses args) s) as (Hk & Hz & Hp).
    split; [| split; [| split]].
    - intros k Hk0. apply lookup_insert_is_Some'. right. by apply Hk.
    - apply lookup_insert_is_Some'. by left.
    - intros c Hc. rewrite lookup_insert_ne by done. by apply Hz.
    - intros t' c H0. rewrite lookup_insert_ne by done. by apply Hp. }
  split.
  - apply (for_each_invariant step (keeps dm) (imap pair geos) dm dm');
      [| by intros ? ? | done].
    intros s [t geo] s' _ Hs Hs' k Hk.
    by apply (Hstep _ _ _ _ Hs'), Hs.
  - intros t Ht.
    destruct (lookup_lt_is_Some_2 geos t Ht) as [geo Egeo].
    apply (for_each_establishes step
             (λ p s, is_Some (s !! Afterparty p.1)
                     ∧ ∀ c, c ∈ courses args →
                         s !! Route p.1 p.1 c = Some 0%Z)
             (imap pair geos) dm dm' ) with (x := (t, geo)); [| | done |].
    + intros s [t' geo'] s' _ Hs.
      by destruct (Hstep _ _ _ _ Hs) as (_ & ? & ? & _).
    + intros s [t1 g1] [t2 g2] s' _ [H1 H2] Hs.
      destruct (Hstep _ _ _ _ Hs) as (Hk & _ & _ & Hp). split.
      * by apply Hk.
      * intros c Hc. by apply Hp, H2.
    + by apply (elem_of_lookup_imap_2 pair).
Qed.

End Complete.

(** Every key the builder and the decoder read is defined by a run that
    reaches the model, and a team is at no distance from itself. *)
Lemma assembled_matrix_complete {GeoPoint : Type}
    {engine : TravelTimeEngine GeoPoint} (float : string → pyresult Q)
    (args : Args) (file : csv_file) (data : list team) (dm : gmap dkey Z) :
  assemble float args file = inr (data, dm) →
  ∀ i j c, i ∈ teams data → j ∈ teams data → c ∈ courses args →
    is_Some (dm !! Route i j c)
    ∧ dm !! Route i i c = Some 0%Z
    ∧ is_Some (dm !! Afterparty i).
Proof.
  unfold assemble. intros H i j c Hi Hj Hc.
  apply bind_inr in H as (data' & _ & H).
  apply bind_inr in H as (? & _ & H).
  apply bind_inr in H as (geos & Hgeo & H).
  apply bind_inr in H as (ap & _ & H).
  apply bind_inr in H as (dm1 & H1 & H).
  apply bind_inr in H as (dm2 & H2 & H).
  injection H as -> ->.
  apply mapM_inr_length in Hgeo.
  apply elem_of_teams in Hi, Hj. rewrite <- Hgeo in Hi, Hj.
  destruct (route_afterparty_keys args geos ap dm1 dm H2) as [Hkeep Hself].
  destruct (Hself i Hi) as [Hap Hzero].
  split; [| split; [by apply Hzero | done]].
  destruct (decide (i = j)) as [<- | Hne].
  - rewrite (Hzero c Hc). by eexists.
  - apply Hkeep. by apply (route_pairs_keys args geos dm1 i j c).
Qed.

(** * Further properties of the model and of the decoder *)

(** ** Cooks, groups and the cook-incompatible list *)

Section Plan.
Context (args : Args) (data : list team) (distance_matrix : gmap dkey Z).
Context (prob : LpProblem) (sol : solution).
Hypothesis Hbuild : build_model args data distance_matrix = inr prob.
Hypothesis Hfeas : feasible prob sol.

Abbreviation courses := (courses args).
Abbreviation teams := (teams data).
Abbreviation groups := (groups args data).

Lemma chef_le_assignment t g c :
  t ∈ teams → g ∈ groups → c ∈ courses →
  (sol (chef t g c) <= sol (assignment t g c))%Q.
Proof.
  intros Ht Hg Hc.
  assert (Hk : holds sol (LpLE (var (chef t g c)) (var (assignment t g c)))).
  { apply (holds_routing _ _ _ _ _ Hbuild Hfeas).
    unfold constraints_routing. rewrite !elem_of_app. do 2 right. left.
    unfold chef_if_assigned. in_bind t. in_bind g. in_bind c. left. }
  simpl in Hk. by rewrite !value_var in Hk.
Qed.

Lemma chef_exactly_once t :
  t ∈ teams →
  (sumQ (λ g, sumQ (λ c, sol (chef t g c)) courses) groups == 1)%Q.
Proof.
  intros Ht.
  assert (Hk : holds sol
    (LpEQ (lpSum (g ← groups; c ← courses; [(1%Q, chef t g c)])) (num 1))).
  { apply (holds_routing _ _ _ _ _ Hbuild Hfeas).
    unfold constraints_routing. rewrite !elem_of_app. right. left.
    unfold chef_once. in_bind t. left. }
  simpl in Hk. rewrite value_lpSum, value_num, sumQ_bind in Hk.
  rewrite <- Hk. apply sumQ_ext. intros g _.
  rewrite sumQ_bind1. apply sumQ_ext. intros c _. simpl. ring.
Qed.

Lemma group_size_holds g c :
  g ∈ groups → c ∈ courses →
  (sumQ (λ t, sol (assignment t g c)) teams
   == inject_Z (Z.of_nat (length courses)))%Q.
Proof.
  intros Hg Hc.
  assert (Hk : holds sol
    (LpEQ (lpSum (t ← teams; [(1%Q, assignment t g c)]))
          (num (Z.of_nat (length courses))))).
  { apply (holds_before_no_chef _ _ _ _ _ Hbuild Hfeas).
    unfold constraints_before_no_chef. rewrite !elem_of_app. right. left.
    unfold group_size. in_bind g. in_bind c. left. }
  simpl in Hk. rewrite value_lpSum, value_num, sumQ_bind1 in Hk.
  rewrite <- Hk. apply sumQ_ext. intros t _. simpl. ring.
Qed.

End Plan.

Lemma filter_split_length {A} (P Q : A → Prop) `{∀ x, Decision (P x)}
    `{∀ x, Decision (Q x)} (l : list A) :
  length (filter P l)
  = length (filter (λ x, P x ∧ Q x) l) + length (filter (λ x, P x ∧ ¬ Q x) l).
Proof.
  induction l as [| x l IH]; [done |].
  rewrite !filter_cons.
  destruct (decide (P x)) as [HP | HP], (decide (Q x)) as [HQ | HQ].
  - rewrite decide_True, decide_False by tauto. simpl. lia.
  - rewrite decide_False, decide_True by tauto. simpl. lia.
  - rewrite !decide_False by tauto. done.
  - rewrite !decide_False by tauto. done.
Qed.

Lemma inject_nat_eq (n m : nat) :
  (inject_Z (Z.of_nat n) == inject_Z (Z.of_nat m))%Q → n = m.
Proof. unfold Qeq. simpl. lia. Qed.

(** X1.  In a feasible solution of a built model every group of every
    course is decoded to one cook, who carries the chef indicator and is
    assigned to the group, and as many guests as there are courses minus
    one; cook and guests together are exactly the teams assigned to the
    group. *)
Theorem decoded_group_is_cook_and_guests args data distance_matrix prob sol
    c g :
  build_model args data distance_matrix = inr prob →
  feasible prob sol →
  c ∈ courses args → g ∈ groups args data →
  ∃ t,
    cook (decode_group data sol c g) = Some t
    ∧ t ∈ teams data
    ∧ (sol (chef t g c) == 1)%Q
    ∧ (sol (assignment t g c) == 1)%Q
    ∧ length (guests (decode_group data sol c g)) = length (courses args) - 1
    ∧ (t ∉ guests (decode_group data sol c g))
    ∧ ∀ u, u ∈ t :: guests (decode_group data sol c g) ↔
           u ∈ teams data ∧ (sol (assignment u g c) == 1)%Q.
Proof.
  intros Hbuild Hfeas Hc Hg.
  destruct (roster_has_one_cook _ _ _ _ _ c g Hbuild Hfeas Hc Hg)
    as (t & Eind & Ecook).
  assert (Hin : t ∈ chef_indicators data sol c g) by (rewrite Eind; left).
  unfold chef_indicators in Hin. apply list_elem_of_filter in Hin
    as [[Ha Hch] Ht].
  apply Qeq_bool_iff in Ha, Hch.
  assert (Eguests : guests (decode_group data sol c g)
            = filter (λ u, is_one sol (assignment u g c) = true
                           ∧ ¬ is_one sol (chef u g c) = true) (teams data)).
  { unfold decode_group. by rewrite visit_members. }
  assert (Hlen : length (filter (λ u, is_one sol (assignment u g c) = true)
                           (teams data)) = length (courses args)).
  { apply inject_nat_eq.
    rewrite <- (group_size_holds _ _ _ _ _ Hbuild Hfeas g c Hg Hc).
    apply (sumQ_count (λ u, sol (assignment u g c))).
    intros u Hu. by apply (binary_assignment _ _ _ _ _ Hbuild Hfeas). }
  rewrite (filter_split_length _ (λ u, is_one sol (chef u g c) = true)) in Hlen.
  fold (chef_indicators data sol c g) in Hlen. rewrite Eind in Hlen.
  exists t. split; [done |]. split; [done |]. split; [done |].
  split; [done |]. split; [rewrite Eguests; simpl in Hlen; lia |].
  split.
  - rewrite Eguests. intros [[_ Hn] _]%list_elem_of_filter.
    apply Hn. by apply Qeq_bool_iff.
  - intros u. rewrite elem_of_cons, Eguests, list_elem_of_filter. split.
    + intros [-> | [[Hu _] Hin]]; [done |].
      split; [done | by apply Qeq_bool_iff].
    + intros [Hu Hau].
      destruct (decide (is_one sol (chef u g c) = true)) as [Hcu | Hcu].
      * left.
        assert (Hu' : u ∈ chef_indicators data sol c g).
        { apply list_elem_of_filter. split; [| done].
          split; [by apply Qeq_bool_iff | done]. }
        rewrite Eind in Hu'. by apply list_elem_of_singleton in Hu'.
      * right. split; [| done]. split; [by apply Qeq_bool_iff | done].
Qed.

Lemma decoded_group_is_cook_and_guests_witness :
  build_model quartet_args quartet_data quartet_matrix = inr quartet_model
  ∧ feasible quartet_model quartet_solution
  ∧ 1 ∈ courses quartet_args
  ∧ 0 ∈ groups quartet_args quartet_data
  ∧ ∃ t,
      cook (decode_group quartet_data quartet_solution 1 0) = Some t
      ∧ t ∈ teams quartet_data
      ∧ (quartet_solution (chef t 0 1) == 1)%Q
      ∧ (quartet_solution (assignment t 0 1) == 1)%Q
      ∧ length (guests (decode_group quartet_data quartet_solution 1 0))
        = length (courses quartet_args) - 1
      ∧ (t ∉ guests (decode_group quartet_data quartet_solution 1 0))
      ∧ ∀ u, u ∈ t :: guests (decode_group quartet_data quartet_solution 1 0)
             ↔ u ∈ teams quartet_data
               ∧ (quartet_solution (assignment u 0 1) == 1)%Q.
Proof.
  assert (Hb : build_model quartet_args quartet_data quartet_matrix
               = inr quartet_model) by (vm_compute; reflexivity).
  assert (Hf : feasible quartet_model quartet_solution)
    by (apply feasibleb_feasible; vm_compute; reflexivity).
  assert (Hc : 1 ∈ courses quartet_args)
    by (apply elem_of_courses; vm_compute; lia).
  assert (Hg : 0 ∈ groups quartet_args quartet_data)
    by (apply (bool_decide_unpack _); vm_compute; exact I).
  split; [exact Hb |]. split; [exact Hf |]. split; [exact Hc |].
  split; [exact Hg |].
  exact (decoded_group_is_cook_and_guests quartet_args quartet_data
           quartet_matrix quartet_model quartet_solution 1 0 Hb Hf Hc Hg).
Defined.

(** X2.  For [t1] listed before [t2] in --cook-incompatible, a built model
    has both team numbers in the file and, in a feasible solution, team
    [t1] is in no group that team [t2] cooks for. *)
Theorem cook_incompatible_earlier_avoids_later args data distance_matrix prob
    sol t1 t2 g c :
  build_model args data distance_matrix = inr prob →
  feasible prob sol →
  (t1, t2) ∈ combinations2 (cook_incompatible args) →
  g ∈ groups args data → c ∈ courses args →
  (0 ≤ t1 < Z.of_nat (length data))%Z
  ∧ (0 ≤ t2 < Z.of_nat (length data))%Z
  ∧ ((sol (chef (Z.to_nat t2) g c) == 1)%Q →
     (sol (assignment (Z.to_nat t1) g c) == 0)%Q).
Proof.
  intros Hbuild Hfeas Hpair Hg Hc.
  destruct (cook_incompatible_enforced _ _ _ _ _ _ _ _ _ Hbuild Hfeas Hpair
              Hg Hc) as (H1 & H2 & Hle).
  split; [done |]. split; [done |]. intros Hch.
  destruct (binary_assignment _ _ _ _ _ Hbuild Hfeas (Z.to_nat t1) g c)
    as [H0 | H0]; [apply elem_of_teams; lia | done | done | done | lra].
Qed.

Lemma cook_incompatible_earlier_avoids_later_witness :
  build_model quartet_args quartet_data quartet_matrix = inr quartet_model
  ∧ feasible quartet_model quartet_solution
  ∧ (0%Z, 1%Z) ∈ combinations2 (cook_incompatible quartet_args)
  ∧ 1 ∈ groups quartet_args quartet_data
  ∧ 1 ∈ courses quartet_args
  ∧ ((quartet_solution (chef (Z.to_nat 1) 1 1) == 1)%Q →
     (quartet_solution (assignment (Z.to_nat 0) 1 1) == 0)%Q).
Proof.
  assert (Hb : build_model quartet_args quartet_data quartet_matrix
               = inr quartet_model) by (vm_compute; reflexivity).
  assert (Hf : feasible quartet_model quartet_solution)
    by (apply feasibleb_feasible; vm_compute; reflexivity).
  assert (Hp : (0%Z, 1%Z) ∈ combinations2 (cook_incompatible quartet_args))
    by (apply (bool_decide_unpack _); vm_compute; exact I).
  assert (Hg : 1 ∈ groups quartet_args quartet_data)
    by (apply (bool_decide_unpack _); vm_compute; exact I).
  assert (Hc : 1 ∈ courses quartet_args)
    by (apply elem_of_courses; vm_compute; lia).
  split; [exact Hb |]. split; [exact Hf |]. split; [exact Hp |].
  split; [exact Hg |]. split; [exact Hc |].
  exact (proj2 (proj2 (cook_incompatible_earlier_avoids_later quartet_args
           quartet_data quartet_matrix quartet_model quartet_solution
           0%Z 1%Z 1 1 Hb Hf Hp Hg Hc))).
Defined.

(** X3.  A team number that occurs twice in --cook-incompatible is paired
    with itself: the team may then be in no group it cooks for, it cannot
    cook at all, and the built model has no feasible solution. *)
Theorem cook_incompatible_twice_infeasible args data distance_matrix prob t :
  build_model args data distance_matrix = inr prob →
  (t, t) ∈ combinations2 (cook_incompatible args) →
  ∀ sol, ¬ feasible prob sol.
Proof.
  intros Hbuild Hpair sol Hfeas.
  assert (Hzero : ∀ g c, g ∈ groups args data → c ∈ courses args →
            (sol (chef (Z.to_nat t) g c) == 0)%Q).
  { intros g c Hg Hc.
    destruct (cook_incompatible_enforced _ _ _ _ _ _ _ _ _ Hbuild Hfeas Hpair
                Hg Hc) as (Ht & _ & Hle).
    assert (Htn : Z.to_nat t ∈ teams data) by (apply elem_of_teams; lia).
    pose proof (chef_le_assignment _ _ _ _ _ Hbuild Hfeas _ g c Htn Hg Hc).
    destruct (binary_chef _ _ _ _ _ Hbuild Hfeas (Z.to_nat t) g c Htn Hg Hc);
      [done | lra]. }
  destruct (build_model_inr _ _ _ _ Hbuild) as (_ & _ & _ & _ & _ & HK & Hn).
  assert (Htn : Z.to_nat t ∈ teams data).
  { assert (Hg : 0 ∈ groups args data).
    { unfold groups. apply elem_of_seq. split; [lia |]. simpl.
      destruct (length data `div` length (courses args)) eqn:E; [| lia].
      exfalso.
      pose proof (chef_exactly_once _ _ _ _ _ Hbuild Hfeas 0) as H1.
      unfold groups in H1. rewrite E in H1. simpl in H1.
      assert (0 ∈ teams data) by (apply elem_of_teams; lia).
      specialize (H1 H). lra. }
    assert (Hc : 0 ∈ courses args) by (apply elem_of_courses; lia).
    destruct (cook_incompatible_enforced _ _ _ _ _ _ _ _ _ Hbuild Hfeas Hpair
                Hg Hc) as (Ht & _).
    apply elem_of_teams. lia. }
  pose proof (chef_exactly_once _ _ _ _ _ Hbuild Hfeas _ Htn) as Hone.
  rewrite (sumQ_ext _ (λ _, 0%Q)) in Hone.
  - rewrite sumQ_zero in Hone. lra.
  - intros g Hg. rewrite (sumQ_ext _ (λ _, 0%Q)); [apply sumQ_zero |].
    intros c Hc. by apply Hzero.
Qed.

Lemma cook_incompatible_twice_infeasible_witness :
  build_model quartet_twice_args quartet_data quartet_matrix
  = inr (built (build_model quartet_twice_args quartet_data quartet_matrix))
  ∧ (0%Z, 0%Z) ∈ combinations2 (cook_incompatible quartet_twice_args)
  ∧ ∀ sol,
      ¬ feasible (built (build_model quartet_twice_args quartet_data
                           quartet_matrix)) sol.
Proof.
  assert (Hb : build_model quartet_twice_args quartet_data quartet_matrix
    = inr (built (build_model quartet_twice_args quartet_data quartet_matrix)))
    by (vm_compute; reflexivity).
  assert (Hp : (0%Z, 0%Z) ∈ combinations2 (cook_incompatible quartet_twice_args))
    by (apply (bool_decide_unpack _); vm_compute; exact I).
  split; [exact Hb |]. split; [exact Hp |].
  exact (cook_incompatible_twice_infeasible quartet_twice_args quartet_data
           quartet_matrix _ 0%Z Hb Hp).
Defined.

(** ** Places and durations of the decoded legs *)

Lemma sumQ_filter {A} (f : A → Q) (P : A → Prop) `{∀ x, Decision (P x)}
    (l : list A) :
  (∀ x, x ∈ l → ¬ P x → (f x == 0)%Q) →
  (sumQ f (filter P l) == sumQ f l)%Q.
Proof.
  induction l as [| x l IH]; intros H0; [reflexivity |].
  rewrite filter_cons.
  assert (IH' := IH (λ y Hy, H0 y (list_elem_of_further _ _ _ Hy))).
  destruct (decide (P x)) as [HP | HP]; simpl.
  - by rewrite IH'.
  - rewrite IH', (H0 x) by (done || left). ring.
Qed.

Lemma sumQ_two_le {A} (f : A → Q) (l : list A) (x y : A) :
  NoDup l → (∀ z, z ∈ l → (0 <= f z)%Q) →
  x ∈ l → y ∈ l → x ≠ y → (f x + f y <= sumQ f l)%Q.
Proof.
  induction 1 as [| z l Hz Hnd IH]; intros Hpos Hx Hy Hne;
    [by apply elem_of_nil in Hx |].
  assert (Hpos' : ∀ w, w ∈ l → (0 <= f w)%Q)
    by (intros w Hw; apply Hpos; by right).
  assert (0 <= f z)%Q by (apply Hpos; left).
  simpl. apply elem_of_cons in Hx as [-> | Hx];
    apply elem_of_cons in Hy as [-> | Hy].
  - done.
  - pose proof (sumQ_elem_le f l y Hpos' Hy). lra.
  - pose proof (sumQ_elem_le f l x Hpos' Hx). lra.
  - pose proof (IH Hpos' Hx Hy Hne). lra.
Qed.

Lemma elem_of_itinerary args data sol t x :
  x ∈ itinerary args data sol t ↔
  leg_course x ∈ courses args ∧ leg_origin x ∈ teams data
  ∧ leg_destination x ∈ teams data ∧ leg_group x ∈ groups args data
  ∧ (sol (arc (leg_course x) (leg_origin x) (leg_destination x) t
              (leg_group x)) == 1)%Q.
Proof.
  destruct x as [[[c i] j] g]. unfold itinerary, arc_indices, leg_course,
    leg_origin, leg_destination, leg_group. simpl.
  rewrite list_elem_of_filter. unfold is_one. rewrite Qeq_bool_iff. split.
  - intros [H1 H].
    apply list_elem_of_bind in H as (c' & H & Hc).
    apply list_elem_of_bind in H as (i' & H & Hi).
    apply list_elem_of_bind in H as (j' & H & Hj).
    apply list_elem_of_bind in H as (g' & H & Hg).
    apply list_elem_of_singleton in H as [= -> -> -> ->]. done.
  - intros (Hc & Hi & Hj & Hg & H1). split; [done |].
    in_bind c. in_bind i. in_bind j. in_bind g. left.
Qed.

Section Legs.
Context (args : Args) (data : list team) (distance_matrix : gmap dkey Z).
Context (prob : LpProblem) (sol : solution).
Hypothesis Hbuild : build_model args data distance_matrix = inr prob.
Hypothesis Hfeas : feasible prob sol.
Context (t : nat).
Hypothesis Ht : t ∈ teams data.

Abbreviation courses := (courses args).
Abbreviation teams := (teams data).
Abbreviation groups := (groups args data).
Abbreviation legs := (legs_in args data sol t).

(** A leg of the itinerary is the one leg of its course. *)
Lemma itinerary_leg x :
  x ∈ itinerary args data sol t → legs (leg_course x) = [x].
Proof.
  intros Hx. apply elem_of_itinerary in Hx as (Hc & Hi & Hj & Hg & H1).
  destruct (the_leg _ _ _ _ _ Hbuild Hfeas t Ht _ Hc)
    as (i & j & g & E & _).
  pose proof (the_leg_unique args data sol t (leg_course x) i j g
                _ _ _ E Hi Hj Hg H1) as Eq.
  rewrite E. destruct x as [[[c i'] j'] g']. simpl in *.
  unfold leg_origin, leg_destination, leg_group in Eq. simpl in Eq.
  by injection Eq as -> -> ->.
Qed.

(** The entry of the itinerary at position [c] is the leg of course [c]. *)
Lemma itinerary_lookup c x :
  itinerary args data sol t !! c = Some x →
  c ∈ courses ∧ legs c = [x] ∧ leg_course x = c.
Proof.
  intros Hx.
  assert (Eit : itinerary args data sol t = courses ≫= legs)
    by apply itinerary_by_course.
  destruct (bind_singletons legs courses) as [Hlen Hget].
  { intros c' Hc'. by eapply legs_in_length. }
  rewrite <- Eit in Hlen, Hget.
  assert (Hc : c ∈ courses).
  { apply lookup_lt_Some in Hx. apply elem_of_courses. lia. }
  destruct (the_leg _ _ _ _ _ Hbuild Hfeas t Ht c Hc) as (i & j & g & E & _).
  assert (Hat : itinerary args data sol t !! c = head (legs c)).
  { apply Hget. rewrite courses_seq. apply elem_of_courses in Hc.
    by rewrite lookup_seq_lt. }
  rewrite Hat, E in Hx. injection Hx as <-. by rewrite E.
Qed.

(** From the second course on the team moves to another place. *)
Lemma later_leg_moves c i j g :
  S c ∈ courses → legs (S c) = [(S c, i, j, g)] → j ≠ i.
Proof.
  intros HSc E.
  assert (Hc : c ∈ courses)
    by (apply elem_of_courses; apply elem_of_courses in HSc; lia).
  destruct (the_leg _ _ _ _ _ Hbuild Hfeas t Ht c Hc)
    as (i0 & j0 & g0 & E0 & Hi0 & Hj0 & Hg0 & H10).
  pose proof (legs_chain _ _ _ _ _ Hbuild Hfeas t Ht c i0 j0 g0 i j g HSc E0 E)
    as ->.
  pose proof (leave_where_entered _ _ _ _ _ Hbuild Hfeas c t j0 HSc Ht Hj0)
    as Hflow.
  assert (Hin : (1 <= sumQ (λ r, sumQ (λ g, sol (arc c r j0 t g)) groups)
                           teams)%Q).
  { assert (sumQ (λ g, sol (arc c i0 j0 t g)) groups
            <= sumQ (λ r, sumQ (λ g, sol (arc c r j0 t g)) groups) teams)%Q.
    { apply (sumQ_elem_le (λ r, sumQ (λ g, sol (arc c r j0 t g)) groups));
        [| done].
      intros r Hr. apply sumQ_nonneg. intros g1 Hg1.
      apply binary_nonneg. by eapply binary_arc. }
    assert (sol (arc c i0 j0 t g0)
            <= sumQ (λ g, sol (arc c i0 j0 t g)) groups)%Q.
    { apply (sumQ_elem_le (λ g, sol (arc c i0 j0 t g))); [| done].
      intros g1 Hg1. apply binary_nonneg. by eapply binary_arc. }
    lra. }
  rewrite <- Hflow in Hin.
  pose proof (Qlt_le_trans 0 1 _ eq_refl Hin) as Hpos.
  apply sumQ_pos_elem in Hpos as (j2 & Hj2 & Hpos).
  apply sumQ_pos_elem in Hpos as (g2 & Hg2 & Hpos).
  destruct (decide (j2 ≠ j0)) as [Hne | ?]; [| lra].
  apply binary_pos_one in Hpos; [| by eapply binary_arc].
  pose proof (the_leg_unique args data sol t (S c) j0 j g
                j0 j2 g2 E Hj0 Hj2 Hg2 Hpos) as Eq.
  injection Eq as Ej _. congruence.
Qed.

(** Only one team of a group carries the chef indicator. *)
Lemma one_chef_in_group g c u v :
  g ∈ groups → c ∈ courses → u ∈ teams → v ∈ teams →
  (sol (chef u g c) == 1)%Q → (sol (chef v g c) == 1)%Q → u = v.
Proof.
  intros Hg Hc Hu Hv H1 H2.
  destruct (decide (u = v)) as [| Hne]; [done | exfalso].
  assert (Hone : (sumQ (λ t, sol (chef t g c)) teams == 1)%Q).
  { assert (Hk : holds sol
      (LpEQ (lpSum (t ← teams; [(1%Q, chef t g c)])) (num 1))).
    { apply (holds_routing _ _ _ _ _ Hbuild Hfeas).
      unfold constraints_routing. rewrite !elem_of_app. left.
      unfold one_chef_per_group. in_bind g. in_bind c. left. }
    simpl in Hk. rewrite value_lpSum, value_num, sumQ_bind1 in Hk.
    rewrite <- Hk. apply sumQ_ext. intros w _. simpl. ring. }
  pose proof (sumQ_two_le (λ t, sol (chef t g c)) teams u v) as Hle.
  simpl in Hle. rewrite Hone in Hle.
  assert (1 + 1 <= 1)%Q; [| lra].
  rewrite <- H1 at 1. rewrite <- H2 at 1. apply Hle; try done.
  - apply NoDup_seq.
  - intros z Hz. apply binary_nonneg.
    by apply (binary_chef _ _ _ _ _ Hbuild Hfeas).
Qed.

End Legs.

(** X4.  In a feasible solution of a built model, a leg of a team's
    itinerary ends at the team's own place exactly when the team cooks in
    that course, and from the second course on it never starts and ends at
    the same place: nobody stays where the previous course was eaten. *)
Theorem legs_end_at_the_cook_and_move args data distance_matrix prob sol t c x :
  build_model args data distance_matrix = inr prob →
  feasible prob sol →
  t ∈ teams data →
  itinerary args data sol t !! c = Some x →
  leg_course x = c
  ∧ (leg_destination x = t ↔ (sol (chef t (leg_group x) c) == 1)%Q)
  ∧ (0 < c → leg_origin x ≠ leg_destination x).
Proof.
  intros Hbuild Hfeas Ht Hx.
  assert (Hin : x ∈ itinerary args data sol t)
    by (apply list_elem_of_lookup; eauto).
  destruct (itinerary_lookup _ _ _ _ _ Hbuild Hfeas t Ht c x Hx)
    as (_ & _ & Ec).
  subst c.
  pose proof (itinerary_leg _ _ _ _ _ Hbuild Hfeas t Ht x Hin) as E.
  apply elem_of_itinerary in Hin as (Hc & Hi & Hj & Hg & H1).
  destruct (leg_assigned_to_chef _ _ _ _ _ Hbuild Hfeas t Ht _ _ _ _
              Hc Hi Hj Hg H1) as [Ha Hch].
  split; [done |]. split.
  - split; [by intros <- |]. intros Hcht.
    by apply (one_chef_in_group _ _ _ _ _ Hbuild Hfeas (leg_group x)
                (leg_course x)).
  - intros Hpos Heq.
    destruct x as [[[c i] j] g]. unfold leg_course, leg_origin,
      leg_destination in *. simpl in *.
    destruct c as [| c]; [lia |].
    by apply (later_leg_moves _ _ _ _ _ Hbuild Hfeas t Ht c i j g Hc E).
Qed.

Lemma legs_end_at_the_cook_and_move_witness :
  build_model quartet_args quartet_data quartet_matrix = inr quartet_model
  ∧ feasible quartet_model quartet_solution
  ∧ 1 ∈ teams quartet_data
  ∧ itinerary quartet_args quartet_data quartet_solution 1 !! 1
    = Some (1, 0, 1, 1)
  ∧ (leg_destination (1, 0, 1, 1) = 1
     ↔ (quartet_solution (chef 1 1 1) == 1)%Q)
  ∧ (0 < 1 → leg_origin (1, 0, 1, 1) ≠ leg_destination (1, 0, 1, 1)).
Proof.
  assert (Hb : build_model quartet_args quartet_data quartet_matrix
               = inr quartet_model) by (vm_compute; reflexivity).
  assert (Hf : feasible quartet_model quartet_solution)
    by (apply feasibleb_feasible; vm_compute; reflexivity).
  assert (Ht : 1 ∈ teams quartet_data)
    by (apply elem_of_teams; vm_compute; lia).
  assert (Hx : itinerary quartet_args quartet_data quartet_solution 1 !! 1
               = Some (1, 0, 1, 1)) by (vm_compute; reflexivity).
  split; [exact Hb |]. split; [exact Hf |]. split; [exact Ht |].
  split; [exact Hx |].
  exact (proj2 (legs_end_at_the_cook_and_move quartet_args quartet_data
                  quartet_matrix quartet_model quartet_solution 1 1
                  (1, 0, 1, 1) Hb Hf Ht Hx)).
Defined.

(** X5.  Unless --can-stay is given, a leg of a feasible solution that
    joins the places of two different teams takes more than one minute. *)
Theorem no_short_hop_taken args data distance_matrix prob sol t x :
  build_model args data distance_matrix = inr prob →
  feasible prob sol →
  can_stay args = false →
  t ∈ teams data →
  x ∈ itinerary args data sol t →
  leg_origin x ≠ leg_destination x →
  (1 < distance_matrix !!! Route (leg_origin x) (leg_destination x)
                                  (leg_course x))%Z.
Proof.
  intros Hbuild Hfeas Hstay Ht Hx Hne.
  apply elem_of_itinerary in Hx as (Hc & Hi & Hj & Hg & H1).
  apply Z.lt_nge. intros Hle.
  assert (Hk : holds sol
    (LpEQ (var (arc (leg_course x) (leg_origin x) (leg_destination x) t
                    (leg_group x))) (num 0))).
  { apply (holds_routing _ _ _ _ _ Hbuild Hfeas).
    unfold constraints_routing. rewrite !elem_of_app. do 9 right.
    unfold no_short_hop. rewrite Hstay.
    in_bind t. in_bind (leg_course x). in_bind (leg_group x).
    in_bind (leg_destination x). in_bind (leg_origin x).
    rewrite decide_True by done.
    assert (E : Qle_bool (dist distance_matrix (leg_origin x)
                            (leg_destination x) (leg_course x)) 1 = true).
    { apply Qle_bool_iff. unfold dist. rewrite Zle_Qle in Hle. exact Hle. }
    rewrite E. left. }
  simpl in Hk. rewrite value_var, value_num in Hk.
  rewrite H1 in Hk. discriminate.
Qed.

Lemma no_short_hop_taken_witness :
  build_model quartet_args quartet_data quartet_matrix = inr quartet_model
  ∧ feasible quartet_model quartet_solution
  ∧ can_stay quartet_args = false
  ∧ 1 ∈ teams quartet_data
  ∧ (1, 0, 1, 1) ∈ itinerary quartet_args quartet_data quartet_solution 1
  ∧ leg_origin (1, 0, 1, 1) ≠ leg_destination (1, 0, 1, 1)
  ∧ (1 < quartet_matrix !!! Route 0 1 1)%Z.
Proof.
  assert (Hb : build_model quartet_args quartet_data quartet_matrix
               = inr quartet_model) by (vm_compute; reflexivity).
  assert (Hf : feasible quartet_model quartet_solution)
    by (apply feasibleb_feasible; vm_compute; reflexivity).
  assert (Ht : 1 ∈ teams quartet_data)
    by (apply elem_of_teams; vm_compute; lia).
  assert (Hx : (1, 0, 1, 1)
               ∈ itinerary quartet_args quartet_data quartet_solution 1)
    by (apply (bool_decide_unpack _); vm_compute; exact I).
  assert (Hne : leg_origin (1, 0, 1, 1) ≠ leg_destination (1, 0, 1, 1))
    by (vm_compute; lia).
  split; [exact Hb |]. split; [exact Hf |]. split; [reflexivity |].
  split; [exact Ht |]. split; [exact Hx |]. split; [exact Hne |].
  exact (no_short_hop_taken quartet_args quartet_data quartet_matrix
           quartet_model quartet_solution 1 (1, 0, 1, 1) Hb Hf eq_refl Ht
           Hx Hne).
Defined.

(** ** Durations of a decoded team *)

Lemma sumZ_app (l1 l2 : list Z) : sumZ (l1 ++ l2) = (sumZ l1 + sumZ l2)%Z.
Proof. induction l1 as [| x l1 IH]; simpl; [done | rewrite IH; lia]. Qed.

Lemma inject_sumZ {A} (f : A → Z) (l : list A) :
  (inject_Z (sumZ (f <$> l)) == sumQ (λ x, inject_Z (f x)) l)%Q.
Proof.
  induction l as [| x l IH]; [reflexivity |].
  rewrite fmap_cons.
  change (sumZ (f x :: (f <$> l))) with (f x + sumZ (f <$> l))%Z.
  rewrite inject_Z_plus, IH. reflexivity.
Qed.

Lemma sumZ_all_zero {A} (f : A → Z) (l : list A) :
  (∀ x, x ∈ l → f x = 0%Z) → sumZ (f <$> l) = 0%Z.
Proof.
  induction l as [| x l IH]; intros H; [done |].
  rewrite fmap_cons.
  change (sumZ (f x :: (f <$> l))) with (f x + sumZ (f <$> l))%Z.
  rewrite (H x) by left. rewrite IH; [done |].
  intros y Hy. apply H. by right.
Qed.

Lemma visit_arc_sumdistance args distance_matrix sol t w x :
  sumdistance (visit_arc args distance_matrix sol t w x)
  = (sumdistance w
     + if decide (let '(c, i, j, g) := x in is_one sol (arc c i j t g) = true)
       then approx_duration (leg_of distance_matrix x)
            + afterparty_part args distance_matrix x
       else 0)%Z.
Proof.
  destruct x as [[[c i] j] g]. unfold visit_arc.
  destruct (decide (is_one sol (arc c i j t g) = true)) as [E | E].
  - rewrite E. unfold afterparty_part, leg_of, leg_course, leg_origin,
      leg_destination. simpl.
    destruct (decide (c = courses_last args)); simpl; lia.
  - apply not_true_is_false in E. rewrite E. lia.
Qed.

(** The total of a team: the durations of its legs and the ways to the
    afterparty of its legs of the last course. *)
Lemma walk_sumdistance args distance_matrix sol t l w :
  sumdistance (foldl (visit_arc args distance_matrix sol t) w l)
  = (sumdistance w
     + sumZ (approx_duration
             <$> (leg_of distance_matrix
                  <$> filter (λ x, let '(c, i, j, g) := x in
                                   is_one sol (arc c i j t g) = true) l))
     + sumZ (afterparty_part args distance_matrix
             <$> filter (λ x, let '(c, i, j, g) := x in
                              is_one sol (arc c i j t g) = true) l))%Z.
Proof.
  revert w. induction l as [| x l IH]; intros w; [simpl; lia |].
  simpl foldl. rewrite IH, visit_arc_sumdistance, filter_cons.
  destruct (decide (let '(c, i, j, g) := x in
                    is_one sol (arc c i j t g) = true)).
  - rewrite !fmap_cons.
    change (sumZ (?a :: ?l)) with (a + sumZ l)%Z. lia.
  - lia.
Qed.

Lemma sumZ_afterparty_part args distance_matrix (l : list (nat * nat * nat * nat)) :
  sumZ (afterparty_part args distance_matrix <$> l)
  = sumZ ((λ x, distance_matrix !!! Afterparty (leg_destination x))
          <$> filter (λ x, leg_course x = courses_last args) l).
Proof.
  induction l as [| x l IH]; [done |].
  rewrite fmap_cons, filter_cons.
  change (sumZ (?a :: ?l)) with (a + sumZ l)%Z. rewrite IH.
  unfold afterparty_part at 1.
  destruct (decide (leg_course x = courses_last args)); [| lia].
  rewrite fmap_cons. change (sumZ (?a :: ?l)) with (a + sumZ l)%Z. lia.
Qed.

Section Totals.
Context (args : Args) (data : list team) (distance_matrix : gmap dkey Z).
Context (prob : LpProblem) (sol : solution).
Hypothesis Hbuild : build_model args data distance_matrix = inr prob.
Hypothesis Hfeas : feasible prob sol.
Context (t : nat).
Hypothesis Ht : t ∈ teams data.

Abbreviation courses := (courses args).
Abbreviation teams := (teams data).
Abbreviation groups := (groups args data).

(** A weighted sum over the arcs of the team between different places, as
    the builder writes it. *)
Lemma value_arc_terms (w : nat → nat → nat → Q) :
  (sumQ (λ tm, tm.1 * sol tm.2)
     (c ← courses; i ← teams; j ← teams; g ← groups;
      if decide (j ≠ i) then [(w c i j, arc c i j t g)] else [])
   == sumQ (λ x, if decide (leg_destination x ≠ leg_origin x)
                 then w (leg_course x) (leg_origin x) (leg_destination x)
                      * sol (arc (leg_course x) (leg_origin x)
                                 (leg_destination x) t (leg_group x))
                 else 0)
           (arc_indices args data))%Q.
Proof.
  unfold arc_indices.
  rewrite !sumQ_bind. apply sumQ_ext. intros c _.
  rewrite !sumQ_bind. apply sumQ_ext. intros i _.
  rewrite !sumQ_bind. apply sumQ_ext. intros j _.
  rewrite !sumQ_bind. apply sumQ_ext. intros g _.
  unfold leg_course, leg_origin, leg_destination, leg_group. simpl.
  destruct (decide (j ≠ i)); simpl; ring.
Qed.

(** Only the arcs of the itinerary count in such a sum. *)
Lemma arc_terms_itinerary (w : nat → nat → nat → Q) :
  (sumQ (λ x, if decide (leg_destination x ≠ leg_origin x)
              then w (leg_course x) (leg_origin x) (leg_destination x)
                   * sol (arc (leg_course x) (leg_origin x)
                              (leg_destination x) t (leg_group x))
              else 0)
        (arc_indices args data)
   == sumQ (λ x, if decide (leg_destination x ≠ leg_origin x)
                 then w (leg_course x) (leg_origin x) (leg_destination x)
                 else 0)
           (itinerary args data sol t))%Q.
Proof.
  unfold itinerary.
  rewrite <- (sumQ_filter _
    (λ x, let '(c, i, j, g) := x in is_one sol (arc c i j t g) = true)
    (arc_indices args data)).
  - apply sumQ_ext. intros x Hx.
    fold (itinerary args data sol t) in Hx.
    apply elem_of_itinerary in Hx as (_ & _ & _ & _ & H1).
    destruct (decide (leg_destination x ≠ leg_origin x)); [| reflexivity].
    rewrite H1. ring.
  - intros [[[c i] j] g] Hx Hna.
    unfold leg_course, leg_origin, leg_destination, leg_group. simpl.
    destruct (decide (j ≠ i)); [| reflexivity].
    apply list_elem_of_bind in Hx as (c' & Hx & Hc).
    apply list_elem_of_bind in Hx as (i' & Hx & Hi).
    apply list_elem_of_bind in Hx as (j' & Hx & Hj).
    apply list_elem_of_bind in Hx as (g' & Hx & Hg).
    apply list_elem_of_singleton in Hx as [= -> -> -> ->].
    destruct (binary_arc _ _ _ _ _ Hbuild Hfeas c' i' j' t g' Hc Hi Hj Ht Hg)
      as [H0 | H1].
    + rewrite H0. ring.
    + exfalso. apply Hna. by apply Qeq_bool_iff.
Qed.

Lemma tour_durations :
  (inject_Z (sumZ (approx_duration
                   <$> tour (walk_team args data distance_matrix sol t)))
   == sumQ (λ x, inject_Z (distance_matrix
                             !!! Route (leg_origin x) (leg_destination x)
                                       (leg_course x)))
           (itinerary args data sol t))%Q.
Proof.
  unfold walk_team. rewrite walk_tour. simpl.
  fold (itinerary args data sol t).
  rewrite <- list_fmap_compose. apply inject_sumZ.
Qed.

(** A leg that starts and ends at the same place is a leg of the first
    course. *)
Lemma staying_leg_is_first x :
  x ∈ itinerary args data sol t →
  leg_destination x = leg_origin x → leg_course x = 0.
Proof.
  intros Hx Heq.
  pose proof (itinerary_leg _ _ _ _ _ Hbuild Hfeas t Ht x Hx) as E.
  apply elem_of_itinerary in Hx as (Hc & _).
  destruct x as [[[c i] j] g]. unfold leg_course, leg_origin,
    leg_destination in *. simpl in *.
  destruct c as [| c]; [done |].
  by destruct (later_leg_moves _ _ _ _ _ Hbuild Hfeas t Ht c i j g Hc E).
Qed.

(** The legs of the last course in the itinerary: one. *)
Lemma last_course_leg :
  ∃ x, filter (λ x, leg_course x = courses_last args)
              (itinerary args data sol t) = [x].
Proof.
  pose proof (courses_nonempty _ _ _ _ Hbuild) as HK.
  assert (Hc : length courses - 1 ∈ courses) by (apply elem_of_courses; lia).
  destruct (the_leg _ _ _ _ _ Hbuild Hfeas t Ht _ Hc) as (i & j & g & E & _).
  exists (length courses - 1, i, j, g).
  rewrite itinerary_by_course, filter_bind.
  rewrite (courses_seq args) at 1.
  replace (length courses) with (S (length courses - 1)) at 1 by lia.
  rewrite seq_S, bind_app. simpl.
  rewrite bind_all_nil.
  - rewrite E, app_nil_r. simpl. rewrite filter_cons, decide_True; [done |].
    unfold leg_course. simpl. by rewrite courses_last_pred.
  - intros c Hc'. apply elem_of_seq in Hc'.
    assert (Hcc : c ∈ courses) by (apply elem_of_courses; lia).
    destruct (the_leg _ _ _ _ _ Hbuild Hfeas t Ht c Hcc)
      as (i' & j' & g' & E' & _).
    rewrite E', filter_cons, decide_False; [done |].
    unfold leg_course. simpl. rewrite courses_last_pred by done. lia.
Qed.

End Totals.

(** X6.  In a feasible solution of a built model the total of a team, as
    the team view computes it, is the sum of the durations of its legs plus
    the duration of its afterparty leg. *)
Theorem team_total_is_legs_plus_afterparty args data distance_matrix prob sol
    t :
  build_model args data distance_matrix = inr prob →
  feasible prob sol →
  t ∈ teams data →
  let w := walk_team args data distance_matrix sol t in
  ∃ du, afterparty_duration w = Some du
        ∧ sumdistance w = (sumZ (approx_duration <$> tour w) + du)%Z.
Proof.
  intros Hbuild Hfeas Ht w.
  destruct (last_course_leg _ _ _ _ _ Hbuild Hfeas t Ht) as (x & Ex).
  exists (distance_matrix !!! Afterparty (leg_destination x)).
  unfold w, walk_team. rewrite walk_afterparty, walk_sumdistance, walk_tour.
  fold (itinerary args data sol t).
  rewrite sumZ_afterparty_part, Ex. simpl. split; [done | lia].
Qed.

Lemma team_total_is_legs_plus_afterparty_witness :
  build_model quartet_args quartet_data quartet_matrix = inr quartet_model
  ∧ feasible quartet_model quartet_solution
  ∧ 2 ∈ teams quartet_data
  ∧ ∃ du,
      afterparty_duration
        (walk_team quartet_args quartet_data quartet_matrix
           quartet_solution 2) = Some du
      ∧ sumdistance (walk_team quartet_args quartet_data quartet_matrix
                       quartet_solution 2)
        = (sumZ (approx_duration
                 <$> tour (walk_team quartet_args quartet_data quartet_matrix
                             quartet_solution 2)) + du)%Z.
Proof.
  assert (Hb : build_model quartet_args quartet_data quartet_matrix
               = inr quartet_model) by (vm_compute; reflexivity).
  assert (Hf : feasible quartet_model quartet_solution)
    by (apply feasibleb_feasible; vm_compute; reflexivity).
  assert (Ht : 2 ∈ teams quartet_data)
    by (apply elem_of_teams; vm_compute; lia).
  split; [exact Hb |]. split; [exact Hf |]. split; [exact Ht |].
  exact (team_total_is_legs_plus_afterparty quartet_args quartet_data
           quartet_matrix quartet_model quartet_solution 2 Hb Hf Ht).
Defined.

(** X7.  When every team is at no distance from itself, as in an assembled
    matrix, the durations of the decoded legs of a team in a feasible
    solution add up to at least --min-travel. *)
Theorem decoded_legs_reach_min_travel args data distance_matrix prob sol t :
  build_model args data distance_matrix = inr prob →
  feasible prob sol →
  t ∈ teams data →
  (∀ i c, i ∈ teams data → c ∈ courses args →
     distance_matrix !!! Route i i c = 0%Z) →
  (min_travel args
   <= sumZ (approx_duration
            <$> tour (walk_team args data distance_matrix sol t)))%Z.
Proof.
  intros Hbuild Hfeas Ht Hself.
  rewrite Zle_Qle. rewrite (tour_durations args data distance_matrix sol t).
  pose proof (min_time_in_model _ _ _ _ _ Hbuild Ht) as Hin.
  apply Hfeas in Hin. simpl in Hin. rewrite value_lpSum, value_num in Hin.
  unfold min_time_terms in Hin.
  rewrite (value_arc_terms args data sol t
             (λ c i j, dist distance_matrix i j c)) in Hin.
  rewrite (arc_terms_itinerary _ _ _ _ _ Hbuild Hfeas t Ht
             (λ c i j, dist distance_matrix i j c)) in Hin.
  eapply Qle_trans; [exact Hin |]. apply Qle_lteq. right.
  apply sumQ_ext. intros x Hx.
  destruct (decide (leg_destination x ≠ leg_origin x)) as [| Heq];
    [reflexivity |].
  apply dec_stable in Heq. rewrite Heq.
  apply elem_of_itinerary in Hx as (Hc & Hi & _).
  by rewrite Hself.
Qed.

Lemma decoded_legs_reach_min_travel_witness :
  (min_travel quartet_args
   <= sumZ (approx_duration
            <$> tour (walk_team quartet_args quartet_data quartet_matrix
                        quartet_solution 1)))%Z.
Proof.
  assert (Hb : build_model quartet_args quartet_data quartet_matrix
               = inr quartet_model) by (vm_compute; reflexivity).
  assert (Hf : feasible quartet_model quartet_solution)
    by (apply feasibleb_feasible; vm_compute; reflexivity).
  assert (Ht : 1 ∈ teams quartet_data)
    by (apply elem_of_teams; vm_compute; lia).
  assert (Hself : ∀ i c, i ∈ teams quartet_data → c ∈ courses quartet_args →
                    quartet_matrix !!! Route i i c = 0%Z).
  { intros i c Hi Hc.
    apply elem_of_teams in Hi. apply elem_of_courses in Hc.
    vm_compute in Hi, Hc.
    destruct i as [| [| [| [| i]]]]; [| | | | lia];
      (destruct c as [| [| c]]; [| | lia]); vm_compute; reflexivity. }
  exact (decoded_legs_reach_min_travel quartet_args quartet_data
           quartet_matrix quartet_model quartet_solution 1 Hb Hf Ht Hself).
Defined.


Lemma max_dist_in_model args data distance_matrix prob t :
  build_model args data distance_matrix = inr prob →
  ignore_max_dist args = false →
  t ∈ teams data →
  LpLE (lpSum (c ← courses args; i ← teams data; j ← teams data;
               g ← groups args data;
               if decide (j ≠ i)
               then [(leg_cost args distance_matrix c i j, arc c i j t g)]
               else []))
       (var maxDuration) ∈ constraints prob.
Proof.
  intros Hbuild Hmax Ht.
  destruct (build_model_inr _ _ _ _ Hbuild) as (ci & _ & E & _).
  rewrite E. unfold constraints_routing. rewrite !elem_of_app.
  do 2 right. left. do 7 right. left.
  unfold max_dist. rewrite Hmax. in_bind t. left.
Qed.

(** With two courses or more and no distance from a team to itself, the
    cost of the arcs of a team in the model is the total the team view adds
    up for it. *)
Lemma team_cost_is_total args data distance_matrix prob sol t :
  build_model args data distance_matrix = inr prob →
  feasible prob sol →
  t ∈ teams data →
  2 ≤ length (courses args) →
  (∀ i c, i ∈ teams data → c ∈ courses args →
     distance_matrix !!! Route i i c = 0%Z) →
  (sumQ (λ tm, tm.1 * sol tm.2)
     (c ← courses args; i ← teams data; j ← teams data; g ← groups args data;
      if decide (j ≠ i)
      then [(leg_cost args distance_matrix c i j, arc c i j t g)] else [])
   == inject_Z (sumdistance (walk_team args data distance_matrix sol t)))%Q.
Proof.
  intros Hbuild Hfeas Ht HK Hself.
  rewrite (value_arc_terms args data sol t (leg_cost args distance_matrix)).
  rewrite (arc_terms_itinerary _ _ _ _ _ Hbuild Hfeas t Ht
             (leg_cost args distance_matrix)).
  symmetry.
  unfold walk_team. rewrite walk_sumdistance. simpl.
  fold (itinerary args data sol t).
  rewrite <- !list_fmap_compose, !inject_Z_plus, !inject_sumZ.
  change (inject_Z 0) with 0%Q. rewrite Qplus_0_l.
  rewrite <- (sumQ_plus
    (λ x, inject_Z ((approx_duration ∘ leg_of distance_matrix) x))
    (λ x, inject_Z (afterparty_part args distance_matrix x))).
  apply sumQ_ext. intros x Hx. unfold compose, leg_of. simpl.
  unfold afterparty_part, leg_cost, dist, dist_afterparty.
  destruct (decide (leg_destination x ≠ leg_origin x)) as [| Heq].
  - destruct (decide (leg_course x = courses_last args)); ring.
  - apply dec_stable in Heq.
    pose proof (staying_leg_is_first _ _ _ _ _ Hbuild Hfeas t Ht x Hx Heq)
      as H0.
    apply elem_of_itinerary in Hx as (Hc & Hi & _).
    rewrite Heq, Hself by done.
    rewrite decide_False; [reflexivity |].
    rewrite H0, courses_last_pred by lia. lia.
Qed.

(** X8.  Unless --ignore-max-dist is given, with two courses or more and a
    matrix in which every team is at no distance from itself, the total of
    every team in the team view of a feasible solution (its legs and its
    afterparty leg) is at most the value of the variable maxDuration. *)
Theorem decoded_total_within_max_duration args data distance_matrix prob sol
    t :
  build_model args data distance_matrix = inr prob →
  feasible prob sol →
  t ∈ teams data →
  ignore_max_dist args = false →
  2 ≤ length (courses args) →
  (∀ i c, i ∈ teams data → c ∈ courses args →
     distance_matrix !!! Route i i c = 0%Z) →
  (inject_Z (sumdistance (walk_team args data distance_matrix sol t))
   <= sol maxDuration)%Q.
Proof.
  intros Hbuild Hfeas Ht Hmax HK Hself.
  pose proof (max_dist_in_model _ _ _ _ _ Hbuild Hmax Ht) as Hin.
  apply Hfeas in Hin. simpl in Hin. rewrite value_lpSum, value_var in Hin.
  by rewrite (team_cost_is_total _ _ _ _ _ _ Hbuild Hfeas Ht HK Hself)
    in Hin.
Qed.

Lemma decoded_total_within_max_duration_witness :
  (inject_Z (sumdistance (walk_team quartet_args quartet_data quartet_matrix
                            quartet_solution 3))
   <= quartet_solution maxDuration)%Q.
Proof.
  assert (Hb : build_model quartet_args quartet_data quartet_matrix
               = inr quartet_model) by (vm_compute; reflexivity).
  assert (Hf : feasible quartet_model quartet_solution)
    by (apply feasibleb_feasible; vm_compute; reflexivity).
  assert (Ht : 3 ∈ teams quartet_data)
    by (apply elem_of_teams; vm_compute; lia).
  assert (Hmax : ignore_max_dist quartet_args = false) by reflexivity.
  assert (HK : 2 ≤ length (courses quartet_args)) by (vm_compute; lia).
  assert (Hself : ∀ i c, i ∈ teams quartet_data → c ∈ courses quartet_args →
                    quartet_matrix !!! Route i i c = 0%Z).
  { intros i c Hi Hc.
    apply elem_of_teams in Hi. apply elem_of_courses in Hc.
    vm_compute in Hi, Hc.
    destruct i as [| [| [| [| i]]]]; [| | | | lia];
      (destruct c as [| [| c]]; [| | lia]); vm_compute; reflexivity. }
  exact (decoded_total_within_max_duration quartet_args quartet_data
           quartet_matrix quartet_model quartet_solution 3 Hb Hf Ht Hmax HK
           Hself).
Defined.

(** ** The objective *)

Lemma sumQ_fmap {A B} (f : B → Q) (h : A → B) (l : list A) :
  (sumQ f (h <$> l) == sumQ (λ x, f (h x)) l)%Q.
Proof.
  induction l as [| x l IH]; simpl; [reflexivity | by rewrite IH].
Qed.

Lemma sumQ_scale {A} (k : Q) (f : A → Q) (l : list A) :
  (sumQ (λ x, k * f x) l == k * sumQ f l)%Q.
Proof.
  induction l as [| x l IH]; simpl; [ring | rewrite IH; ring].
Qed.

Lemma objective_without_preferences args data distance_matrix prob :
  build_model args data distance_matrix = inr prob →
  ignore_preferences args = true →
  objective prob
  = lpSum ((if ignore_max_dist args then [] else [(1%Q, maxDuration)])
           ++ ((λ tm, ((1 # 10) * (1 / inject_Z (Z.of_nat (length data))
                                   * tm.1), tm.2)%Q)
               <$> distance_sum args data distance_matrix)
           ++ []).
Proof.
  intros Hbuild Hpr.
  pose proof (build_model_inr _ _ _ _ Hbuild) as (_ & _ & _ & _ & _ & _ & Hn).
  unfold build_model in Hbuild.
  destruct (decide (length (courses args) = 0)); [discriminate |].
  simpl in Hbuild.
  unfold max_pref, preferences in Hbuild. rewrite Hpr in Hbuild.
  simpl in Hbuild.
  unfold build_objective, py_div in Hbuild.
  assert (El : length (teams data) = length data)
    by (unfold teams; by rewrite length_seq).
  rewrite !El in Hbuild.
  destruct (Qeq_bool (inject_Z (Z.of_nat (length data))) 0) eqn:E.
  - apply Qeq_bool_iff in E. unfold Qeq in E. simpl in E. lia.
  - simpl in Hbuild.
    apply bind_inr in Hbuild as (ci & _ & H). by injection H as <-.
Qed.

(** X9.  With --ignore-preferences, two courses or more and no distance from
    a team to itself, the objective of the model at a feasible solution is
    the value of maxDuration (nothing with --ignore-max-dist) plus a tenth
    of the mean of the totals of the team view (nothing with
    --ignore-avg-dist). *)
Theorem objective_is_max_plus_tenth_of_mean args data distance_matrix prob
    sol :
  build_model args data distance_matrix = inr prob →
  feasible prob sol →
  ignore_preferences args = true →
  2 ≤ length (courses args) →
  (∀ i c, i ∈ teams data → c ∈ courses args →
     distance_matrix !!! Route i i c = 0%Z) →
  (value sol (objective prob)
   == (if ignore_max_dist args then 0 else sol maxDuration)
      + (if ignore_avg_dist args then 0
         else (1 # 10)
              * (inject_Z (sumZ (team_distances args data distance_matrix
                                   sol))
                 / inject_Z (Z.of_nat (length data)))))%Q.
Proof.
  intros Hbuild Hfeas Hpr HK Hself.
  pose proof (build_model_inr _ _ _ _ Hbuild) as (_ & _ & _ & _ & _ & _ & Hn).
  rewrite (objective_without_preferences _ _ _ _ Hbuild Hpr).
  rewrite value_lpSum, !sumQ_app. simpl.
  apply Qplus_comp.
  - destruct (ignore_max_dist args); simpl; ring.
  - rewrite Qplus_0_r. rewrite sumQ_fmap. unfold distance_sum.
    destruct (ignore_avg_dist args); [reflexivity |].
    rewrite sumQ_bind.
    rewrite (sumQ_ext _
      (λ t, (1 # 10) * (1 / inject_Z (Z.of_nat (length data)))
            * inject_Z (sumdistance
                          (walk_team args data distance_matrix sol t)))%Q).
    + rewrite sumQ_scale. unfold team_distances.
      rewrite inject_sumZ. field.
      unfold Qeq. simpl. lia.
    + intros t Ht.
      rewrite <- (team_cost_is_total _ _ _ _ _ _ Hbuild Hfeas Ht HK Hself).
      rewrite <- sumQ_scale.
      apply sumQ_ext. intros tm _. simpl. ring.
Qed.

Lemma objective_is_max_plus_tenth_of_mean_witness :
  (value quartet_solution (objective quartet_model)
   == (if ignore_max_dist quartet_args then 0
       else quartet_solution maxDuration)
      + (if ignore_avg_dist quartet_args then 0
         else (1 # 10)
              * (inject_Z (sumZ (team_distances quartet_args quartet_data
                                   quartet_matrix quartet_solution))
                 / inject_Z (Z.of_nat (length quartet_data)))))%Q.
Proof.
  assert (Hb : build_model quartet_args quartet_data quartet_matrix
               = inr quartet_model) by (vm_compute; reflexivity).
  assert (Hf : feasible quartet_model quartet_solution)
    by (apply feasibleb_feasible; vm_compute; reflexivity).
  assert (Hpr : ignore_preferences quartet_args = true) by reflexivity.
  assert (HK : 2 ≤ length (courses quartet_args)) by (vm_compute; lia).
  assert (Hself : ∀ i c, i ∈ teams quartet_data → c ∈ courses quartet_args →
                    quartet_matrix !!! Route i i c = 0%Z).
  { intros i c Hi Hc.
    apply elem_of_teams in Hi. apply elem_of_courses in Hc.
    vm_compute in Hi, Hc.
    destruct i as [| [| [| [| i]]]]; [| | | | lia];
      (destruct c as [| [| c]]; [| | lia]); vm_compute; reflexivity. }
  exact (objective_is_max_plus_tenth_of_mean quartet_args quartet_data
           quartet_matrix quartet_model quartet_solution Hb Hf Hpr HK Hself).
Defined.

(** ** Large teams *)

(** Among zeros and ones of which no two are one, the sum is at most
    one. *)
Lemma sumQ_at_most_one {A} (f : A → Q) (l : list A) :
  NoDup l →
  (∀ x, x ∈ l → (f x == 0)%Q ∨ (f x == 1)%Q) →
  (∀ x y, x ∈ l → y ∈ l → x ≠ y → (f x == 1)%Q → (f y == 0)%Q) →
  (sumQ f l <= 1)%Q.
Proof.
  induction 1 as [| x l Hx Hnd IH]; intros Hbin Hone; simpl; [lra |].
  destruct (Hbin x) as [H0 | H1]; [left | |].
  - rewrite H0.
    assert (sumQ f l <= 1)%Q; [| lra].
    apply IH.
    + intros y Hy. apply Hbin. by right.
    + intros y z Hy Hz. apply Hone; by right.
  - rewrite H1.
    assert (sumQ f l == 0)%Q as ->; [| lra].
    rewrite <- (sumQ_zero l). apply sumQ_ext. intros y Hy.
    apply (Hone x y); [left | by right | | done].
    intros ->. done.
Qed.

Lemma sumQ_const {A} (k : Q) (l : list A) :
  (sumQ (λ _, k) l == inject_Z (Z.of_nat (length l)) * k)%Q.
Proof.
  induction l as [| x l IH]; [simpl; ring |].
  simpl sumQ. cbn [length].
  rewrite IH, Nat2Z.inj_succ, <- Z.add_1_l, inject_Z_plus.
  change (inject_Z 1) with 1%Q. ring.
Qed.

Lemma sumQ_le {A} (f g : A → Q) (l : list A) :
  (∀ x, x ∈ l → (f x <= g x)%Q) → (sumQ f l <= sumQ g l)%Q.
Proof.
  induction l as [| x l IH]; intros H; simpl; [lra |].
  assert (f x <= g x)%Q by (apply H; left).
  assert (sumQ f l <= sumQ g l)%Q by (apply IH; intros y Hy; apply H; by right).
  lra.
Qed.

Section LargeTeams.
Context (args : Args) (data : list team) (distance_matrix : gmap dkey Z).
Context (prob : LpProblem) (sol : solution).
Hypothesis Hbuild : build_model args data distance_matrix = inr prob.
Hypothesis Hfeas : feasible prob sol.
Hypothesis Hlarge : (0 < large_teams args)%Z.

Abbreviation courses := (courses args).
Abbreviation teams := (teams data).
Abbreviation groups := (groups args data).

Lemma holds_large_team k :
  k ∈ large_team_constraints args data → holds sol k.
Proof.
  intros Hk. destruct (build_model_inr _ _ _ _ Hbuild) as (ci & _ & E & _).
  apply Hfeas. rewrite E, !elem_of_app. do 4 right.
  unfold constraints_tail. rewrite elem_of_app. by left.
Qed.

Lemma binary_large_team t : t ∈ teams → is_binary sol (large_team t).
Proof.
  intros Ht.
  destruct (build_model_inr _ _ _ _ Hbuild) as (ci & _ & _ & E & _).
  apply Hfeas. rewrite E. unfold declared_binaries. rewrite !elem_of_app.
  do 3 right. rewrite decide_True by done. in_bind t. left.
Qed.

Lemma large_team_count :
  (sumQ (λ t, sol (large_team t)) teams == inject_Z (large_teams args))%Q.
Proof.
  assert (Hk : holds sol (LpEQ (lpSum (t ← teams; [(1%Q, large_team t)]))
                               (num (large_teams args)))).
  { apply holds_large_team. unfold large_team_constraints.
    rewrite decide_True by done. left. }
  simpl in Hk. rewrite value_lpSum, value_num, sumQ_bind1 in Hk.
  rewrite <- Hk. apply sumQ_ext. intros t _. simpl. ring.
Qed.

Lemma large_pair c g t1 t2 :
  c ∈ courses → g ∈ groups → t1 ∈ teams → t2 ∈ teams → t1 ≠ t2 →
  (sol (assignment t1 g c) + sol (assignment t2 g c)
   + sol (large_team t1) + sol (large_team t2) <= 3)%Q.
Proof.
  intros Hc Hg H1 H2 Hne.
  assert (Hk : holds sol
    (LpLE (lpSum [(1%Q, assignment t1 g c); (1%Q, assignment t2 g c);
                  (1%Q, large_team t1); (1%Q, large_team t2)])
          (num 3))).
  { apply holds_large_team. unfold large_team_constraints.
    rewrite decide_True by done. right.
    in_bind c. in_bind g. in_bind t1. in_bind t2.
    rewrite decide_True by done. left. }
  simpl in Hk. rewrite value_lpSum, value_num in Hk. simpl in Hk.
  unfold inject_Z in Hk. lra.
Qed.

(** The large teams of a group, counted with their indicators. *)
Lemma large_in_group c g :
  c ∈ courses → g ∈ groups →
  (sumQ (λ t, sol (large_team t) * sol (assignment t g c)) teams <= 1)%Q.
Proof.
  intros Hc Hg. apply sumQ_at_most_one.
  - apply NoDup_seq.
  - intros t Ht.
    destruct (binary_large_team t Ht) as [E | E];
      destruct (binary_assignment _ _ _ _ _ Hbuild Hfeas t g c Ht Hg Hc)
        as [E' | E']; rewrite E, E'; [left | left | left | right]; ring.
  - intros t1 t2 H1 H2 Hne Hone.
    pose proof (large_pair c g t1 t2 Hc Hg H1 H2 Hne) as Hle.
    destruct (binary_large_team t1 H1) as [E1 | E1];
      [rewrite E1 in Hone; lra |].
    destruct (binary_assignment _ _ _ _ _ Hbuild Hfeas t1 g c H1 Hg Hc)
      as [F1 | F1]; [rewrite F1 in Hone; lra |].
    destruct (binary_large_team t2 H2) as [E2 | E2]; [rewrite E2; ring |].
    destruct (binary_assignment _ _ _ _ _ Hbuild Hfeas t2 g c H2 Hg Hc)
      as [F2 | F2]; [rewrite F2; ring |].
    lra.
Qed.

Lemma large_teams_fit_groups :
  (large_teams args <= Z.of_nat (length groups))%Z.
Proof.
  pose proof (courses_nonempty _ _ _ _ Hbuild) as HK.
  assert (Hc : 0 ∈ courses) by (apply elem_of_courses; lia).
  rewrite Zle_Qle, <- large_team_count.
  rewrite (sumQ_ext _
    (λ t, sumQ (λ g, (sol (large_team t) * sol (assignment t g 0))%Q)
               groups)).
  - rewrite sumQ_swap.
    rewrite <- (Qmult_1_r (inject_Z _)), <- (sumQ_const 1 groups).
    apply sumQ_le. intros g Hg. by apply large_in_group.
  - intros t Ht. rewrite sumQ_scale.
    rewrite (team_in_one_group _ _ _ _ _ Hbuild Hfeas t 0 Ht Hc). ring.
Qed.

End LargeTeams.

(** X10.  With --large-teams, a feasible solution marks exactly that many
    teams as large, and two teams marked as large are in no group
    together. *)
Theorem large_teams_never_share_a_group args data distance_matrix prob sol :
  build_model args data distance_matrix = inr prob →
  feasible prob sol →
  (0 < large_teams args)%Z →
  (inject_Z (Z.of_nat (length (filter
      (λ t, Qeq_bool (sol (large_team t)) 1 = true) (teams data))))
   == inject_Z (large_teams args))%Q
  ∧ ∀ c g t1 t2,
      c ∈ courses args → g ∈ groups args data →
      t1 ∈ teams data → t2 ∈ teams data → t1 ≠ t2 →
      (sol (large_team t1) == 1)%Q → (sol (large_team t2) == 1)%Q →
      (sol (assignment t1 g c) == 1)%Q →
      (sol (assignment t2 g c) == 0)%Q.
Proof.
  intros Hbuild Hfeas Hlarge. split.
  - rewrite (sumQ_count (λ t, sol (large_team t))).
    + by apply (large_team_count args data distance_matrix prob).
    + intros t Ht.
      by apply (binary_large_team args data distance_matrix prob).
  - intros c g t1 t2 Hc Hg H1 H2 Hne E1 E2 F1.
    pose proof (large_pair _ _ _ _ _ Hbuild Hfeas Hlarge c g t1 t2
                  Hc Hg H1 H2 Hne) as Hle.
    destruct (binary_assignment _ _ _ _ _ Hbuild Hfeas t2 g c H2 Hg Hc)
      as [F2 | F2]; [done | lra].
Qed.

Lemma large_teams_never_share_a_group_witness :
  (inject_Z (Z.of_nat (length (filter
      (λ t, Qeq_bool (quartet_large_solution (large_team t)) 1 = true)
      (teams quartet_data))))
   == inject_Z (large_teams quartet_large_args))%Q
  ∧ ∀ c g t1 t2,
      c ∈ courses quartet_large_args →
      g ∈ groups quartet_large_args quartet_data →
      t1 ∈ teams quartet_data → t2 ∈ teams quartet_data → t1 ≠ t2 →
      (quartet_large_solution (large_team t1) == 1)%Q →
      (quartet_large_solution (large_team t2) == 1)%Q →
      (quartet_large_solution (assignment t1 g c) == 1)%Q →
      (quartet_large_solution (assignment t2 g c) == 0)%Q.
Proof.
  assert (Hb : build_model quartet_large_args quartet_data quartet_matrix
               = inr quartet_large_model) by (vm_compute; reflexivity).
  assert (Hf : feasible quartet_large_model quartet_large_solution)
    by (apply feasibleb_feasible; vm_compute; reflexivity).
  assert (Hl : (0 < large_teams quartet_large_args)%Z) by (simpl; lia).
  exact (large_teams_never_share_a_group quartet_large_args quartet_data
           quartet_matrix quartet_large_model quartet_large_solution
           Hb Hf Hl).
Defined.

(** X11.  More large teams than there are groups in a course cannot be
    placed: the model has no feasible solution. *)
Theorem more_large_teams_than_groups_infeasible args data distance_matrix
    prob sol :
  build_model args data distance_matrix = inr prob →
  (Z.of_nat (length (groups args data)) < large_teams args)%Z →
  ¬ feasible prob sol.
Proof.
  intros Hbuild Hmore Hfeas.
  assert (Hlarge : (0 < large_teams args)%Z) by lia.
  pose proof (large_teams_fit_groups _ _ _ _ _ Hbuild Hfeas Hlarge). lia.
Qed.

Lemma more_large_teams_than_groups_infeasible_witness :
  ¬ feasible quartet_crowded_model quartet_large_solution.
Proof.
  assert (Hb : build_model quartet_crowded_args quartet_data quartet_matrix
               = inr quartet_crowded_model) by (vm_compute; reflexivity).
  assert (Hm : (Z.of_nat (length (groups quartet_crowded_args quartet_data))
                < large_teams quartet_crowded_args)%Z)
    by (vm_compute; reflexivity).
  exact (more_large_teams_than_groups_infeasible quartet_crowded_args
           quartet_data quartet_matrix quartet_crowded_model
           quartet_large_solution Hb Hm).
Defined.

(** ** Teams at one address *)

Lemma residents_insert a t m a' :
  residents a' (same_addr_insert a t m)
  = if decide (a' = a) then residents a m ++ [t] else residents a' m.
Proof.
  induction m as [| [b ts] m IH]; simpl.
  - destruct (decide (a = a')), (decide (a' = a)); congruence.
  - destruct (decide (b = a)) as [-> | Hb]; simpl.
    + destruct (decide (a = a')), (decide (a' = a)); congruence.
    + destruct (decide (b = a')) as [-> | Hb'].
      * destruct (decide (a' = a)); congruence.
      * apply IH.
Qed.

Lemma keys_insert a t m :
  (same_addr_insert a t m).*1
  = if decide (a ∈ m.*1) then m.*1 else m.*1 ++ [a].
Proof.
  induction m as [| [b ts] m IH].
  - destruct (decide (a ∈ ([] : list (string * list nat)).*1))
      as [Hin | Hin]; [by apply elem_of_nil in Hin | done].
  - simpl same_addr_insert. rewrite fmap_cons. simpl fst.
    destruct (decide (b = a)) as [-> | Hb].
    + rewrite fmap_cons. simpl fst.
      destruct (decide (a ∈ a :: m.*1)) as [| Hin]; [done |].
      exfalso. apply Hin. left.
    + rewrite fmap_cons, IH. simpl fst.
      destruct (decide (a ∈ m.*1)) as [Hin | Hin];
        destruct (decide (a ∈ b :: m.*1)) as [Hin' | Hin']; try done.
      * exfalso. apply Hin'. by right.
      * apply elem_of_cons in Hin' as [-> | ?]; done.
Qed.

Lemma residents_elem a l m :
  NoDup m.*1 → (a, l) ∈ m → residents a m = l.
Proof.
  induction m as [| [b ts] m IH]; intros Hnd Hin;
    [by apply elem_of_nil in Hin |].
  simpl in *. apply NoDup_cons in Hnd as [Hb Hnd].
  apply elem_of_cons in Hin as [[= -> ->] | Hin].
  - by rewrite decide_True.
  - rewrite decide_False; [by apply IH |].
    intros ->. apply Hb. apply list_elem_of_fmap. by exists (a, l).
Qed.

Lemma elem_residents a m :
  residents a m ≠ [] → (a, residents a m) ∈ m.
Proof.
  induction m as [| [b ts] m IH]; simpl; intros H; [done |].
  destruct (decide (b = a)) as [-> | Hb]; [left |].
  right. by apply IH.
Qed.

Lemma housemates_snoc data d a :
  housemates (data ++ [d]) a
  = housemates data a ++ (if decide (addr d = a) then [length data] else []).
Proof.
  unfold housemates. rewrite imap_app, filter_app, fmap_app. f_equal.
  simpl. rewrite filter_cons, filter_nil. simpl.
  rewrite Nat.add_0_r. by destruct (decide (addr d = a)).
Qed.

(** The dictionary [same_addr_team] has one key for every address, and
    under it the teams of that address. *)
Lemma same_addr_team_spec data :
  NoDup (same_addr_team data).*1
  ∧ ∀ a, residents a (same_addr_team data) = housemates data a.
Proof.
  induction data as [| d data IH] using rev_ind.
  - split; [constructor | done].
  - destruct IH as [Hnd Hres]. unfold same_addr_team in *.
    rewrite imap_app, foldl_app. simpl. rewrite Nat.add_0_r. split.
    + rewrite keys_insert. destruct (decide _) as [| Hin]; [done |].
      apply NoDup_app. split; [done |]. split; [| apply NoDup_singleton].
      intros x Hx ->%list_elem_of_singleton. done.
    + intros a. rewrite residents_insert, housemates_snoc, !Hres.
      destruct (decide (a = addr d)) as [-> | Hne].
      * by rewrite decide_True.
      * rewrite decide_False by congruence. by rewrite app_nil_r.
Qed.

Lemma elem_of_housemates data a t :
  t ∈ housemates data a ↔ ∃ d, data !! t = Some d ∧ addr d = a.
Proof.
  unfold housemates. rewrite list_elem_of_fmap. split.
  - intros ([t' d] & -> & Hin). apply list_elem_of_filter in Hin as [Ha Hin].
    apply list_elem_of_lookup in Hin as [i Hi].
    rewrite list_lookup_imap in Hi.
    destruct (data !! i) as [d' |] eqn:E; [| done].
    injection Hi as <- <-. by exists d'.
  - intros (d & Hd & Ha). exists (t, d). split; [done |].
    apply list_elem_of_filter. split; [done |].
    by apply elem_of_lookup_imap_2.
Qed.

Lemma NoDup_housemates data a : NoDup (housemates data a).
Proof.
  induction data as [| d data IH] using rev_ind; [constructor |].
  rewrite housemates_snoc. destruct (decide (addr d = a)).
  - apply NoDup_app. split; [done |]. split; [| apply NoDup_singleton].
    intros t Ht ->%list_elem_of_singleton.
    apply elem_of_housemates in Ht as (d' & Hd & _).
    apply lookup_lt_Some in Hd. lia.
  - by rewrite app_nil_r.
Qed.

(** X12.  For an address with two teams or more, a feasible solution has in
    every course at most max(1, ceil(m / courses)) cooks among the m teams
    of that address; when they are no more than the courses, no two of them
    cook in the same course. *)
Theorem same_address_cooks_spread args data distance_matrix prob sol a c :
  build_model args data distance_matrix = inr prob →
  feasible prob sol →
  c ∈ courses args →
  1 < length (housemates data a) →
  (sumQ (λ t, sumQ (λ g, sol (chef t g c)) (groups args data))
        (housemates data a)
   <= inject_Z (Z.max 1 (py_ceil_div
                           (Z.of_nat (length (housemates data a)))
                           (Z.of_nat (length (courses args))))))%Q
  ∧ (length (housemates data a) ≤ length (courses args) →
     ∀ t1 t2 g1 g2,
       t1 ∈ housemates data a → t2 ∈ housemates data a → t1 ≠ t2 →
       g1 ∈ groups args data → g2 ∈ groups args data →
       (sol (chef t1 g1 c) == 1)%Q → (sol (chef t2 g2 c) == 0)%Q).
Proof.
  intros Hbuild Hfeas Hc Hlen.
  destruct (same_addr_team_spec data) as [Hnd Hres].
  assert (Hin : (a, housemates data a) ∈ same_addr_team data).
  { rewrite <- Hres. apply elem_residents. rewrite Hres.
    intros E. rewrite E in Hlen. simpl in Hlen. lia. }
  assert (Hsum :
    (sumQ (λ t, sumQ (λ g, sol (chef t g c)) (groups args data))
          (housemates data a)
     <= inject_Z (Z.max 1 (py_ceil_div
                             (Z.of_nat (length (housemates data a)))
                             (Z.of_nat (length (courses args))))))%Q).
  { assert (Hk : holds sol
      (LpLE (lpSum (i ← housemates data a; g ← groups args data;
                    [(1%Q, chef i g c)]))
            (num (Z.max 1 (py_ceil_div
                             (Z.of_nat (length (housemates data a)))
                             (Z.of_nat (length (courses args)))))))).
    { destruct (build_model_inr _ _ _ _ Hbuild) as (ci & _ & E & _).
      apply Hfeas. rewrite E, !elem_of_app. do 4 right.
      unfold constraints_tail. rewrite elem_of_app. right.
      unfold same_address. apply list_elem_of_bind.
      exists (a, housemates data a). split; [| done].
      rewrite decide_True by done. in_bind c. left. }
    simpl in Hk. rewrite value_lpSum, value_num, sumQ_bind in Hk.
    eapply Qle_trans; [| exact Hk]. apply Qle_lteq. right.
    apply sumQ_ext. intros t _. rewrite sumQ_bind1.
    apply sumQ_ext. intros g _. simpl. ring. }
  split; [exact Hsum |].
  intros Hfew t1 t2 g1 g2 H1 H2 Hne Hg1 Hg2 Hone.
  pose proof (courses_nonempty _ _ _ _ Hbuild) as HK.
  assert (Hbound : Z.max 1 (py_ceil_div
                              (Z.of_nat (length (housemates data a)))
                              (Z.of_nat (length (courses args)))) = 1%Z).
  { apply Z.max_l. unfold py_ceil_div.
    assert (- Z.of_nat (length (courses args))
            <= - Z.of_nat (length (housemates data a)))%Z by lia.
    assert (-1 <= (- Z.of_nat (length (housemates data a)))
                  `div` Z.of_nat (length (courses args)))%Z; [| lia].
    apply Z.div_le_lower_bound; lia. }
  rewrite Hbound in Hsum.
  assert (Hteam : ∀ t, t ∈ housemates data a → t ∈ teams data).
  { intros t (d & Hd & _)%elem_of_housemates.
    apply elem_of_teams. by apply lookup_lt_Some in Hd. }
  assert (Hpos : ∀ t g, t ∈ housemates data a → g ∈ groups args data →
                   (0 <= sol (chef t g c))%Q).
  { intros t g Ht Hg.
    destruct (binary_chef _ _ _ _ _ Hbuild Hfeas t g c (Hteam t Ht) Hg Hc)
      as [E | E]; rewrite E; lra. }
  pose proof (sumQ_two_le
    (λ t, sumQ (λ g, sol (chef t g c)) (groups args data))
    (housemates data a) t1 t2 (NoDup_housemates data a)) as Htwo.
  simpl in Htwo.
  assert (Hle : (sumQ (λ g, sol (chef t1 g c)) (groups args data)
                 + sumQ (λ g, sol (chef t2 g c)) (groups args data)
                 <= 1)%Q).
  { eapply Qle_trans; [| exact Hsum]. apply Htwo; try done.
    intros t Ht. apply sumQ_nonneg. intros g Hg. by apply Hpos. }
  pose proof (sumQ_elem_le (λ g, sol (chef t1 g c)) (groups args data) g1
                (λ g Hg, Hpos t1 g H1 Hg) Hg1) as Hle1.
  pose proof (sumQ_elem_le (λ g, sol (chef t2 g c)) (groups args data) g2
                (λ g Hg, Hpos t2 g H2 Hg) Hg2) as Hle2.
  simpl in Hle1, Hle2.
  destruct (binary_chef _ _ _ _ _ Hbuild Hfeas t2 g2 c (Hteam t2 H2) Hg2 Hc)
    as [E | E]; [done |].
  unfold inject_Z in Hle. lra.
Qed.

Lemma same_address_cooks_spread_witness :
  (sumQ (λ t, sumQ (λ g, quartet_large_solution (chef t g 1))
                   (groups quartet_large_args shared_data))
        (housemates shared_data "street 0")
   <= inject_Z (Z.max 1 (py_ceil_div
                 (Z.of_nat (length (housemates shared_data "street 0")))
                 (Z.of_nat (length (courses quartet_large_args))))))%Q
  ∧ (length (housemates shared_data "street 0")
     ≤ length (courses quartet_large_args) →
     ∀ t1 t2 g1 g2,
       t1 ∈ housemates shared_data "street 0" →
       t2 ∈ housemates shared_data "street 0" → t1 ≠ t2 →
       g1 ∈ groups quartet_large_args shared_data →
       g2 ∈ groups quartet_large_args shared_data →
       (quartet_large_solution (chef t1 g1 1) == 1)%Q →
       (quartet_large_solution (chef t2 g2 1) == 0)%Q).
Proof.
  assert (Hb : build_model quartet_large_args shared_data shared_matrix
               = inr shared_model) by (vm_compute; reflexivity).
  assert (Hf : feasible shared_model quartet_large_solution)
    by (apply feasibleb_feasible; vm_compute; reflexivity).
  assert (Hc : 1 ∈ courses quartet_large_args)
    by (apply elem_of_courses; vm_compute; lia).
  assert (Hl : 1 < length (housemates shared_data "street 0"))
    by (vm_compute; lia).
  exact (same_address_cooks_spread quartet_large_args shared_data
           shared_matrix shared_model quartet_large_solution "street 0" 1
           Hb Hf Hc Hl).
Defined.

(** ** The distance matrix of a run *)

Lemma symmetric_insert_both (dm : gmap dkey Z) a b c v :
  symmetric_routes dm →
  symmetric_routes (<[Route b a c := v]> (<[Route a b c := v]> dm)).
Proof.
  intros Hs i j c'. rewrite !lookup_insert, (Hs i j c'). unfold Route.
  repeat case_decide; simplify_eq; done.
Qed.

Lemma symmetric_insert_self (dm : gmap dkey Z) t c v :
  symmetric_routes dm → symmetric_routes (<[Route t t c := v]> dm).
Proof.
  intros Hs i j c'. rewrite !lookup_insert, (Hs i j c'). unfold Route.
  repeat case_decide; simplify_eq; done.
Qed.

Lemma symmetric_insert_afterparty (dm : gmap dkey Z) t v :
  symmetric_routes dm → symmetric_routes (<[Afterparty t := v]> dm).
Proof.
  intros Hs i j c. rewrite !lookup_insert_ne by done. apply Hs.
Qed.

Section Symmetric.
Context {GeoPoint : Type} {engine : TravelTimeEngine GeoPoint}.
Context (args : Args).
Hypothesis Hsym : asymetric_distances args = false.

Lemma route_pair_symmetric a b dm c dm' :
  route_pair args a b dm c = inr dm' →
  symmetric_routes dm → symmetric_routes dm'.
Proof.
  unfold route_pair. intros H Hs.
  destruct (datetimes args c) as [e | time]; simpl in H.
  { destruct (is_Exception e); [| discriminate].
    unfold route_failed, direct_distance in H.
    destruct (geo_name a.2); [discriminate |]. simpl in H.
    by destruct (geo_name b.2). }
  destruct (route_between_points a.2 b.2 time) as [e | rt]; simpl in H.
  { destruct (is_Exception e); [| discriminate].
    unfold route_failed, direct_distance in H.
    destruct (geo_name a.2); [discriminate |]. simpl in H.
    by destruct (geo_name b.2). }
  injection H as <-. rewrite Hsym. by apply symmetric_insert_both.
Qed.

Lemma route_pairs_symmetric geos dm :
  route_pairs args geos = inr dm → symmetric_routes dm.
Proof.
  unfold route_pairs. intros H.
  eapply (for_each_invariant _ symmetric_routes); [| | exact H].
  - intros s [a b] s' _ Hs Hstep.
    eapply (for_each_invariant _ symmetric_routes); [| exact Hs | exact Hstep].
    intros s1 c s2 _ Hs1 Hc. by eapply route_pair_symmetric.
  - by intros i j c.
Qed.

End Symmetric.

Section Afterparty.
Context {GeoPoint : Type} {engine : TravelTimeEngine GeoPoint}.
Context (args : Args).

Lemma foldl_insert_zero_symmetric (t : nat) (cs : list nat) (dm : gmap dkey Z) :
  symmetric_routes dm →
  symmetric_routes (foldl (λ m c, <[Route t t c := 0%Z]> m) dm cs)
  ∧ ∀ t', foldl (λ m c, <[Route t t c := 0%Z]> m) dm cs !! Afterparty t'
          = dm !! Afterparty t'.
Proof.
  revert dm. induction cs as [| c cs IH]; intros dm Hs; simpl; [done |].
  destruct (IH (<[Route t t c := 0%Z]> dm)) as [H1 H2];
    [by apply symmetric_insert_self |].
  split; [done |]. intros t'. by rewrite H2, lookup_insert_ne.
Qed.

Lemma route_afterparty_symmetric geos ap dm dm' :
  route_afterparty args geos ap dm = inr dm' →
  symmetric_routes dm → symmetric_routes dm'.
Proof.
  unfold route_afterparty. intros H Hs.
  eapply (for_each_invariant _ symmetric_routes); [| exact Hs | exact H].
  intros s [t geo] s' _ Hs1 Hstep.
  apply bind_inr in Hstep as (d & _ & Hstep). injection Hstep as <-.
  apply symmetric_insert_afterparty.
  by apply foldl_insert_zero_symmetric.
Qed.

(** Without an afterparty the way to it takes no time. *)
Lemma route_afterparty_none geos dm dm' :
  route_afterparty args geos None dm = inr dm' →
  ∀ t, t < length geos → dm' !! Afterparty t = Some 0%Z.
Proof.
  unfold route_afterparty. intros H t Ht.
  destruct (lookup_lt_is_Some_2 geos t Ht) as [geo Egeo].
  eapply (for_each_establishes _
            (λ p s, s !! Afterparty p.1 = Some 0%Z)) with (x := (t, geo));
    [| | exact H |].
  - intros s [t' geo'] s' _ Hstep. simpl in Hstep.
    injection Hstep as <-. apply lookup_insert_eq.
  - intros s [t1 g1] [t2 g2] s' _ H1 Hstep. simpl in *.
    injection Hstep as <-.
    destruct (decide (t2 = t1)) as [-> | Hne]; [apply lookup_insert_eq |].
    rewrite lookup_insert_ne by (unfold Afterparty; congruence).
    destruct (foldl_insert_zero t2 (courses args) s) as (_ & _ & Hp).
    by apply Hp.
  - by apply (elem_of_lookup_imap_2 pair).
Qed.

End Afterparty.

(** X13.  The distance matrix of a run that reaches the model has an entry
    for every pair of teams in every course and for the way of every team to
    the afterparty; a team is at no distance from itself; unless
    --asymetric-distances is given the entry from [i] to [j] is the entry
    from [j] to [i]; without --afterparty the way to the afterparty takes no
    time. *)
Theorem assembled_matrix_entries {GeoPoint : Type}
    {engine : TravelTimeEngine GeoPoint} (float : string → pyresult Q)
    (args : Args) (file : csv_file) (data : list team) (dm : gmap dkey Z) :
  assemble float args file = inr (data, dm) →
  ∀ i j c, i ∈ teams data → j ∈ teams data → c ∈ courses args →
    is_Some (dm !! Route i j c)
    ∧ dm !! Route i i c = Some 0%Z
    ∧ is_Some (dm !! Afterparty i)
    ∧ (asymetric_distances args = false →
       dm !! Route i j c = dm !! Route j i c)
    ∧ (afterparty args = None → dm !! Afterparty i = Some 0%Z).
Proof.
  intros H i j c Hi Hj Hc.
  destruct (assembled_matrix_complete float args file data dm H i j c
              Hi Hj Hc) as (H1 & H2 & H3).
  split; [done |]. split; [done |]. split; [done |].
  unfold assemble in H.
  apply bind_inr in H as (data' & _ & H).
  apply bind_inr in H as (? & _ & H).
  apply bind_inr in H as (geos & Hgeo & H).
  apply bind_inr in H as (ap & Hap & H).
  apply bind_inr in H as (dm1 & Hdm1 & H).
  apply bind_inr in H as (dm2 & Hdm2 & H).
  injection H as -> ->. split.
  - intros Hsym.
    apply (route_afterparty_symmetric args geos ap dm1 dm Hdm2).
    by apply (route_pairs_symmetric args Hsym geos).
  - intros Hnone. unfold geocode_afterparty in Hap. rewrite Hnone in Hap.
    injection Hap as <-.
    apply (route_afterparty_none args geos dm1 dm Hdm2).
    apply mapM_inr_length in Hgeo. apply elem_of_teams in Hi. lia.
Qed.

Lemma assembled_matrix_entries_witness :
  is_Some (quartet_matrix !! Route 0 3 1)
  ∧ quartet_matrix !! Route 0 0 1 = Some 0%Z
  ∧ is_Some (quartet_matrix !! Afterparty 0)
  ∧ (asymetric_distances quartet_args = false →
     quartet_matrix !! Route 0 3 1 = quartet_matrix !! Route 3 0 1)
  ∧ (afterparty quartet_args = None →
     quartet_matrix !! Afterparty 0 = Some 0%Z).
Proof.
  assert (H : assemble (engine := motis_like ten_minutes) float_cell
                quartet_args (roster 4) = inr (quartet_data, quartet_matrix))
    by (vm_compute; reflexivity).
  assert (Hi : 0 ∈ teams quartet_data)
    by (apply elem_of_teams; vm_compute; lia).
  assert (Hj : 3 ∈ teams quartet_data)
    by (apply elem_of_teams; vm_compute; lia).
  assert (Hc : 1 ∈ courses quartet_args)
    by (apply elem_of_courses; vm_compute; lia).
  exact (assembled_matrix_entries float_cell quartet_args (roster 4)
           quartet_data quartet_matrix H 0 3 1 Hi Hj Hc).
Defined.

(** ** Reading the file and running up to the model *)

Lemma mapM_inr_lookup {A B} (f : A → pyresult B) (l : list A) (ys : list B)
    (i : nat) (x : A) (y : B) :
  mapM f l = inr ys → l !! i = Some x → ys !! i = Some y → f x = inr y.
Proof.
  revert ys i. induction l as [| z l IH]; intros ys i H Hx Hy; [done |].
  simpl in H. apply bind_inr in H as (y' & Hy' & H).
  apply bind_inr in H as (k & Hk & H). injection H as <-.
  destruct i as [| i]; simpl in *.
  - by simplify_eq.
  - by apply (IH k i).
Qed.

Lemma for_each_inr_elem {A S} (f : S → A → pyresult S) (l : list A)
    (s s' : S) (x : A) :
  for_each f l s = inr s' → x ∈ l → ∃ s1 s2, f s1 x = inr s2.
Proof.
  revert s. induction l as [| y l IH]; intros s H Hx;
    [by apply elem_of_nil in Hx |].
  simpl in H. apply bind_inr in H as (s1 & H1 & H).
  apply elem_of_cons in Hx as [-> | Hx]; [by exists s, s1 |].
  by apply (IH s1).
Qed.

Section Reading.
Context {GeoPoint : Type} {engine : TravelTimeEngine GeoPoint}.
Context (float : string → pyresult Q) (args : Args) (file : csv_file).

Lemma cell_inr row i s : cell row i = inr s → row !! i = Some s.
Proof. unfold cell. destruct (row !! i); [by intros [= ->] | done]. Qed.

Lemma read_row_inr row d :
  read_row float args row = inr d →
  row !! 0 = Some (name d) ∧ row !! 1 = Some (addr d)
  ∧ row !! 2 = Some (tel d) ∧ row !! 3 = Some (diet d)
  ∧ (if ignore_preferences args then prefs d = []
     else length (prefs d) = length (courses args)
          ∧ ∀ c q, prefs d !! c = Some q →
              ∃ s, row !! (4 + c) = Some s ∧ float s = inr q).
Proof.
  unfold read_row. intros H.
  apply bind_inr in H as (n & Hn%cell_inr & H).
  apply bind_inr in H as (a & Ha%cell_inr & H).
  apply bind_inr in H as (t & Ht%cell_inr & H).
  apply bind_inr in H as (di & Hd%cell_inr & H).
  destruct (ignore_preferences args).
  - by injection H as <-.
  - apply bind_inr in H as (ps & Hps & H). injection H as <-. simpl.
    do 4 (split; [done |]). split.
    + apply mapM_inr_length in Hps. by rewrite Hps.
    + intros c q Hq.
      assert (Hc : courses args !! c = Some c).
      { unfold courses. apply lookup_seq. split; [done |].
        apply lookup_lt_Some in Hq. apply mapM_inr_length in Hps.
        unfold courses in Hps. rewrite length_seq in Hps. lia. }
      pose proof (mapM_inr_lookup _ _ _ _ _ _ Hps Hc Hq) as Hf.
      apply bind_inr in Hf as (s & Hs%cell_inr & Hf). by exists s.
Qed.

Lemma route_failed_inl {A} (a b : nat * GeoPoint) ex (x : A) :
  route_failed a b ex ≠ inr x.
Proof.
  unfold route_failed, direct_distance.
  destruct (geo_name a.2); [done |]. simpl.
  by destruct (geo_name b.2).
Qed.

(** The distance loop has no time for a fourth course. *)
Lemma route_pair_fourth_course a b dm c dm' :
  3 ≤ c → route_pair args a b dm c ≠ inr dm'.
Proof.
  intros Hc. unfold route_pair.
  assert (E : datetimes args c = inl (KeyError (pretty c)))
    by (by do 3 (destruct c as [| c]; [lia |])).
  rewrite E. simpl. apply route_failed_inl.
Qed.

End Reading.

(** X14.  When the file is read, the teams are its rows in their order: the
    first four cells of a row are the name, the address, the telephone and
    the diet; with --ignore-preferences no score is kept, and otherwise a
    team has one score per course, the number in the cell after the fourth
    for the course. *)
Theorem read_data_keeps_the_rows {GeoPoint : Type}
    {engine : TravelTimeEngine GeoPoint} (float : string → pyresult Q)
    (args : Args) (file : csv_file) (data : list team) :
  read_data float args file = inr data →
  length data = length (rows file)
  ∧ ∀ t d, data !! t = Some d →
      ∃ row, rows file !! t = Some row
        ∧ row !! 0 = Some (name d) ∧ row !! 1 = Some (addr d)
        ∧ row !! 2 = Some (tel d) ∧ row !! 3 = Some (diet d)
        ∧ (if ignore_preferences args then prefs d = []
           else length (prefs d) = length (courses args)
                ∧ ∀ c q, prefs d !! c = Some q →
                    ∃ s, row !! (4 + c) = Some s ∧ float s = inr q).
Proof.
  intros H. pose proof (read_data_length float args file data H) as Hlen.
  split; [done |]. intros t d Hd.
  unfold read_data in H. apply bind_inr in H as (? & _ & H).
  destruct (lookup_lt_is_Some_2 (rows file) t) as [row Hrow].
  { rewrite <- Hlen. by apply lookup_lt_Some in Hd. }
  exists row. split; [done |].
  apply (read_row_inr float args).
  by apply (mapM_inr_lookup _ _ _ _ _ _ H Hrow Hd).
Qed.

Lemma read_data_keeps_the_rows_witness :
  length quartet_data = length (rows (roster 4))
  ∧ ∀ t d, quartet_data !! t = Some d →
      ∃ row, rows (roster 4) !! t = Some row
        ∧ row !! 0 = Some (name d) ∧ row !! 1 = Some (addr d)
        ∧ row !! 2 = Some (tel d) ∧ row !! 3 = Some (diet d)
        ∧ (if ignore_preferences quartet_args then prefs d = []
           else length (prefs d) = length (courses quartet_args)
                ∧ ∀ c q, prefs d !! c = Some q →
                    ∃ s, row !! (4 + c) = Some s ∧ float_cell s = inr q).
Proof.
  assert (H : read_data float_cell quartet_args (roster 4) = inr quartet_data)
    by (vm_compute; reflexivity).
  exact (read_data_keeps_the_rows (engine := motis_like ten_minutes)
           float_cell quartet_args (roster 4) quartet_data H).
Defined.

(** X15.  With more than three courses no model is built, whatever the
    file: the table of the start times has no entry for a fourth course, and
    the distance loop stops at it (a file without teams stops later, in the
    builder). *)
Theorem more_than_three_courses_never_build {GeoPoint : Type}
    {engine : TravelTimeEngine GeoPoint} (float : string → pyresult Q)
    (args : Args) (file : csv_file) (prob : LpProblem) :
  (3 < num_courses args)%Z →
  assemble_and_build float args file ≠ inr prob.
Proof.
  intros HK H. unfold assemble_and_build in H.
  apply bind_inr in H as ([data dm] & Ha & Hb).
  destruct (build_model_inr _ _ _ _ Hb) as (_ & _ & _ & _ & _ & _ & Hn).
  unfold assemble in Ha.
  apply bind_inr in Ha as (data' & _ & Ha).
  apply bind_inr in Ha as (? & Hdiv & Ha).
  apply bind_inr in Ha as (geos & Hgeo & Ha).
  apply bind_inr in Ha as (ap & _ & Ha).
  apply bind_inr in Ha as (dm1 & Hdm1 & Ha).
  apply bind_inr in Ha as (dm2 & _ & Ha).
  injection Ha as -> ->.
  assert (Hlen : length (courses args) = Z.to_nat (num_courses args))
    by (unfold courses; by rewrite length_seq).
  unfold check_divisible in Hdiv.
  destruct (decide (length (courses args) = 0)); [done |].
  destruct (decide (length data `mod` length (courses args) ≠ 0)) as [| Hm];
    [done |].
  apply dec_stable in Hm. apply Nat.Lcm0.mod_divide in Hm as [k Hk].
  assert (Hc4 : 4 ≤ length (courses args)) by lia.
  assert (Hfour : 4 ≤ length data) by (destruct k; [lia | nia]).
  apply mapM_inr_length in Hgeo.
  destruct (lookup_lt_is_Some_2 geos 0) as [g0 E0]; [lia |].
  destruct (lookup_lt_is_Some_2 geos 1) as [g1 E1]; [lia |].
  assert (F0 : imap pair geos !! 0 = Some (0, g0))
    by (by rewrite list_lookup_imap, E0).
  assert (F1 : imap pair geos !! 1 = Some (1, g1))
    by (by rewrite list_lookup_imap, E1).
  unfold route_pairs in Hdm1.
  assert (Hpair : ((0, g0), (1, g1))
                    ∈ (if asymetric_distances args then permutations2
                       else combinations2) (imap pair geos)).
  { destruct (asymetric_distances args).
    - by apply (elem_of_permutations2 _ 0 1).
    - apply (elem_of_combinations2 _ 0 1); [done | done | lia]. }
  destruct (for_each_inr_elem _ _ _ _ _ Hdm1 Hpair) as (s1 & s2 & Hs).
  simpl in Hs.
  assert (H3 : 3 ∈ courses args) by (apply elem_of_courses; lia).
  destruct (for_each_inr_elem _ _ _ _ _ Hs H3) as (s3 & s4 & Hs').
  by apply (route_pair_fourth_course args) in Hs'.
Qed.

Lemma more_than_three_courses_never_build_witness :
  assemble_and_build (engine := motis_like ten_minutes) float_cell
    four_course_args (roster 8)
  ≠ inr quartet_model.
Proof.
  assert (HK : (3 < num_courses four_course_args)%Z) by (simpl; lia).
  exact (more_than_three_courses_never_build
           (engine := motis_like ten_minutes) float_cell four_course_args
           (roster 8) quartet_model HK).
Defined.

(** X16.  A file without teams never gives a model: after the header there
    is nothing to divide the distances by, and with the preferences in use
    no largest score. *)
Theorem no_team_no_model {GeoPoint : Type}
    {engine : TravelTimeEngine GeoPoint} (float : string → pyresult Q)
    (args : Args) (file : csv_file) :
  rows file = [] →
  check_headers args file = inr () →
  (0 < num_courses args)%Z →
  afterparty args = None →
  assemble_and_build float args file
  = inl (if ignore_preferences args then ZeroDivisionError
         else ValueError "max() arg is an empty sequence").
Proof.
  intros Hrows Hhead HK Hnone.
  assert (Hlen : length (courses args) ≠ 0)
    by (unfold courses; rewrite length_seq; lia).
  unfold assemble_and_build, assemble, read_data.
  rewrite Hhead, Hrows. simpl.
  unfold check_divisible. rewrite decide_False by done. simpl.
  rewrite decide_False by (rewrite Nat.Div0.mod_0_l; auto). simpl.
  unfold geocode_afterparty. rewrite Hnone. simpl.
  unfold route_pairs. simpl.
  destruct (asymetric_distances args); simpl;
    unfold build_model; rewrite decide_False by done; simpl;
    unfold max_pref; destruct (ignore_preferences args) eqn:E; simpl;
    try done; unfold preferences; rewrite E; done.
Qed.

Lemma no_team_no_model_witness :
  assemble_and_build (engine := motis_like ten_minutes) float_cell
    quartet_args (roster 0)
  = inl (if ignore_preferences quartet_args then ZeroDivisionError
         else ValueError "max() arg is an empty sequence").
Proof.
  assert (Hr : rows (roster 0) = []) by reflexivity.
  assert (Hh : check_headers quartet_args (roster 0) = inr ())
    by (vm_compute; reflexivity).
  assert (HK : (0 < num_courses quartet_args)%Z) by (simpl; lia).
  assert (Hn : afterparty quartet_args = None) by reflexivity.
  exact (no_team_no_model (engine := motis_like ten_minutes) float_cell
           quartet_args (roster 0) Hr Hh HK Hn).
Defined.

(** ** Who cooks, and who sits where *)

(** Among zeros and ones that add up to one, one is one and no other. *)
Lemma sumQ_one_unique `{EqDecision A} (f : A → Q) (l : list A) :
  NoDup l →
  (∀ x, x ∈ l → (f x == 0)%Q ∨ (f x == 1)%Q) →
  (sumQ f l == 1)%Q →
  ∃ x, x ∈ l ∧ (f x == 1)%Q ∧ ∀ y, y ∈ l → (f y == 1)%Q → y = x.
Proof.
  intros Hnd Hbin Hsum.
  assert (Hpos : (0 < sumQ f l)%Q) by (rewrite Hsum; lra).
  apply sumQ_pos_elem in Hpos as (x & Hx & Hpos).
  assert (H1 : (f x == 1)%Q) by (destruct (Hbin x Hx); [lra | done]).
  exists x. split; [done |]. split; [done |]. intros y Hy Hy1.
  destruct (decide (y = x)) as [| Hne]; [done | exfalso].
  assert (Hle : (f y + f x <= sumQ f l)%Q).
  { apply sumQ_two_le; try done.
    intros z Hz. destruct (Hbin z Hz) as [E | E]; rewrite E; lra. }
  lra.
Qed.

Section Single.
Context (args : Args) (data : list team) (distance_matrix : gmap dkey Z).
Context (prob : LpProblem) (sol : solution).
Hypothesis Hbuild : build_model args data distance_matrix = inr prob.
Hypothesis Hfeas : feasible prob sol.
Hypothesis Hone : length (courses args) = 1.
Context (t : nat).
Hypothesis Ht : t ∈ teams data.

Abbreviation courses := (courses args).
Abbreviation teams := (teams data).
Abbreviation groups := (groups args data).

(** With one course every team is the cook of its own group and goes
    nowhere. *)
Lemma single_course_itinerary :
  ∃ g, itinerary args data sol t = [(0, t, t, g)].
Proof.
  assert (Hc : 0 ∈ courses) by (apply elem_of_courses; lia).
  destruct (the_leg _ _ _ _ _ Hbuild Hfeas t Ht 0 Hc)
    as (i & j & g & E & Hi & Hj & Hg & H1).
  pose proof (first_leg_from_home _ _ _ _ _ Hbuild Hfeas t Ht i j g E) as ->.
  destruct (leg_assigned_to_chef _ _ _ _ _ Hbuild Hfeas t Ht 0 t j g
              Hc Ht Hj Hg H1) as [Ha Hch].
  assert (Haj : (sol (assignment j g 0) == 1)%Q).
  { apply binary_pos_one;
      [by apply (binary_assignment _ _ _ _ _ Hbuild Hfeas) |].
    pose proof (chef_le_assignment _ _ _ _ _ Hbuild Hfeas j g 0 Hj Hg Hc).
    lra. }
  assert (j = t) as ->.
  { destruct (decide (j = t)) as [| Hne]; [done | exfalso].
    pose proof (group_size_holds _ _ _ _ _ Hbuild Hfeas g 0 Hg Hc) as Hsize.
    rewrite Hone in Hsize. change (inject_Z (Z.of_nat 1)) with 1%Q in Hsize.
    assert (Hle : (sol (assignment j g 0) + sol (assignment t g 0)
                   <= sumQ (λ u, sol (assignment u g 0)) teams)%Q).
    { apply (sumQ_two_le (λ u, sol (assignment u g 0))); try done.
      - apply NoDup_seq.
      - intros z Hz. apply binary_nonneg.
        by apply (binary_assignment _ _ _ _ _ Hbuild Hfeas). }
    rewrite Hsize, Haj, Ha in Hle. lra. }
  exists g. rewrite itinerary_by_course, (courses_seq args), Hone. simpl.
  by rewrite E.
Qed.

End Single.

(** X17.  With a single course no plan exists when some travel is asked for
    (--min-travel is 1 unless given): every team cooks for itself alone and
    stays at home, so its travel counts nothing. *)
Theorem single_course_infeasible_with_min_travel args data distance_matrix
    prob sol :
  build_model args data distance_matrix = inr prob →
  num_courses args = 1%Z →
  (0 < min_travel args)%Z →
  ¬ feasible prob sol.
Proof.
  intros Hbuild HK Hmin Hfeas.
  assert (Hone : length (courses args) = 1)
    by (unfold courses; rewrite length_seq, HK; done).
  destruct (build_model_inr _ _ _ _ Hbuild) as (_ & _ & _ & _ & _ & _ & Hn).
  assert (Ht : 0 ∈ teams data) by (apply elem_of_teams; lia).
  destruct (single_course_itinerary _ _ _ _ _ Hbuild Hfeas Hone 0 Ht)
    as (g & E).
  pose proof (min_time_in_model _ _ _ _ _ Hbuild Ht) as Hin.
  apply Hfeas in Hin. simpl in Hin. rewrite value_lpSum, value_num in Hin.
  unfold min_time_terms in Hin.
  rewrite (value_arc_terms args data sol 0
             (λ c i j, dist distance_matrix i j c)) in Hin.
  rewrite (arc_terms_itinerary _ _ _ _ _ Hbuild Hfeas 0 Ht
             (λ c i j, dist distance_matrix i j c)) in Hin.
  rewrite E in Hin. simpl in Hin.
  assert (inject_Z (min_travel args) <= inject_Z 0)%Q as Hle
    by (unfold inject_Z at 2; lra).
  rewrite <- Zle_Qle in Hle. lia.
Qed.

Lemma single_course_infeasible_with_min_travel_witness :
  ¬ feasible solo_model quartet_solution.
Proof.
  assert (Hb : build_model solo_args solo_data solo_matrix = inr solo_model)
    by (vm_compute; reflexivity).
  assert (HK : num_courses solo_args = 1%Z) by reflexivity.
  assert (Hm : (0 < min_travel solo_args)%Z) by (simpl; lia).
  exact (single_course_infeasible_with_min_travel solo_args solo_data
           solo_matrix solo_model quartet_solution Hb HK Hm).
Defined.

Section Cooks.
Context (args : Args) (data : list team) (distance_matrix : gmap dkey Z).
Context (prob : LpProblem) (sol : solution).
Hypothesis Hbuild : build_model args data distance_matrix = inr prob.
Hypothesis Hfeas : feasible prob sol.

Abbreviation courses := (courses args).
Abbreviation teams := (teams data).
Abbreviation groups := (groups args data).

Lemma chef_nonneg t g c :
  t ∈ teams → g ∈ groups → c ∈ courses → (0 <= sol (chef t g c))%Q.
Proof.
  intros Ht Hg Hc. apply binary_nonneg.
  by apply (binary_chef _ _ _ _ _ Hbuild Hfeas).
Qed.

(** A team cooks in one group and one course. *)
Lemma cooks_once t :
  t ∈ teams →
  ∃ g c, g ∈ groups ∧ c ∈ courses ∧ (sol (chef t g c) == 1)%Q
         ∧ ∀ g' c', g' ∈ groups → c' ∈ courses →
             (sol (chef t g' c') == 1)%Q → g' = g ∧ c' = c.
Proof.
  intros Ht.
  pose proof (chef_exactly_once _ _ _ _ _ Hbuild Hfeas t Ht) as Hsum.
  assert (Hpos : (0 < sumQ (λ g, sumQ (λ c, sol (chef t g c)) courses)
                        groups)%Q) by (rewrite Hsum; lra).
  apply sumQ_pos_elem in Hpos as (g & Hg & Hpos).
  apply sumQ_pos_elem in Hpos as (c & Hc & Hpos).
  apply binary_pos_one in Hpos;
    [| by apply (binary_chef _ _ _ _ _ Hbuild Hfeas)].
  exists g, c. split; [done |]. split; [done |]. split; [done |].
  intros g' c' Hg' Hc' H1.
  assert (Hin : ∀ g0 c0, g0 ∈ groups → c0 ∈ courses →
            (sol (chef t g0 c0)
             <= sumQ (λ c, sol (chef t g0 c)) courses)%Q).
  { intros g0 c0 Hg0 Hc0.
    apply (sumQ_elem_le (λ c, sol (chef t g0 c))); [| done].
    intros c1 Hc1. by apply chef_nonneg. }
  assert (Hrow : ∀ g0, g0 ∈ groups →
            (0 <= sumQ (λ c, sol (chef t g0 c)) courses)%Q).
  { intros g0 Hg0. apply sumQ_nonneg. intros c0 Hc0. by apply chef_nonneg. }
  destruct (decide (g' = g)) as [-> | Hg_ne].
  - split; [done |].
    destruct (decide (c' = c)) as [| Hc_ne]; [done | exfalso].
    assert (Hle : (sol (chef t g c') + sol (chef t g c)
                   <= sumQ (λ c, sol (chef t g c)) courses)%Q).
    { apply (sumQ_two_le (λ c, sol (chef t g c))); try done.
      - apply NoDup_seq.
      - intros c1 Hc1. by apply chef_nonneg. }
    pose proof (sumQ_elem_le
      (λ g, sumQ (λ c, sol (chef t g c)) courses) groups g Hrow Hg) as Hout.
    simpl in Hout. lra.
  - exfalso.
    pose proof (sumQ_two_le
      (λ g, sumQ (λ c, sol (chef t g c)) courses) groups g' g
      (NoDup_seq _ _) Hrow Hg' Hg Hg_ne) as Hout.
    simpl in Hout.
    pose proof (Hin g' c' Hg' Hc'). pose proof (Hin g c Hg Hc). lra.
Qed.

(** A course at the sentinel is not cooked. *)
Lemma barred_not_cooked t g c :
  ignore_preferences args = false →
  t ∈ teams → g ∈ groups → c ∈ courses →
  (pref data t c <= -1000)%Q → (sol (chef t g c) == 0)%Q.
Proof.
  intros Hon Ht Hg Hc Hle.
  assert (Hk : holds sol (LpEQ (var (chef t g c)) (num 0))).
  { destruct (build_model_inr _ _ _ _ Hbuild) as (ci & _ & E & _).
    apply Hfeas. rewrite E, !elem_of_app. right. left.
    apply elem_of_no_chef; [done |]. by exists t, g, c. }
  simpl in Hk. by rewrite value_var, value_num in Hk.
Qed.

(** The members of a decoded group are the teams assigned to it. *)
Lemma decoded_members c g u :
  c ∈ courses → g ∈ groups →
  (cook (decode_group data sol c g) = Some u
   ∨ u ∈ guests (decode_group data sol c g))
  ↔ u ∈ teams ∧ (sol (assignment u g c) == 1)%Q.
Proof.
  intros Hc Hg.
  destruct (roster_has_one_cook _ _ _ _ _ c g Hbuild Hfeas Hc Hg)
    as (t & Eind & Ecook).
  assert (Hin : t ∈ chef_indicators data sol c g) by (rewrite Eind; left).
  unfold chef_indicators in Hin. apply list_elem_of_filter in Hin
    as [[Ha Hch] Ht].
  apply Qeq_bool_iff in Ha.
  assert (Eguests : guests (decode_group data sol c g)
            = filter (λ u, is_one sol (assignment u g c) = true
                           ∧ ¬ is_one sol (chef u g c) = true) teams).
  { unfold decode_group. by rewrite visit_members. }
  rewrite Ecook, Eguests, list_elem_of_filter. split.
  - intros [[= <-] | [[Hu _] Hin]]; [done |].
    split; [done | by apply Qeq_bool_iff].
  - intros [Hu Hau].
    destruct (decide (is_one sol (chef u g c) = true)) as [Hcu | Hcu].
    + left.
      assert (Hu' : u ∈ chef_indicators data sol c g).
      { apply list_elem_of_filter. split; [| done].
        split; [by apply Qeq_bool_iff | done]. }
      rewrite Eind in Hu'. apply list_elem_of_singleton in Hu'. by subst.
    + right. split; [| done]. split; [by apply Qeq_bool_iff | done].
Qed.

End Cooks.



(** X19.  With the preferences in use, a team whose score is at the
    sentinel for every course leaves the model without a feasible
    solution. *)
Theorem team_barred_everywhere_infeasible args data distance_matrix prob sol
    t :
  build_model args data distance_matrix = inr prob →
  ignore_preferences args = false →
  t ∈ teams data →
  (∀ c, c ∈ courses args → (pref data t c <= -1000)%Q) →
  ¬ feasible prob sol.
Proof.
  intros Hbuild Hon Ht Hbar Hfeas.
  destruct (cooks_once _ _ _ _ _ Hbuild Hfeas t Ht)
    as (g & c & Hg & Hc & H1 & _).
  pose proof (barred_not_cooked _ _ _ _ _ Hbuild Hfeas t g c Hon Ht Hg Hc
                (Hbar c Hc)).
  lra.
Qed.

Lemma team_barred_everywhere_infeasible_witness :
  ¬ feasible barred_model duo_solution.
Proof.
  assert (Hb : build_model duo_args barred_data barred_matrix
               = inr barred_model) by (vm_compute; reflexivity).
  assert (Hon : ignore_preferences duo_args = false) by reflexivity.
  assert (Ht : 0 ∈ teams barred_data)
    by (apply elem_of_teams; vm_compute; lia).
  assert (Hbar : ∀ c, c ∈ courses duo_args →
                   (pref barred_data 0 c <= -1000)%Q).
  { intros c Hc. apply elem_of_courses in Hc. vm_compute in Hc.
    destruct c as [| [| c]]; [| | lia]; vm_compute; discriminate. }
  exact (team_barred_everywhere_infeasible duo_args barred_data
           barred_matrix barred_model duo_solution 0 Hb Hon Ht Hbar).
Defined.

(** X20.  In the group view of a feasible solution every team sits, in
    every course, in exactly one group, as its cook or as one of its
    guests. *)
Theorem every_team_in_one_decoded_group args data distance_matrix prob sol
    u c :
  build_model args data distance_matrix = inr prob →
  feasible prob sol →
  u ∈ teams data → c ∈ courses args →
  ∃ g, g ∈ groups args data
    ∧ (cook (decode_group data sol c g) = Some u
       ∨ u ∈ guests (decode_group data sol c g))
    ∧ ∀ g', g' ∈ groups args data →
        cook (decode_group data sol c g') = Some u
        ∨ u ∈ guests (decode_group data sol c g') →
        g' = g.
Proof.
  intros Hbuild Hfeas Hu Hc.
  destruct (sumQ_one_unique (λ g, sol (assignment u g c)) (groups args data))
    as (g & Hg & H1 & Huniq).
  - apply NoDup_seq.
  - intros g Hg. by apply (binary_assignment _ _ _ _ _ Hbuild Hfeas).
  - by apply (team_in_one_group _ _ _ _ _ Hbuild Hfeas).
  - exists g. split; [done |]. split.
    + by apply (decoded_members _ _ _ _ _ Hbuild Hfeas).
    + intros g' Hg' Hmem. apply Huniq; [done |].
      by apply (decoded_members _ _ _ _ _ Hbuild Hfeas c g' u Hc Hg') in Hmem
        as [_ ?].
Qed.

Lemma every_team_in_one_decoded_group_witness :
  ∃ g, g ∈ groups quartet_args quartet_data
    ∧ (cook (decode_group quartet_data quartet_solution 1 g) = Some 3
       ∨ 3 ∈ guests (decode_group quartet_data quartet_solution 1 g))
    ∧ ∀ g', g' ∈ groups quartet_args quartet_data →
        cook (decode_group quartet_data quartet_solution 1 g') = Some 3
        ∨ 3 ∈ guests (decode_group quartet_data quartet_solution 1 g') →
        g' = g.
Proof.
  assert (Hb : build_model quartet_args quartet_data quartet_matrix
               = inr quartet_model) by (vm_compute; reflexivity).
  assert (Hf : feasible quartet_model quartet_solution)
    by (apply feasibleb_feasible; vm_compute; reflexivity).
  assert (Hu : 3 ∈ teams quartet_data)
    by (apply elem_of_teams; vm_compute; lia).
  assert (Hc : 1 ∈ courses quartet_args)
    by (apply elem_of_courses; vm_compute; lia).
  exact (every_team_in_one_decoded_group quartet_args quartet_data
           quartet_matrix quartet_model quartet_solution 3 1 Hb Hf Hu Hc).
Defined.

(** ** The team view against the group view *)

Section Views.
Context (args : Args) (data : list team) (distance_matrix : gmap dkey Z).
Context (prob : LpProblem) (sol : solution).
Hypothesis Hbuild : build_model args data distance_matrix = inr prob.
Hypothesis Hfeas : feasible prob sol.

Abbreviation courses := (courses args).
Abbreviation teams := (teams data).
Abbreviation groups := (groups args data).

(** The team with the chef indicator is the decoded cook. *)
Lemma cook_of_group c g j :
  c ∈ courses → g ∈ groups → j ∈ teams →
  (sol (chef j g c) == 1)%Q →
  cook (decode_group data sol c g) = Some j.
Proof.
  intros Hc Hg Hj H1.
  destruct (roster_has_one_cook _ _ _ _ _ c g Hbuild Hfeas Hc Hg)
    as (t0 & Eind & Ecook).
  assert (Hin : j ∈ chef_indicators data sol c g).
  { apply list_elem_of_filter. split; [| done].
    split; apply Qeq_bool_iff; [| done].
    apply binary_pos_one;
      [by apply (binary_assignment _ _ _ _ _ Hbuild Hfeas) |].
    pose proof (chef_le_assignment _ _ _ _ _ Hbuild Hfeas j g c Hj Hg Hc).
    lra. }
  rewrite Eind in Hin. apply list_elem_of_singleton in Hin. by subst.
Qed.

(** The entry of the itinerary of a team for a course. *)
Lemma itinerary_at t c :
  t ∈ teams → c ∈ courses →
  itinerary args data sol t !! c = head (legs_in args data sol t c).
Proof.
  intros Ht Hc.
  destruct (bind_singletons (legs_in args data sol t) courses) as [_ Hget].
  { intros c' Hc'. by eapply legs_in_length. }
  rewrite itinerary_by_course. apply Hget.
  rewrite courses_seq. apply elem_of_courses in Hc. by rewrite lookup_seq_lt.
Qed.

(** Two teams are together in a group in one course at most. *)
Lemma never_meet_twice t1 t2 c1 c2 g1 g2 :
  can_meet_again args = false →
  t1 ∈ teams → t2 ∈ teams → t1 ≠ t2 →
  c1 ∈ courses → c2 ∈ courses → c1 ≠ c2 →
  g1 ∈ groups → g2 ∈ groups →
  (sol (assignment t1 g1 c1) == 1)%Q → (sol (assignment t2 g1 c1) == 1)%Q →
  (sol (assignment t1 g2 c2) == 1)%Q → (sol (assignment t2 g2 c2) == 1)%Q →
  False.
Proof.
  intros Hoff Ht1 Ht2 Hne Hc1 Hc2 Hcne Hg1 Hg2 H1 H2 H3 H4.
  apply elem_of_teams in Ht1, Ht2. apply elem_of_courses in Hc1, Hc2.
  assert (Hn : length teams = length data)
    by (unfold teams; by rewrite length_seq).
  pose proof (meet_once_ordered args data distance_matrix prob sol
                t1 t2 c1 c2 g1 g2 Hbuild Hoff Hfeas) as Ha.
  pose proof (meet_once_ordered args data distance_matrix prob sol
                t2 t1 c1 c2 g1 g2 Hbuild Hoff Hfeas) as Hb.
  pose proof (meet_once_ordered args data distance_matrix prob sol
                t1 t2 c2 c1 g2 g1 Hbuild Hoff Hfeas) as Hc.
  pose proof (meet_once_ordered args data distance_matrix prob sol
                t2 t1 c2 c1 g2 g1 Hbuild Hoff Hfeas) as Hd.
  destruct (decide (t1 < t2)), (decide (c1 < c2)).
  - specialize (Ha ltac:(lia) ltac:(lia) Hg1 Hg2). lra.
  - specialize (Hc ltac:(lia) ltac:(lia) Hg2 Hg1). lra.
  - specialize (Hb ltac:(lia) ltac:(lia) Hg1 Hg2). lra.
  - specialize (Hd ltac:(lia) ltac:(lia) Hg2 Hg1). lra.
Qed.

End Views.

(** X21.  The team view follows the group view: the entry of a team for a
    course names a group of that course in which the team sits, and its
    duration is the matrix entry for the way to the cook of that group,
    from the team's own place in the first course and from the cook of the
    group of the course before afterwards. *)
Theorem team_view_follows_group_view args data distance_matrix prob sol t c
    l :
  build_model args data distance_matrix = inr prob →
  feasible prob sol →
  t ∈ teams data →
  tour (walk_team args data distance_matrix sol t) !! c = Some l →
  gang l = c
  ∧ group l ∈ groups args data
  ∧ (cook (decode_group data sol c (group l)) = Some t
     ∨ t ∈ guests (decode_group data sol c (group l)))
  ∧ ∃ i j,
      cook (decode_group data sol c (group l)) = Some j
      ∧ approx_duration l = distance_matrix !!! Route i j c
      ∧ match c with
        | 0 => i = t
        | S c' =>
            ∃ l', tour (walk_team args data distance_matrix sol t) !! c'
                  = Some l'
                  ∧ cook (decode_group data sol c' (group l')) = Some i
        end.
Proof.
  intros Hbuild Hfeas Ht Hl.
  assert (Etour : tour (walk_team args data distance_matrix sol t)
                  = leg_of distance_matrix <$> itinerary args data sol t).
  { unfold walk_team. by rewrite walk_tour. }
  rewrite Etour in Hl |- *.
  apply list_lookup_fmap_Some in Hl as (x & -> & Hx).
  destruct (itinerary_lookup _ _ _ _ _ Hbuild Hfeas t Ht c x Hx)
    as (Hc & E & Ecourse).
  assert (Hin : x ∈ legs_in args data sol t c) by (rewrite E; left).
  apply elem_of_legs_in in Hin as (i & j & g & -> & Hi & Hj & Hg & H1).
  destruct (leg_assigned_to_chef _ _ _ _ _ Hbuild Hfeas t Ht c i j g
              Hc Hi Hj Hg H1) as [Ha Hch].
  unfold leg_of, leg_course, leg_origin, leg_destination, leg_group. simpl.
  split; [done |]. split; [done |]. split.
  { by apply (decoded_members _ _ _ _ _ Hbuild Hfeas). }
  exists i, j. split.
  { by apply (cook_of_group _ _ _ _ _ Hbuild Hfeas). }
  split; [done |].
  destruct c as [| c'].
  - by apply (first_leg_from_home _ _ _ _ _ Hbuild Hfeas t Ht i j g).
  - assert (Hc' : c' ∈ courses args)
      by (apply elem_of_courses; apply elem_of_courses in Hc; lia).
    destruct (the_leg _ _ _ _ _ Hbuild Hfeas t Ht c' Hc')
      as (i0 & j0 & g0 & E0 & Hi0 & Hj0 & Hg0 & H10).
    pose proof (legs_chain _ _ _ _ _ Hbuild Hfeas t Ht c' i0 j0 g0 i j g
                  Hc E0 E) as ->.
    exists (leg_of distance_matrix (c', i0, j0, g0)). split.
    + rewrite list_lookup_fmap,
        (itinerary_at _ _ _ _ _ Hbuild Hfeas t c' Ht Hc'), E0. done.
    + destruct (leg_assigned_to_chef _ _ _ _ _ Hbuild Hfeas t Ht c' i0 j0 g0
                  Hc' Hi0 Hj0 Hg0 H10) as [_ Hch0].
      by apply (cook_of_group _ _ _ _ _ Hbuild Hfeas).
Qed.

Lemma team_view_follows_group_view_witness :
  gang {| approx_duration := 10; group := 0; gang := 1 |} = 1
  ∧ group {| approx_duration := 10; group := 0; gang := 1 |}
    ∈ groups quartet_args quartet_data
  ∧ (cook (decode_group quartet_data quartet_solution 1 0) = Some 0
     ∨ 0 ∈ guests (decode_group quartet_data quartet_solution 1 0))
  ∧ ∃ i j,
      cook (decode_group quartet_data quartet_solution 1 0) = Some j
      ∧ 10%Z = quartet_matrix !!! Route i j 1
      ∧ ∃ l', tour (walk_team quartet_args quartet_data quartet_matrix
                      quartet_solution 0) !! 0 = Some l'
              ∧ cook (decode_group quartet_data quartet_solution 0
                        (group l')) = Some i.
Proof.
  assert (Hb : build_model quartet_args quartet_data quartet_matrix
               = inr quartet_model) by (vm_compute; reflexivity).
  assert (Hf : feasible quartet_model quartet_solution)
    by (apply feasibleb_feasible; vm_compute; reflexivity).
  assert (Ht : 0 ∈ teams quartet_data)
    by (apply elem_of_teams; vm_compute; lia).
  assert (Hl : tour (walk_team quartet_args quartet_data quartet_matrix
                       quartet_solution 0) !! 1
               = Some {| approx_duration := 10; group := 0; gang := 1 |})
    by (vm_compute; reflexivity).
  exact (team_view_follows_group_view quartet_args quartet_data
           quartet_matrix quartet_model quartet_solution 0 1 _ Hb Hf Ht Hl).
Defined.

(** X22.  Unless --can-meet-again is given, two teams that sit together in
    a group of the group view do not sit together in any group of another
    course. *)
Theorem decoded_groups_meet_once args data distance_matrix prob sol u v c1 c2
    g1 g2 :
  build_model args data distance_matrix = inr prob →
  feasible prob sol →
  can_meet_again args = false →
  u ≠ v →
  c1 ∈ courses args → c2 ∈ courses args → c1 ≠ c2 →
  g1 ∈ groups args data → g2 ∈ groups args data →
  cook (decode_group data sol c1 g1) = Some u
  ∨ u ∈ guests (decode_group data sol c1 g1) →
  cook (decode_group data sol c1 g1) = Some v
  ∨ v ∈ guests (decode_group data sol c1 g1) →
  cook (decode_group data sol c2 g2) = Some u
  ∨ u ∈ guests (decode_group data sol c2 g2) →
  ¬ (cook (decode_group data sol c2 g2) = Some v
     ∨ v ∈ guests (decode_group data sol c2 g2)).
Proof.
  intros Hbuild Hfeas Hoff Hne Hc1 Hc2 Hcne Hg1 Hg2 Hu1 Hv1 Hu2 Hv2.
  apply (decoded_members _ _ _ _ _ Hbuild Hfeas c1 g1 u Hc1 Hg1) in Hu1
    as [Hu A1].
  apply (decoded_members _ _ _ _ _ Hbuild Hfeas c1 g1 v Hc1 Hg1) in Hv1
    as [Hv A2].
  apply (decoded_members _ _ _ _ _ Hbuild Hfeas c2 g2 u Hc2 Hg2) in Hu2
    as [_ A3].
  apply (decoded_members _ _ _ _ _ Hbuild Hfeas c2 g2 v Hc2 Hg2) in Hv2
    as [_ A4].
  exact (never_meet_twice _ _ _ _ _ Hbuild Hfeas u v c1 c2 g1 g2 Hoff
           Hu Hv Hne Hc1 Hc2 Hcne Hg1 Hg2 A1 A2 A3 A4).
Qed.

Lemma decoded_groups_meet_once_witness :
  ¬ (cook (decode_group quartet_data quartet_solution 1 0) = Some 1
     ∨ 1 ∈ guests (decode_group quartet_data quartet_solution 1 0)).
Proof.
  assert (Hb : build_model quartet_args quartet_data quartet_matrix
               = inr quartet_model) by (vm_compute; reflexivity).
  assert (Hf : feasible quartet_model quartet_solution)
    by (apply feasibleb_feasible; vm_compute; reflexivity).
  assert (Hoff : can_meet_again quartet_args = false) by reflexivity.
  assert (Hne : 0 ≠ 1) by lia.
  assert (Hc1 : 0 ∈ courses quartet_args)
    by (apply elem_of_courses; vm_compute; lia).
  assert (Hc2 : 1 ∈ courses quartet_args)
    by (apply elem_of_courses; vm_compute; lia).
  assert (Hcne : 0 ≠ 1) by lia.
  assert (Hg : 0 ∈ groups quartet_args quartet_data)
    by (apply (bool_decide_unpack _); vm_compute; exact I).
  assert (Hu1 : cook (decode_group quartet_data quartet_solution 0 0) = Some 0
                ∨ 0 ∈ guests (decode_group quartet_data quartet_solution 0 0))
    by (left; vm_compute; reflexivity).
  assert (Hv1 : cook (decode_group quartet_data quartet_solution 0 0) = Some 1
                ∨ 1 ∈ guests (decode_group quartet_data quartet_solution 0 0))
    by (right; apply (bool_decide_unpack _); vm_compute; exact I).
  assert (Hu2 : cook (decode_group quartet_data quartet_solution 1 0) = Some 0
                ∨ 0 ∈ guests (decode_group quartet_data quartet_solution 1 0))
    by (right; apply (bool_decide_unpack _); vm_compute; exact I).
  exact (decoded_groups_meet_once quartet_args quartet_data quartet_matrix
           quartet_model quartet_solution 0 1 0 1 0 0 Hb Hf Hoff Hne
           Hc1 Hc2 Hcne Hg Hg Hu1 Hv1 Hu2).
Defined.

(** ** The value of maxDuration in an optimal solution *)

Lemma value_with_max_duration m sol e :
  free_of_max_duration e → value (with_max_duration m sol) e = value sol e.
Proof.
  unfold free_of_max_duration, value. intros H. f_equal.
  induction H as [| [q v] l Hv _ IH]; [done |].
  simpl in *. rewrite IH. by destruct v.
Qed.

Lemma holds_with_max_duration m sol k :
  constraint_free_of_max_duration k →
  holds sol k → holds (with_max_duration m sol) k.
Proof.
  destruct k as [l r | l r | l r]; intros [Hl Hr]; simpl;
    by rewrite !value_with_max_duration.
Qed.

Ltac free_of_max :=
  repeat first
    [ apply Forall_nil_2
    | apply Forall_cons_2
    | apply Forall_app_2
    | (apply Forall_bind, Forall_forall; intros ? _; unfold compose)
    | discriminate
    | match goal with
      | |- constraint_free_of_max_duration _ =>
          unfold constraint_free_of_max_duration, free_of_max_duration,
            var, num, lpSum; cbn [terms fst snd]; split
      | |- Forall _ (if ?b then _ else _) => destruct b
      | |- Forall _ (let '(_, _) := ?x in _) => destruct x
      end ].

Lemma mapM_inr_Forall {A B} (f : A → pyresult B) (P : B → Prop) (l : list A)
    (ys : list B) :
  (∀ x y, x ∈ l → f x = inr y → P y) → mapM f l = inr ys → Forall P ys.
Proof.
  revert ys. induction l as [| x l IH]; intros ys Hf H; simpl in H.
  - injection H as <-. constructor.
  - apply bind_inr in H as (y & Hy & H).
    apply bind_inr in H as (k & Hk & H). injection H as <-.
    constructor; [apply (Hf x); [left | done] |].
    apply IH; [| done]. intros z w Hz. apply Hf. by right.
Qed.

Section FreeOfMax.
Context (args : Args) (data : list team) (distance_matrix : gmap dkey Z).

Lemma free_before_no_chef :
  Forall constraint_free_of_max_duration
         (constraints_before_no_chef args data).
Proof.
  unfold constraints_before_no_chef, one_group_per_course, group_size,
    meet_once.
  free_of_max.
Qed.

Lemma free_no_chef :
  Forall constraint_free_of_max_duration (no_chef args data).
Proof. unfold no_chef. free_of_max. Qed.

Lemma free_routing_before_max_dist :
  Forall constraint_free_of_max_duration
    (one_chef_per_group args data ++ chef_once args data
     ++ chef_if_assigned args data ++ arc_if_assigned args data
     ++ start_at_self args data ++ go_to_chef args data
     ++ leave_if_entering args data).
Proof.
  unfold one_chef_per_group, chef_once, chef_if_assigned, arc_if_assigned,
    start_at_self, go_to_chef, leave_if_entering.
  free_of_max.
Qed.

Lemma free_routing_after_max_dist :
  Forall constraint_free_of_max_duration
    (min_time args data distance_matrix
     ++ no_short_hop args data distance_matrix).
Proof.
  unfold min_time, min_time_terms, no_short_hop. free_of_max.
Qed.

Lemma free_tail :
  Forall constraint_free_of_max_duration (constraints_tail args data).
Proof.
  unfold constraints_tail, large_team_constraints, same_address.
  free_of_max.
Qed.

Lemma free_cook_incompatible ci :
  cook_incompatible_constraints args data = inr ci →
  Forall constraint_free_of_max_duration ci.
Proof.
  unfold cook_incompatible_constraints. intros H.
  apply fmap_inr in H as (L1 & HL1 & ->).
  apply Forall_join.
  eapply mapM_inr_Forall; [| exact HL1].
  intros [t1 t2] y _ Hy. apply fmap_inr in Hy as (L2 & HL2 & ->).
  apply Forall_join.
  eapply mapM_inr_Forall; [| exact HL2].
  intros c z _ Hz.
  eapply mapM_inr_Forall; [| exact Hz].
  intros g k _ Hk.
  apply bind_inr in Hk as (a & Ha & Hk).
  apply bind_inr in Hk as (ch & Hch & Hk). injection Hk as <-.
  apply getitem_inr in Ha as [_ ->]. apply getitem_inr in Hch as [_ ->].
  free_of_max.
Qed.

Lemma free_leg_costs t :
  free_of_max_duration
    (lpSum (c ← courses args; i ← teams data; j ← teams data;
            g ← groups args data;
            if decide (j ≠ i)
            then [(leg_cost args distance_matrix c i j, arc c i j t g)]
            else [])).
Proof. unfold free_of_max_duration, lpSum. cbn [terms]. free_of_max. Qed.

Lemma binaries_not_max v :
  v ∈ declared_binaries args data → v ≠ maxDuration.
Proof.
  revert v. apply Forall_forall. unfold declared_binaries. free_of_max.
Qed.

End FreeOfMax.

Lemma max_distance_nonneg (ds : list Z) : (0 <= max_distance ds)%Z.
Proof. induction ds as [| d ds IH]; simpl; lia. Qed.

Lemma max_distance_ge (ds : list Z) (d : Z) :
  d ∈ ds → (d <= max_distance ds)%Z.
Proof.
  induction ds as [| d' ds IH]; intros Hd; [by apply elem_of_nil in Hd |].
  simpl. apply elem_of_cons in Hd as [-> | Hd]; [lia |].
  specialize (IH Hd). lia.
Qed.

Lemma max_distance_upper (ds : list Z) (q : Q) :
  (0 <= q)%Q → (∀ d, d ∈ ds → (inject_Z d <= q)%Q) →
  (inject_Z (max_distance ds) <= q)%Q.
Proof.
  intros Hq. induction ds as [| d ds IH]; intros H; [done |].
  simpl. destruct (Z.max_spec d (max_distance ds)) as [[_ ->] | [_ ->]].
  - apply IH. intros d' Hd'. apply H. by right.
  - apply H. left.
Qed.

(** The objective: [maxDuration], unless it is ignored, and terms on other
    variables. *)
Lemma objective_shape args data distance_matrix prob :
  build_model args data distance_matrix = inr prob →
  ∃ rest,
    objective prob
    = lpSum ((if ignore_max_dist args then [] else [(1%Q, maxDuration)])
             ++ rest)
    ∧ free_of_max_duration (lpSum rest).
Proof.
  unfold build_model. intros H.
  destruct (decide (length (courses args) = 0)); [discriminate |].
  simpl in H.
  apply bind_inr in H as (mp & _ & H).
  apply bind_inr in H as (pr & Hpr & H).
  apply bind_inr in H as (obj & Hobj & H).
  apply bind_inr in H as (ci & _ & H). injection H as <-. simpl.
  unfold build_objective in Hobj.
  apply bind_inr in Hobj as (inv & _ & Hobj). injection Hobj as <-.
  eexists. split; [reflexivity |].
  unfold free_of_max_duration, lpSum. cbn [terms].
  apply Forall_app_2; apply Forall_fmap; unfold compose; simpl.
  - unfold distance_sum. free_of_max.
  - unfold preferences in Hpr.
    destruct (ignore_preferences args).
    + injection Hpr as <-. constructor.
    + eapply mapM_inr_Forall; [| exact Hpr].
      intros [[t g] c] y _ Hy.
      apply bind_inr in Hy as (q' & _ & Hy). by injection Hy as <-.
Qed.

Section Lowered.
Context (args : Args) (data : list team) (distance_matrix : gmap dkey Z).
Context (prob : LpProblem) (sol : solution).
Hypothesis Hbuild : build_model args data distance_matrix = inr prob.
Hypothesis Hfeas : feasible prob sol.

(** The value of [maxDuration] can be lowered as far as the costs of the
    teams allow. *)
Lemma lowered_max_duration_feasible m :
  (0 <= m)%Q →
  (∀ t, t ∈ teams data →
     (value sol
        (lpSum (c ← courses args; i ← teams data; j ← teams data;
                g ← groups args data;
                if decide (j ≠ i)
                then [(leg_cost args distance_matrix c i j, arc c i j t g)]
                else []))
      <= m)%Q) →
  feasible prob (with_max_duration m sol).
Proof.
  intros Hm Hcost.
  destruct (build_model_inr _ _ _ _ Hbuild) as (ci & Hci & Ec & Eb & En & _).
  assert (Hfree : ∀ l k, Forall constraint_free_of_max_duration l →
            k ∈ l → k ∈ constraints prob →
            holds (with_max_duration m sol) k).
  { intros l k Hl Hk Hin. apply holds_with_max_duration.
    - by apply (proj1 (Forall_forall _ _) Hl).
    - by apply Hfeas. }
  split.
  - intros v Hv. rewrite Eb in Hv.
    pose proof (binaries_not_max _ _ _ Hv) as Hne.
    assert (is_binary sol v) as Hbin by (apply Hfeas; by rewrite Eb).
    unfold is_binary, with_max_duration. by destruct v.
  - intros v Hv. rewrite En in Hv. apply list_elem_of_singleton in Hv as ->.
    done.
  - intros k Hk. pose proof Hk as Hk'. rewrite Ec in Hk'.
    apply elem_of_app in Hk' as [Hk' | Hk'];
      [by apply (Hfree _ _ (free_before_no_chef args data)) |].
    apply elem_of_app in Hk' as [Hk' | Hk'];
      [by apply (Hfree _ _ (free_no_chef args data)) |].
    apply elem_of_app in Hk' as [Hk' | Hk'].
    { unfold constraints_routing in Hk'. rewrite !app_assoc in Hk'.
      rewrite <- (app_assoc _ (min_time _ _ _)) in Hk'.
      apply elem_of_app in Hk' as [Hk' | Hk'];
        [| by apply (Hfree _ _
                       (free_routing_after_max_dist args data
                          distance_matrix))].
      apply elem_of_app in Hk' as [Hk' | Hk'].
      { rewrite <- !app_assoc in Hk'.
        by apply (Hfree _ _ (free_routing_before_max_dist args data)). }
      unfold max_dist in Hk'.
      destruct (ignore_max_dist args); [by apply elem_of_nil in Hk' |].
      apply list_elem_of_bind in Hk' as (t & Hk' & Ht).
      apply list_elem_of_singleton in Hk' as ->.
      simpl. rewrite value_with_max_duration
        by apply free_leg_costs.
      rewrite value_var. simpl. by apply Hcost. }
    apply elem_of_app in Hk' as [Hk' | Hk'];
      [by apply (Hfree _ _ (free_cook_incompatible args data ci Hci)) |].
    by apply (Hfree _ _ (free_tail args data)).
Qed.

End Lowered.

(** X23.  In an optimal solution of a model with the maximum distance in
    use, two courses or more and no distance from a team to itself, the
    value of maxDuration is the largest total of the team view, what the
    statistics print as the maximum travel time (zero when no total is
    above it). *)
Theorem optimal_max_duration_is_largest_total args data distance_matrix prob
    sol :
  build_model args data distance_matrix = inr prob →
  optimal prob sol →
  ignore_max_dist args = false →
  2 ≤ length (courses args) →
  (∀ i c, i ∈ teams data → c ∈ courses args →
     distance_matrix !!! Route i i c = 0%Z) →
  (sol maxDuration
   == inject_Z (max_distance (team_distances args data distance_matrix
                                sol)))%Q.
Proof.
  intros Hbuild [Hfeas Hopt] Hmax HK Hself.
  set (M := max_distance (team_distances args data distance_matrix sol)).
  destruct (build_model_inr _ _ _ _ Hbuild) as (_ & _ & _ & _ & En & _).
  assert (H0 : (0 <= sol maxDuration)%Q)
    by (apply Hfeas; rewrite En; left).
  assert (Hcost : ∀ t, t ∈ teams data →
    (value sol
       (lpSum (c ← courses args; i ← teams data; j ← teams data;
               g ← groups args data;
               if decide (j ≠ i)
               then [(leg_cost args distance_matrix c i j, arc c i j t g)]
               else []))
     == inject_Z (sumdistance (walk_team args data distance_matrix sol t)))%Q).
  { intros t Ht. rewrite value_lpSum.
    by apply (team_cost_is_total _ _ _ prob). }
  assert (Hupper : (inject_Z M <= sol maxDuration)%Q).
  { apply max_distance_upper; [done |]. intros d Hd.
    unfold team_distances in Hd.
    apply list_elem_of_fmap in Hd as (t & -> & Ht).
    pose proof (max_dist_in_model _ _ _ _ _ Hbuild Hmax Ht) as Hin.
    apply Hfeas in Hin. simpl in Hin.
    rewrite (Hcost t Ht), value_var in Hin. done. }
  destruct (Qlt_le_dec (inject_Z M) (sol maxDuration)) as [Hlt | Hle];
    [exfalso | by apply Qle_antisym].
  assert (Hfeas' : feasible prob (with_max_duration (inject_Z M) sol)).
  { apply (lowered_max_duration_feasible _ _ _ _ _ Hbuild Hfeas).
    - rewrite <- (Zle_Qle 0). apply max_distance_nonneg.
    - intros t Ht. rewrite (Hcost t Ht), <- Zle_Qle.
      apply max_distance_ge. unfold team_distances.
      apply list_elem_of_fmap. by exists t. }
  specialize (Hopt _ Hfeas').
  destruct (objective_shape _ _ _ _ Hbuild) as (rest & Eobj & Hrest).
  rewrite Eobj, Hmax, !value_lpSum, !sumQ_app in Hopt.
  pose proof (value_with_max_duration (inject_Z M) sol (lpSum rest) Hrest)
    as Erest.
  unfold value in Erest. cbn [terms constant lpSum] in Erest.
  assert (Erest' :
    (sumQ (λ tm, tm.1 * with_max_duration (inject_Z M) sol tm.2) rest
     == sumQ (λ tm, tm.1 * sol tm.2) rest)%Q).
  { apply (Qplus_inj_l _ _ 0). by rewrite Erest. }
  rewrite Erest' in Hopt. simpl in Hopt. lra.
Qed.

(** With two courses, the team that cooks the second one goes to its host
    of the first course and back home, and then to the afterparty. *)
Lemma second_cook_travels args data distance_matrix prob sol b g :
  build_model args data distance_matrix = inr prob →
  feasible prob sol →
  length (courses args) = 2 →
  ignore_max_dist args = false →
  (∀ i c, i ∈ teams data → c ∈ courses args →
     distance_matrix !!! Route i i c = 0%Z) →
  b ∈ teams data → g ∈ groups args data →
  (sol (chef b g 1) == 1)%Q →
  ∃ h, h ∈ teams data ∧ h ≠ b
    ∧ (inject_Z (distance_matrix !!! Route b h 0
                 + distance_matrix !!! Route h b 1
                 + distance_matrix !!! Afterparty b)
       <= sol maxDuration)%Q.
Proof.
  intros Hb Hfeas HK Hmax Hself Hbt Hg Hch.
  assert (Hc0 : 0 ∈ courses args) by (apply elem_of_courses; lia).
  assert (Hc1 : 1 ∈ courses args) by (apply elem_of_courses; lia).
  destruct (the_leg _ _ _ _ _ Hb Hfeas b Hbt 1 Hc1)
    as (i & j & g1 & E1 & Hi & Hj & Hg1 & H1).
  destruct (leg_assigned_to_chef _ _ _ _ _ Hb Hfeas b Hbt 1 i j g1
              Hc1 Hi Hj Hg1 H1) as [Ha1 Hchj].
  (* the team is in the group it cooks for *)
  assert (Hab : (sol (assignment b g 1) == 1)%Q).
  { apply binary_pos_one;
      [by apply (binary_assignment _ _ _ _ _ Hb Hfeas) |].
    pose proof (chef_le_assignment _ _ _ _ _ Hb Hfeas b g 1 Hbt Hg Hc1).
    lra. }
  assert (g1 = g) as ->.
  { destruct (sumQ_one_unique (λ g', sol (assignment b g' 1))
                (groups args data)) as (g2 & _ & _ & Huniq).
    - apply NoDup_seq.
    - intros g' Hg'. by apply (binary_assignment _ _ _ _ _ Hb Hfeas).
    - by apply (team_in_one_group _ _ _ _ _ Hb Hfeas).
    - by rewrite (Huniq g1 Hg1 Ha1), (Huniq g Hg Hab). }
  pose proof (one_chef_in_group _ _ _ _ _ Hb Hfeas g 1 j b Hg Hc1 Hj Hbt
                Hchj Hch) as ->.
  pose proof (later_leg_moves _ _ _ _ _ Hb Hfeas b Hbt 0 i b g Hc1 E1)
    as Hmove.
  destruct (the_leg _ _ _ _ _ Hb Hfeas b Hbt 0 Hc0)
    as (i0 & j0 & g0 & E0 & Hi0 & Hj0 & Hg0 & H10).
  pose proof (first_leg_from_home _ _ _ _ _ Hb Hfeas b Hbt i0 j0 g0 E0) as ->.
  pose proof (legs_chain _ _ _ _ _ Hb Hfeas b Hbt 0 b j0 g0 i b g Hc1 E0 E1)
    as ->.
  exists j0. split; [done |]. split; [congruence |].
  assert (Eit : itinerary args data sol b = [(0, b, j0, g0); (1, j0, b, g)]).
  { rewrite itinerary_by_course, (courses_seq args), HK. simpl.
    by rewrite E0, E1. }
  pose proof (max_dist_in_model _ _ _ _ _ Hb Hmax Hbt) as Hk.
  apply Hfeas in Hk. simpl in Hk. rewrite value_lpSum, value_var in Hk.
  rewrite (team_cost_is_total _ _ _ _ _ _ Hb Hfeas Hbt) in Hk;
    [| lia | done].
  unfold walk_team in Hk. rewrite walk_sumdistance in Hk.
  fold (itinerary args data sol b) in Hk. rewrite Eit in Hk.
  unfold afterparty_part, leg_of, leg_course, leg_origin, leg_destination
    in Hk.
  simpl in Hk. rewrite courses_last_pred, HK in Hk by lia. simpl in Hk.
  eapply Qle_trans; [| exact Hk].
  rewrite <- Zle_Qle. lia.
Qed.

(** The plan of [duo_solution] is the best there is for two teams. *)
Lemma pair_plan_optimal : optimal pair_model duo_solution.
Proof.
  assert (Hb : build_model pair_args pair_data pair_matrix = inr pair_model)
    by (vm_compute; reflexivity).
  assert (Eobj : objective pair_model = lpSum [(1%Q, maxDuration)])
    by (vm_compute; reflexivity).
  split; [apply feasibleb_feasible; vm_compute; reflexivity |].
  intros sol Hfeas. rewrite Eobj, !value_lpSum.
  assert (Hlow : (20 <= sol maxDuration)%Q).
  2:{ unfold sumQ. cbn [foldr fst snd].
      change (duo_solution maxDuration) with 20%Q. lra. }
  assert (HK : length (courses pair_args) = 2) by (vm_compute; reflexivity).
  assert (Hself : ∀ i c, i ∈ teams pair_data → c ∈ courses pair_args →
                    pair_matrix !!! Route i i c = 0%Z).
  { intros i c Hi Hc.
    apply elem_of_teams in Hi. apply elem_of_courses in Hc.
    vm_compute in Hi, Hc.
    destruct i as [| [| i]]; [| | lia];
      (destruct c as [| [| c]]; [| | lia]); vm_compute; reflexivity. }
  assert (Hg0 : 0 ∈ groups pair_args pair_data)
    by (apply (bool_decide_unpack _); vm_compute; exact I).
  assert (Hc1 : 1 ∈ courses pair_args)
    by (apply elem_of_courses; vm_compute; lia).
  destruct (roster_has_one_cook _ _ _ _ _ 1 0 Hb Hfeas Hc1 Hg0)
    as (b & Eind & _).
  assert (Hin : b ∈ chef_indicators pair_data sol 1 0) by (rewrite Eind; left).
  apply list_elem_of_filter in Hin as [[_ Hch] Hbt].
  apply Qeq_bool_iff in Hch.
  destruct (second_cook_travels _ _ _ _ _ b 0 Hb Hfeas HK eq_refl Hself
              Hbt Hg0 Hch) as (h & Hh & Hne & Hle).
  apply elem_of_teams in Hbt, Hh.
  assert (Hn : length pair_data = 2) by (vm_compute; reflexivity).
  rewrite Hn in Hbt, Hh.
  destruct b as [| [| b]]; [| | lia];
    (destruct h as [| [| h]]; [| | lia]); done.
Qed.

Lemma optimal_max_duration_is_largest_total_witness :
  (duo_solution maxDuration
   == inject_Z (max_distance (team_distances pair_args pair_data pair_matrix
                                duo_solution)))%Q.
Proof.
  assert (Hb : build_model pair_args pair_data pair_matrix = inr pair_model)
    by (vm_compute; reflexivity).
  assert (Hmax : ignore_max_dist pair_args = false) by reflexivity.
  assert (HK : 2 ≤ length (courses pair_args)) by (vm_compute; lia).
  assert (Hself : ∀ i c, i ∈ teams pair_data → c ∈ courses pair_args →
                    pair_matrix !!! Route i i c = 0%Z).
  { intros i c Hi Hc.
    apply elem_of_teams in Hi. apply elem_of_courses in Hc.
    vm_compute in Hi, Hc.
    destruct i as [| [| i]]; [| | lia];
      (destruct c as [| [| c]]; [| | lia]); vm_compute; reflexivity. }
  exact (optimal_max_duration_is_largest_total pair_args pair_data
           pair_matrix pair_model duo_solution Hb pair_plan_optimal Hmax HK
           Hself).
Defined.
